(** * azureai-assistant-tool: conversation rendering and task orchestration

    A shallow embedding of
      - [gui/conversation.py]: class [ConversationView] ([parse_message],
        [format_urls], [format_file_links], [append_message_chunk],
        [append_message], [append_messages], [append_image],
        [is_dark_mode]), class [ClickableTextEdit] ([find_urls],
        [open_file], [mousePressEvent]) and class [ConversationInputView]
        ([focusInEvent], [keyPressEvent]);
      - [samples/MultiAgentCodeOrchestration/main.py]:
        [extract_json_code_block], [requires_user_confirmation],
        [load_assistant_config], [initialize_assistants], [main], and the
        callbacks of [MultiAgentOrchestrator];
      - [setup.py]: the extraction of the version,
    followed by the properties of the specification that concern them and by
    further properties of the code.

    Python [str] values are modelled by [string]; a character is a code point
    below 256.  Dictionaries whose iteration order is never observed are
    [gmap]s, the one that is iterated ([task_completion_events]) is an
    insertion-ordered association list. *)

From Stdlib Require Import String Ascii List Arith NArith Lia Bool.
From stdpp Require Import base option gmap strings.
Import ListNotations.

Local Open Scope list_scope.
Local Open Scope string_scope.

(** [simpl] unfolds string concatenation on a constructor. *)
#[local] Arguments String.append !_ _ : simpl nomatch.

(* ===================================================================== *)
(** * Part I: definitions                                                *)
(* ===================================================================== *)

(** ** Python string primitives used by the two source files *)

Module PyStr.

(** Characters that cannot be written inside a literal. *)
Definition NL : ascii := "010"%char.      (* '\n' *)
Definition DQ : ascii := "034"%char.      (* the double quote *)
Definition SQ : ascii := "039"%char.      (* the single quote *)

Definition chr (c : ascii) : string := String c EmptyString.

(** [\s] of module [re] on a [str] pattern, restricted to code points
    below 256: TAB..CR, FS..US, SPACE, NEL and NBSP. *)
Definition is_space (c : ascii) : bool :=
  let n := nat_of_ascii c in
  (((9 <=? n) && (n <=? 13)) || ((28 <=? n) && (n <=? 32))
   || (n =? 133) || (n =? 160))%nat.

(** [\S] *)
Definition non_space (c : ascii) : bool := negb (is_space c).

(** [\d]: below 256 the only decimal digits are 0..9. *)
Definition is_digit (c : ascii) : bool :=
  let n := nat_of_ascii c in ((48 <=? n) && (n <=? 57))%nat.

(** [.] without DOTALL: anything but a line feed. *)
Definition not_newline (c : ascii) : bool := negb (Ascii.eqb c NL).

(** [[^\]]] and [[^ ]]. *)
Definition not_rbracket (c : ascii) : bool := negb (Ascii.eqb c "]"%char).
Definition not_blank (c : ascii) : bool := negb (Ascii.eqb c " "%char).

(** [[\s\S]]: every character. *)
Definition any_char (c : ascii) : bool := true.

(** [s.startswith(p)], returning what follows the prefix. *)
Fixpoint strip_prefix (p s : string) : option string :=
  match p with
  | EmptyString => Some s
  | String a p' =>
      match s with
      | String b s' => if Ascii.eqb a b then strip_prefix p' s' else None
      | EmptyString => None
      end
  end.

Definition startswith (p s : string) : bool :=
  match strip_prefix p s with Some _ => true | None => false end.

(** [p in s] *)
Fixpoint contains (p s : string) : bool :=
  startswith p s
  || match s with
     | String _ s' => contains p s'
     | EmptyString => false
     end.

(** [s.endswith("/")], the only use of [endswith] (in [posixpath.join]). *)
Fixpoint ends_with_char (c : ascii) (s : string) : bool :=
  match s with
  | EmptyString => false
  | String a EmptyString => Ascii.eqb a c
  | String _ s' => ends_with_char c s'
  end.

(** [sep.join(parts)] *)
Fixpoint join (sep : string) (parts : list string) : string :=
  match parts with
  | [] => ""
  | [p] => p
  | p :: ps => p ++ sep ++ join sep ps
  end.

(** [s.split(sep)] for a non-empty separator: cut at the leftmost
    occurrence, continue after it.  [skip] counts the characters of a
    separator still to be passed over, [cur] is the part being built. *)
Fixpoint split_from (sep : string) (skip : nat) (cur s : string) : list string :=
  match s with
  | EmptyString => [cur]
  | String c s' =>
      match skip with
      | S k => split_from sep k cur s'
      | O =>
          if startswith sep s
          then cur :: split_from sep (String.length sep - 1) "" s'
          else split_from sep 0 (cur ++ chr c) s'
      end
  end.

Definition split (sep s : string) : list string := split_from sep 0 "" s.

(** [s.split(c, 1)] at a single character: at most one cut. *)
Fixpoint split_once (c : ascii) (s : string) : list string :=
  match s with
  | EmptyString => [""]
  | String a s' =>
      if Ascii.eqb a c then [""; s']
      else match split_once c s' with
           | [x] => [String a x]
           | x :: rest => String a x :: rest
           | [] => []
           end
  end.

(** [s.lstrip(c)], [s.rstrip(c)] and [s.strip(c)] for a one-character set. *)
Fixpoint lstrip (c : ascii) (s : string) : string :=
  match s with
  | String a s' => if Ascii.eqb a c then lstrip c s' else s
  | EmptyString => ""
  end.

Fixpoint rstrip (c : ascii) (s : string) : string :=
  match s with
  | EmptyString => ""
  | String a s' =>
      match rstrip c s' with
      | EmptyString => if Ascii.eqb a c then "" else chr a
      | r => String a r
      end
  end.

Definition strip (c : ascii) (s : string) : string := rstrip c (lstrip c s).

(** [html.escape(s)] with its default [quote=True]. *)
Definition escape_char (c : ascii) : string :=
  if Ascii.eqb c "&"%char then "&amp;"
  else if Ascii.eqb c "<"%char then "&lt;"
  else if Ascii.eqb c ">"%char then "&gt;"
  else if Ascii.eqb c DQ then "&quot;"
  else if Ascii.eqb c SQ then "&#x27;"
  else chr c.

Fixpoint html_escape (s : string) : string :=
  match s with
  | EmptyString => ""
  | String c s' => escape_char c ++ html_escape s'
  end.

(** [str(n)] for a non-negative integer, as an f-string renders it. *)
Definition digit_char (d : nat) : ascii := ascii_of_nat (48 + d).

Fixpoint str_of_nat_fuel (fuel n : nat) (acc : string) : string :=
  match fuel with
  | O => acc
  | S f =>
      let acc' := String (digit_char (n mod 10)) acc in
      if (n <? 10)%nat then acc' else str_of_nat_fuel f (n / 10) acc'
  end.

Definition str_of_nat (n : nat) : string := str_of_nat_fuel (S n) n "".

(** [int(s)] on decimal digits, [v] being the value of the digits read so
    far. *)
Fixpoint int_from (v : nat) (s : string) : nat :=
  match s with
  | EmptyString => v
  | String c s' => int_from (10 * v + (nat_of_ascii c - 48)) s'
  end.

(** While [split] runs, the part being built holds no separator: no
    separator starts inside [cur] when [s] is the text still to be read. *)
Definition no_sep_inside (sep cur s : string) : Prop :=
  forall a b, cur = a ++ b -> b <> "" -> startswith sep (b ++ s) = false.

End PyStr.
Import PyStr.

(** ** Module [re]: backtracking matchers and the leftmost scan

    A pattern is embedded as a function from the text at the current
    position to the captured groups and the text left after the match.
    Quantified character classes are written with the combinators below, in
    continuation-passing style, so that a greedy quantifier gives characters
    back and a lazy one takes more exactly as the backtracking matcher of
    [re] does.  The first success found in that order is the match. *)

Module Re.

Section Combinators.
Context {R : Type}.

(** A literal piece of the pattern. *)
Definition lit (p : string) (k : string -> option R) (s : string) : option R :=
  match strip_prefix p s with
  | Some rest => k rest
  | None => None
  end.

(** [x?] for a literal [x], greedy. *)
Definition opt_lit (p : string) (k : string -> option R) (s : string) : option R :=
  match lit p k s with
  | Some r => Some r
  | None => k s
  end.

(** Greedy [C*] for a character class [C]; [cap] is the text already
    taken by the quantifier, handed to the continuation together with
    the remaining text. *)
Fixpoint star (cls : ascii -> bool) (k : string -> string -> option R)
    (cap s : string) : option R :=
  match s with
  | String c s' =>
      if cls c then
        match star cls k (cap ++ chr c) s' with
        | Some r => Some r
        | None => k cap s
        end
      else k cap s
  | EmptyString => k cap s
  end.

(** Greedy [C+]. *)
Definition plus (cls : ascii -> bool) (k : string -> string -> option R)
    (s : string) : option R :=
  match s with
  | String c s' => if cls c then star cls k (chr c) s' else None
  | EmptyString => None
  end.

(** Lazy [C*?]: the continuation is tried before another character is
    taken. *)
Fixpoint lazy_star (cls : ascii -> bool) (k : string -> string -> option R)
    (cap s : string) : option R :=
  match k cap s with
  | Some r => Some r
  | None =>
      match s with
      | String c s' => if cls c then lazy_star cls k (cap ++ chr c) s' else None
      | EmptyString => None
      end
  end.

End Combinators.

(** The pieces of a text cut by the successive matches of a pattern: a
    character no match covers, or a match with its groups. *)
Inductive token (M : Type) : Type :=
| Lit (c : ascii)
| Hit (m : M).
Arguments Lit {M} c.
Arguments Hit {M} m.

Section Scan.
Context {M : Type}.
Variable matcher : string -> option (M * string).

(** The scan shared by [re.sub], [re.findall] and [re.finditer]: try the
    pattern at every position from the left; after a match resume at
    its end.  [skip] counts the characters of the last match still to
    be passed over.  (None of the patterns of this program matches the
    empty string.) *)
Fixpoint scan_from (skip : nat) (s : string) : list (token M) :=
  match s with
  | EmptyString => []
  | String c s' =>
      match skip with
      | S k => scan_from k s'
      | O =>
          match matcher s with
          | Some (m, rest) =>
              Hit m :: scan_from (String.length s - String.length rest - 1) s'
          | None => Lit c :: scan_from 0 s'
          end
      end
  end.

Definition scan (s : string) : list (token M) := scan_from 0 s.

(** [re.search]: the leftmost match. *)
Fixpoint search (s : string) : option M :=
  match matcher s with
  | Some (m, _) => Some m
  | None =>
      match s with
      | String _ s' => search s'
      | EmptyString => None
      end
  end.

(** [re.findall] *)
Fixpoint hits (ts : list (token M)) : list M :=
  match ts with
  | [] => []
  | Lit _ :: ts' => hits ts'
  | Hit m :: ts' => m :: hits ts'
  end.

Definition findall (s : string) : list M := hits (scan s).

(** [re.sub(pattern, repl, s)] with a callable [repl] that reads and
    updates a state [St]; a callable that returns [None] contributes
    nothing to the result, as in CPython. *)
Fixpoint sub_tokens {St : Type} (repl : M -> St -> option string * St)
    (ts : list (token M)) (st : St) : string * St :=
  match ts with
  | [] => ("", st)
  | Lit c :: ts' =>
      let (out, st') := sub_tokens repl ts' st in (String c out, st')
  | Hit m :: ts' =>
      let (r, st1) := repl m st in
      let (out, st2) := sub_tokens repl ts' st1 in
      (match r with Some text => text ++ out | None => out end, st2)
  end.

Definition sub_with {St : Type} (repl : M -> St -> option string * St)
    (s : string) (st : St) : string * St :=
  sub_tokens repl (scan s) st.

(** [re.sub] with a pure replacement. *)
Definition sub (repl : M -> string) (s : string) : string :=
  fst (sub_with (fun m (st : unit) => (Some (repl m), st)) s tt).

End Scan.

End Re.

(** ** [posixpath.join] and [posixpath.normpath] ([os.path] on POSIX) *)

Module PosixPath.

(** [os.path.join(a, b)] *)
Definition path_join (a b : string) : string :=
  if startswith "/" b then b
  else if String.eqb a "" || ends_with_char "/" a then a ++ b
  else a ++ "/" ++ b.

(** The loop of [normpath] over the components. *)
Fixpoint norm_comps (initial_slashes : nat) (comps new_comps : list string)
    : list string :=
  match comps with
  | [] => new_comps
  | comp :: rest =>
      if String.eqb comp "" || String.eqb comp "." then
        norm_comps initial_slashes rest new_comps
      else if negb (String.eqb comp "..")
              || ((initial_slashes =? 0)%nat && (length new_comps =? 0)%nat)
              || match last new_comps with
                 | Some l => String.eqb l ".."
                 | None => false
                 end
      then norm_comps initial_slashes rest (new_comps ++ [comp])%list
      else norm_comps initial_slashes rest (removelast new_comps)
  end.

Definition normpath (path : string) : string :=
  if String.eqb path "" then "."
  else
    let initial_slashes :=
      if startswith "/" path then
        if startswith "//" path && negb (startswith "///" path) then 2 else 1
      else 0 in
    let comps := norm_comps initial_slashes (split "/" path) [] in
    let path' := join "/" comps in
    let path'' :=
      match initial_slashes with
      | 0 => path'
      | 1 => "/" ++ path'
      | _ => "//" ++ path'
      end in
    if String.eqb path'' "" then "." else path''.

End PosixPath.

(** ** [gui/conversation.py]: class [ConversationView] *)

Module ConversationView.
Import Re PosixPath.

(** The text a match covers, from where it starts and what it leaves. *)
Definition matched (s rest : string) : string :=
  substring 0 (String.length s - String.length rest) s.

(** *** [parse_message] (lines 358-379) *)

(** One pass of the loop body for the part at index [i]. *)
Definition parse_part (i : nat) (part : string) : bool * string :=
  let is_code := negb (i mod 2 =? 0)%nat in
  if is_code then
    match split_once NL part with
    | [language; code] => (is_code, strip NL code)
    | _ => (is_code, strip NL part)
    end
  else (is_code, part).

(** The loop [for i, part in enumerate(parts)] appending to [segments]. *)
Fixpoint parse_parts (i : nat) (parts : list string)
    (segments : list (bool * string)) : list (bool * string) :=
  match parts with
  | [] => segments
  | part :: rest => parse_parts (S i) rest (segments ++ [parse_part i part])%list
  end.

Definition parse_message (message : string) : list (bool * string) :=
  parse_parts 0 (split "```" message) [].

(** *** [format_urls] (lines 308-318) *)

(** [(https?://\S+)]: the URL and the text after it. *)
Definition url_pattern (s : string) : option (string * string) :=
  lit "http" (opt_lit "s" (lit "://"
    (plus non_space (fun _ rest => Some (matched s rest, rest))))) s.

(** [<a href="{url}" style="color:blue;">{url}</a>] *)
Definition replace_with_link (url : string) : string :=
  "<a href=" ++ chr DQ ++ url ++ chr DQ ++ " style=" ++ chr DQ ++ "color:blue;"
  ++ chr DQ ++ ">" ++ url ++ "</a>".

Definition format_urls (text : string) : string :=
  sub url_pattern replace_with_link text.

(** *** [format_file_links] (lines 320-356) *)

(** A value [{"path": local_file_path}] of [text_to_url_map]. *)
Record url_entry : Type := { path : string }.

(** The fields of the view that [format_file_links] reads and writes. *)
Record view : Type := {
  file_path : string;                          (* [self.file_path] *)
  text_to_url_map : gmap string url_entry      (* [self.text_to_url_map] *)
}.

(** The view after [__init__], and after the reset at the head of
    [append_messages]. *)
Definition init_view : view :=
  {| file_path := "output"; text_to_url_map := ∅ |}.

(** [\[(\d+)\]\s*(.+)]: groups (index, filename). *)
Definition file_citation_pattern (s : string) : option ((string * string) * string) :=
  lit "[" (plus is_digit (fun index r1 =>
    lit "]" (star is_space (fun _ r2 =>
      plus not_newline (fun filename r3 => Some ((index, filename), r3)) r2) "") r1)) s.

(** [\[([^\]]+)\]\(\s*\[(\d+)\]\s*\)]: groups (link text, citation index). *)
Definition citation_link_pattern (s : string) : option ((string * string) * string) :=
  lit "[" (plus not_rbracket (fun link_text r1 =>
    lit "](" (star is_space (fun _ r2 =>
      lit "[" (plus is_digit (fun citation_index r3 =>
        lit "]" (star is_space (fun _ r4 =>
          lit ")" (fun r5 => Some ((link_text, citation_index), r5)) r4) "") r3)) r2) "") r1)) s.

(** [\[\d+\]\s*[^ ]+\.png] *)
Definition citation_line_pattern (s : string) : option (unit * string) :=
  lit "[" (plus is_digit (fun _ r1 =>
    lit "]" (star is_space (fun _ r2 =>
      plus not_blank (fun _ r3 =>
        lit ".png" (fun r4 => Some (tt, r4)) r3) r2) "") r1)) s.

(** The loop filling [citation_to_filename] from the [findall] result. *)
Definition citation_table (file_citations : list (string * string))
    : gmap string string :=
  fold_left (fun d '(index, filename) => <[index := filename]> d)
            file_citations ∅.

(** The two [div]s returned for a resolved citation. *)
Definition clickable_html (local_file_path file_name link_text : string) : string :=
  "<div style=" ++ chr DQ ++ "display: inline-block;" ++ chr DQ ++ "><a href="
  ++ chr DQ ++ local_file_path ++ chr DQ ++ " style=" ++ chr DQ
  ++ "color:green; text-decoration: underline;" ++ chr DQ ++ " download="
  ++ chr DQ ++ file_name ++ chr DQ ++ ">" ++ link_text ++ "</a></div>"
  ++ "<div style=" ++ chr DQ ++ "display: inline-block; color:gray;" ++ chr DQ
  ++ ">" ++ local_file_path ++ "</div>".

(** The key under which a citation is stored. *)
Definition map_key (link_text : string) (m : gmap string url_entry) : string :=
  if decide (is_Some (m !! link_text))
  then link_text ++ " " ++ str_of_nat (size m + 1)
  else link_text.

(** The nested function [replace_with_clickable_text]; it falls off its
    end, returning [None], when the index has no file name. *)
Definition replace_with_clickable_text
    (citation_to_filename : gmap string string)
    (m : string * string) (self : view) : option string * view :=
  let (link_text, citation_index) := m in
  match citation_to_filename !! citation_index with
  | Some file_name =>
      if String.eqb file_name "" then (None, self)
      else
        let local_file_path := normpath (path_join (file_path self) file_name) in
        let link_text := map_key link_text (text_to_url_map self) in
        let self' :=
          {| file_path := file_path self;
             text_to_url_map :=
               <[link_text := {| path := local_file_path |}]> (text_to_url_map self) |} in
        (Some (clickable_html local_file_path file_name link_text), self')
  | None => (None, self)
  end.

Definition format_file_links (self : view) (text : string) : string * view :=
  let citation_to_filename := citation_table (findall file_citation_pattern text) in
  let (updated_text, self') :=
    sub_with citation_link_pattern
             (replace_with_clickable_text citation_to_filename) text self in
  (sub citation_line_pattern (fun _ => "") updated_text, self').

(** *** [append_message_chunk] (lines 287-306) *)

(** What is written through the text cursor, which every call first
    moves to the end of the document. *)
Inductive insertion : Type :=
| InsertHtml (html : string)      (* [cursor.insertHtml] *)
| InsertText (text : string).     (* [cursor.insertText] *)

(** The document of the [conversationView] widget: the insertions made so
    far, oldest first. *)
Definition document : Type := list insertion.

(** [<b style='color:black;'>{html.escape(sender)}:</b> ] *)
Definition sender_label (sender : string) : string :=
  "<b style='color:black;'>" ++ html_escape sender ++ ":</b> ".

(** [<span class='text-block' style='white-space: pre-wrap;'>{escaped_text}</span>] *)
Definition text_block (escaped_text : string) : string :=
  "<span class='text-block' style='white-space: pre-wrap;'>" ++ escaped_text
  ++ "</span>".

Definition append_message_chunk (doc : document) (sender message_chunk : string)
    (is_start_of_message : bool) : document :=
  let doc :=
    if is_start_of_message
    then (doc ++ [InsertHtml (sender_label sender)])%list
    else doc in
  let escaped_text := html_escape message_chunk in
  let formatted_text := text_block escaped_text in
  (doc ++ [InsertHtml formatted_text])%list.

(** *** The words of the specification about URLs and citations *)

(** A URL token starts here: [http://] or [https://] and then a character
    that is not white space. *)
Definition first_non_space (r : string) : bool :=
  match r with
  | String c _ => non_space c
  | EmptyString => false
  end.

Definition url_token_at (s : string) : bool :=
  match strip_prefix "http://" s with
  | Some r => first_non_space r
  | None => false
  end
  || match strip_prefix "https://" s with
     | Some r => first_non_space r
     | None => false
     end.

(** The text holds a URL token somewhere. *)
Fixpoint has_url (s : string) : bool :=
  url_token_at s
  || match s with
     | String _ s' => has_url s'
     | EmptyString => false
     end.

(** The view after the citations [ms] (link text, index) have been
    resolved one after the other: the state [re.sub] threads through the
    calls of [replace_with_clickable_text]. *)
Definition resolve (citation_to_filename : gmap string string)
    (m : string * string) (self : view) : view :=
  snd (replace_with_clickable_text citation_to_filename m self).

Definition resolve_all (citation_to_filename : gmap string string)
    (ms : list (string * string)) (self : view) : view :=
  fold_left (fun self m => resolve citation_to_filename m self) ms self.

End ConversationView.
Import ConversationView.

(** ** [samples/MultiAgentCodeOrchestration/main.py] *)

Module Orchestration.
Import Re.

(** *** The two helpers on the planner's reply (lines 132-152) *)

(** The two fences of the pattern. *)
Definition fence_open : string := "```json" ++ chr NL.
Definition fence_close : string := chr NL ++ "```".
#[global] Arguments fence_open : simpl never.
#[global] Arguments fence_close : simpl never.

(** The pattern of both helpers, [```json\n([\s\S]*?)\n```], group 1
    being the body of the block. *)
Definition json_block_pattern (s : string) : option (string * string) :=
  lit fence_open (lazy_star any_char (fun body r1 =>
    lit fence_close (fun r2 => Some (body, r2)) r1) "") s.

Definition extract_json_code_block (text : string) : string :=
  match search json_block_pattern text with
  | Some group1 => group1
  | None => text
  end.

Definition requires_user_confirmation (assistant_response : string) : bool :=
  let assistant_response :=
    sub json_block_pattern (fun _ => "") assistant_response in
  contains "?" assistant_response.

(** *** One pass of the [while True] loop of [main], from the planner's
    reply on (lines 173-184)

    [json.loads] belongs to the standard library; it is a parameter here.
    It returns the decoded value or raises: [JSONDecodeError] is the
    exception the loop catches, anything else leaves [main]. *)
Section MainLoop.
Variable Json : Type.

Inductive loads_result : Type :=
| Loaded (tasks : Json)
| JSONDecodeError
| OtherError.

Variable json_loads : string -> loads_result.

(** How the pass ends. *)
Inductive iteration : Type :=
| Continue                      (* [continue]: nothing was scheduled *)
| Scheduled (tasks : Json)      (* [schedule_task] then [wait_for_all_tasks] *)
| Propagated.                   (* an exception left the [try] *)

Definition main_iteration (content : string) : iteration :=
  if requires_user_confirmation content then Continue
  else
    match json_loads (extract_json_code_block content) with
    | Loaded tasks => Scheduled tasks
    | JSONDecodeError => Continue
    | OtherError => Propagated
    end.
End MainLoop.
Arguments Loaded {Json} tasks.
Arguments JSONDecodeError {Json}.
Arguments OtherError {Json}.
Arguments Continue {Json}.
Arguments Scheduled {Json} tasks.
Arguments Propagated {Json}.
Arguments main_iteration {Json} json_loads content.

(** *** [MultiAgentOrchestrator]: the completion rendezvous (lines 21-57
    and 88-93)

    The coroutines run on one event loop: between two suspension points a
    coroutine runs alone.  The state below holds the fields the callbacks
    and [wait_for_all_tasks] share, and where the call of
    [wait_for_all_tasks] stands. *)

Definition schedule_id : Type := nat.

(** The identity of an [asyncio.Event] object: its index in the store. *)
Definition event_ref : Type := nat.

(** A Python [dict] in insertion order. *)
Abbreviation dict V := (list (schedule_id * V)).

(** [d.get(k)] *)
Fixpoint dict_get {V : Type} (k : schedule_id) (d : dict V) : option V :=
  match d with
  | [] => None
  | (k', v) :: d' => if (k =? k')%nat then Some v else dict_get k d'
  end.

(** [d[k] = v]: a key already present keeps its position. *)
Fixpoint dict_set {V : Type} (k : schedule_id) (v : V) (d : dict V) : dict V :=
  match d with
  | [] => [(k, v)]
  | (k', v') :: d' =>
      if (k =? k')%nat then (k, v) :: d' else (k', v') :: dict_set k v d'
  end.

(** Who holds the lock of [self.condition]. *)
Inductive lock_state : Type :=
| Unlocked
| HeldByWaiter        (* by [wait_for_all_tasks] *)
| HeldByStarter.      (* by an [on_task_started] suspended in
                         [create_conversation_thread] *)

(** Where the call of [wait_for_all_tasks] stands. *)
Inductive waiter_pc : Type :=
| Idle                                   (* not called *)
| Acquiring                              (* entering [async with self.condition] *)
| Checking                               (* lock held, at the [while] test *)
| Waiting                                (* in [condition.wait()], lock released *)
| Notified                               (* woken, re-acquiring the lock *)
| Iterating (i : nat)                    (* lock held, [for] about to take item [i] *)
| AwaitingEvent (i : nat) (e : event_ref)  (* in [await event.wait()] on item [i] *)
| Returned.

Record state : Type := {
  task_completion_events : dict event_ref;   (* [self.task_completion_events] *)
  events : list bool;                        (* the flag of every Event created *)
  task_started : bool;                       (* [self.task_started] *)
  thread_name : option string;               (* [self.thread_name] *)
  condition : lock_state;                    (* the lock of [self.condition] *)
  waiter : waiter_pc
}.

(** After [__init__]. *)
Definition init : state :=
  {| task_completion_events := []; events := []; task_started := false;
     thread_name := None; condition := Unlocked; waiter := Idle |}.

(** The one exception these callbacks could raise: a method called on
    [None]. *)
Inductive py_exception : Type := AttributeError.

Inductive outcome (A : Type) : Type :=
| Ok (a : A)
| Raise (e : py_exception).
Arguments Ok {A} a.
Arguments Raise {A} e.

(** [event.is_set()] *)
Definition is_set (s : state) (e : event_ref) : bool :=
  match events s !! e with
  | Some flag => flag
  | None => false
  end.

(** [event.set()] on the result of a [get]: [None] has no such method. *)
Definition event_set (event : option event_ref) (s : state) : outcome state :=
  match event with
  | Some e =>
      Ok {| task_completion_events := task_completion_events s;
            events := <[e := true]> (events s);
            task_started := task_started s;
            thread_name := thread_name s;
            condition := condition s;
            waiter := waiter s |}
  | None => Raise AttributeError
  end.

(** The truth value of [event]: an [Event] object is true, [None] is not. *)
Definition truthy (event : option event_ref) : bool :=
  match event with Some _ => true | None => false end.

Definition clear_task_started (s : state) : state :=
  {| task_completion_events := task_completion_events s;
     events := events s;
     task_started := false;
     thread_name := thread_name s;
     condition := condition s;
     waiter := waiter s |}.

(** [on_task_completed]; the callback has no suspension point. *)
Definition on_task_completed (sid : schedule_id) (s : state) : outcome state :=
  let event := dict_get sid (task_completion_events s) in
  match (if truthy event then event_set event s else Ok s) with
  | Ok s1 => Ok (clear_task_started s1)
  | Raise e => Raise e
  end.

(** [on_task_failed]: the same body. *)
Definition on_task_failed (sid : schedule_id) (s : state) : outcome state :=
  let event := dict_get sid (task_completion_events s) in
  match (if truthy event then event_set event s else Ok s) with
  | Ok s1 => Ok (clear_task_started s1)
  | Raise e => Raise e
  end.

(** [on_task_started] up to its [await]: it runs once the lock is free,
    registers a new Event, raises the flag, wakes the waiter and keeps
    the lock while the thread is being created. *)
Definition on_task_started_enter (sid : schedule_id) (s : state) : option state :=
  match condition s with
  | Unlocked =>
      Some {| task_completion_events :=
                dict_set sid (length (events s)) (task_completion_events s);
              events := (events s ++ [false])%list;
              task_started := true;
              thread_name := thread_name s;
              condition := HeldByStarter;
              waiter := match waiter s with Waiting => Notified | pc => pc end |}
  | _ => None
  end.

(** [on_task_started] after its [await]: the thread name is stored and the
    lock released. *)
Definition on_task_started_exit (name : string) (s : state) : option state :=
  match condition s with
  | HeldByStarter =>
      Some {| task_completion_events := task_completion_events s;
              events := events s;
              task_started := task_started s;
              thread_name := Some name;
              condition := Unlocked;
              waiter := waiter s |}
  | _ => None
  end.

Definition set_waiter (pc : waiter_pc) (c : lock_state) (s : state) : state :=
  {| task_completion_events := task_completion_events s;
     events := events s;
     task_started := task_started s;
     thread_name := thread_name s;
     condition := c;
     waiter := pc |}.

(** The call of [wait_for_all_tasks] by [main], which awaits each call
    before it makes the next. *)
Definition wait_for_all_tasks_call (s : state) : option state :=
  match waiter s with
  | Idle | Returned => Some (set_waiter Acquiring (condition s) s)
  | _ => None
  end.

(** One move of [wait_for_all_tasks]; [None] where it is suspended. *)
Definition wait_for_all_tasks_step (s : state) : option state :=
  match waiter s with
  | Acquiring | Notified =>
      match condition s with
      | Unlocked => Some (set_waiter Checking HeldByWaiter s)
      | _ => None
      end
  | Checking =>
      if task_started s
      then Some (set_waiter (Iterating 0) (condition s) s)
      else Some (set_waiter Waiting Unlocked s)
  | Iterating i =>
      match task_completion_events s !! i with
      | Some (_, event) => Some (set_waiter (AwaitingEvent i event) (condition s) s)
      | None => Some (set_waiter Returned Unlocked s)
      end
  | AwaitingEvent i event =>
      if is_set s event
      then Some (set_waiter (Iterating (S i)) (condition s) s)
      else None
  | Idle | Waiting | Returned => None
  end.

(** What can happen next on the event loop. *)
Inductive label : Type :=
| CallWait                              (* [main] calls [wait_for_all_tasks] *)
| WaiterStep                            (* [wait_for_all_tasks] moves on *)
| TaskStarted (sid : schedule_id)       (* [on_task_started] takes the lock *)
| ThreadCreated (name : string)         (* its [await] completes *)
| TaskCompleted (sid : schedule_id)     (* [on_task_completed] *)
| TaskFailed (sid : schedule_id).       (* [on_task_failed] *)

Definition of_outcome {A : Type} (o : outcome A) : option A :=
  match o with Ok a => Some a | Raise _ => None end.

Definition step (l : label) (s : state) : option state :=
  match l with
  | CallWait => wait_for_all_tasks_call s
  | WaiterStep => wait_for_all_tasks_step s
  | TaskStarted sid => on_task_started_enter sid s
  | ThreadCreated name => on_task_started_exit name s
  | TaskCompleted sid => of_outcome (on_task_completed sid s)
  | TaskFailed sid => of_outcome (on_task_failed sid s)
  end.

(** An execution: the labels in the order they happen. *)
Fixpoint run (sched : list label) (s : state) : option state :=
  match sched with
  | [] => Some s
  | l :: sched' =>
      match step l s with
      | Some s' => run sched' s'
      | None => None
      end
  end.

(** *** The words of the specification about the rendezvous *)

(** [l] is a terminal callback of the batch [sid]. *)
Definition is_terminal (sid : schedule_id) (l : label) : bool :=
  match l with
  | TaskCompleted sid' | TaskFailed sid' => (sid =? sid')%nat
  | _ => false
  end.

(** [wait_for_all_tasks] is in its [for] loop. *)
Definition in_loop (pc : waiter_pc) : bool :=
  match pc with
  | Iterating _ | AwaitingEvent _ _ => true
  | _ => false
  end.

(** *** The invariant of the rendezvous

    What holds in every state an execution reaches: the lock is with the
    waiter exactly from the [while] test to the end of the [for] loop;
    every registered Event exists and is registered once; a set Event was
    set by a terminal callback of its schedule id; the items the loop has
    passed are set; the loop was entered from a test that found
    [task_started] true, in the same call; [task_started] is true only
    after an [on_task_started]. *)
Record invariant (sched : list label) (s : state) : Prop := {
  inv_lock :
    condition s = HeldByWaiter
    <-> (waiter s = Checking \/ in_loop (waiter s) = true);
  inv_range :
    forall i sid e, task_completion_events s !! i = Some (sid, e) ->
                    e < length (events s);
  inv_nodup : NoDup (snd <$> task_completion_events s);
  inv_set_by :
    forall i sid e, task_completion_events s !! i = Some (sid, e) ->
                    is_set s e = true ->
                    exists l, In l sched /\ is_terminal sid l = true;
  inv_progress :
    forall i, (waiter s = Iterating i \/ exists e, waiter s = AwaitingEvent i e) ->
              forall j sid e, j < i ->
                              task_completion_events s !! j = Some (sid, e) ->
                              is_set s e = true;
  inv_await :
    forall i e, waiter s = AwaitingEvent i e ->
                exists sid, task_completion_events s !! i = Some (sid, e);
  inv_observed :
    in_loop (waiter s) = true ->
    exists before after s0,
      sched = (before ++ WaiterStep :: after)%list
      /\ run before init = Some s0
      /\ waiter s0 = Checking /\ task_started s0 = true
      /\ ~ In CallWait after;
  inv_started :
    task_started s = true -> exists sid, In (TaskStarted sid) sched
}.

(** *** The words of the specification about the planner's reply *)

(** The reply holds a json block: an opening fence line [```json] and, after
    it, a closing fence at the start of a line. *)
Fixpoint has_json_block (text : string) : bool :=
  match strip_prefix fence_open text with
  | Some r => contains fence_close r
  | None => false
  end
  || match text with
     | String _ text' => has_json_block text'
     | EmptyString => false
     end.

(** [pre] holds an opening fence that no closing fence follows within
    [pre]. *)
Fixpoint open_fence (pre : string) : bool :=
  match strip_prefix fence_open pre with
  | Some body => negb (contains fence_close body)
  | None => false
  end
  || match pre with
     | String _ pre' => open_fence pre'
     | EmptyString => false
     end.

(** The character between [pre] and [post] stands inside a json block: a
    fence opened before it is still open, and a closing fence follows. *)
Definition inside_json_block (pre post : string) : bool :=
  open_fence pre && contains fence_close post.

End Orchestration.
Import Orchestration.

(** ** More of Python's [str] and of the standard library

    What the functions below need beyond [PyStr]: the methods without a
    character argument, [str.replace], [str.count], and
    [base64.b64encode]. *)

Module PyLib.

(** [s.lstrip()], [s.rstrip()] and [s.strip()]: white space is removed;
    below 256 [str.isspace] and [\s] agree. *)
Fixpoint lstrip_ws (s : string) : string :=
  match s with
  | String a s' => if is_space a then lstrip_ws s' else s
  | EmptyString => ""
  end.

Fixpoint rstrip_ws (s : string) : string :=
  match s with
  | EmptyString => ""
  | String a s' =>
      match rstrip_ws s' with
      | EmptyString => if is_space a then "" else chr a
      | r => String a r
      end
  end.

Definition strip_ws (s : string) : string := rstrip_ws (lstrip_ws s).

(** Every character of [s] is in the class [cls]. *)
Fixpoint all_chars (cls : ascii -> bool) (s : string) : bool :=
  match s with
  | EmptyString => true
  | String c s' => cls c && all_chars cls s'
  end.

(** [s.isspace()]: at least one character, and white space only. *)
Definition isspace (s : string) : bool :=
  match s with
  | EmptyString => false
  | String _ _ => all_chars is_space s
  end.

(** [s.lower()] below 256: A..Z, and the capital letters of Latin-1
    (all of U+00C0..U+00DE but the multiplication sign). *)
Definition lower_char (c : ascii) : ascii :=
  let n := nat_of_ascii c in
  if (((65 <=? n) && (n <=? 90))
      || ((192 <=? n) && (n <=? 222) && negb (n =? 215)))%nat
  then ascii_of_nat (n + 32)
  else c.

Fixpoint lower (s : string) : string :=
  match s with
  | EmptyString => ""
  | String c s' => String (lower_char c) (lower s')
  end.

(** [s.replace(old, new)] for a one-character [old]. *)
Fixpoint replace_char (old : ascii) (new s : string) : string :=
  match s with
  | EmptyString => ""
  | String c s' =>
      (if Ascii.eqb c old then new else chr c) ++ replace_char old new s'
  end.

(** [s.count(c)] for a one-character [c]. *)
Fixpoint count_char (c : ascii) (s : string) : nat :=
  match s with
  | EmptyString => 0
  | String a s' => (if Ascii.eqb a c then 1 else 0) + count_char c s'
  end.

(** [base64.b64encode(data).decode()], bytes being the characters of a
    [string]: three bytes give four digits of six bits, and the last
    group is padded with [=]. *)
Definition b64_alphabet : string :=
  "ABCDEFGHIJKLMNOPQRSTUVWXYZabcdefghijklmnopqrstuvwxyz0123456789+/".

Definition b64_digit (n : nat) : ascii :=
  match String.get n b64_alphabet with
  | Some c => c
  | None => "="%char
  end.

Fixpoint b64encode (data : string) : string :=
  match data with
  | EmptyString => ""
  | String a EmptyString =>
      let x := nat_of_ascii a in
      String (b64_digit (x / 4)) (String (b64_digit (x mod 4 * 16)) "==")
  | String a (String b EmptyString) =>
      let x := nat_of_ascii a in
      let y := nat_of_ascii b in
      String (b64_digit (x / 4))
        (String (b64_digit (x mod 4 * 16 + y / 16))
           (String (b64_digit (y mod 16 * 4)) "="))
  | String a (String b (String c rest)) =>
      let x := nat_of_ascii a in
      let y := nat_of_ascii b in
      let z := nat_of_ascii c in
      String (b64_digit (x / 4))
        (String (b64_digit (x mod 4 * 16 + y / 16))
           (String (b64_digit (y mod 16 * 4 + z / 64))
              (String (b64_digit (z mod 64)) (b64encode rest))))
  end.

End PyLib.
Import PyLib.

(** ** [gui/conversation.py]: class [ConversationInputView] (lines 19-88) *)

Module ConversationInputView.

Definition PLACEHOLDER_TEXT : string := "Message Assistant...".

(** [Qt.Key_Return] and [Qt.Key_Enter]. *)
Definition Key_Return : N := 16777220%N.
Definition Key_Enter : N := 16777221%N.

(** What the handlers read of a [QKeyEvent]: [event.key()],
    [event.modifiers()] (a set of flags, false when empty) and
    [event.text()]. *)
Record key_event : Type := {
  key : N;
  modifiers : N;
  text : string
}.

(** The field after a handler, the texts handed to
    [main_window.on_user_input_complete], and whether the event went on to
    the handler of [QTextEdit]. *)
Record handled : Type := {
  plain_text : string;            (* [self.toPlainText()] *)
  submitted : list string;
  passed_on : bool
}.

(** [focusInEvent] (lines 30-34) *)
Definition focusInEvent (plain_text : string) : handled :=
  {| plain_text := if String.eqb plain_text PLACEHOLDER_TEXT then "" else plain_text;
     submitted := [];
     passed_on := true |}.

(** [keyPressEvent] (lines 36-52) *)
Definition keyPressEvent (plain_text : string) (event : key_event) : handled :=
  let plain_text :=
    if String.eqb plain_text PLACEHOLDER_TEXT && negb (isspace (text event))
    then "" else plain_text in
  if N.eqb (key event) Key_Return && N.eqb (modifiers event) 0 then
    {| plain_text := ""; submitted := [plain_text]; passed_on := false |}
  else if N.eqb (key event) Key_Enter then
    {| plain_text := ""; submitted := [plain_text]; passed_on := false |}
  else
    {| plain_text := plain_text; submitted := []; passed_on := true |}.

End ConversationInputView.

(** ** [gui/conversation.py]: class [ClickableTextEdit] (lines 91-130) *)

Module ClickableTextEdit.
Import Re.

(** The triples [(match.group(0), match.start(), match.end())] of the
    matches of a scan that has reached position [pos]. *)
Fixpoint spans (pos : nat) (ts : list (token string)) : list (string * nat * nat) :=
  match ts with
  | [] => []
  | Lit _ :: ts' => spans (S pos) ts'
  | Hit url :: ts' =>
      (url, pos, pos + String.length url) :: spans (pos + String.length url) ts'
  end.

(** [find_urls] (lines 127-130): [re.finditer] of [https?://\S+], the
    pattern of [format_urls] without its group. *)
Definition find_urls (text : string) : list (string * nat * nat) :=
  spans 0 (scan url_pattern text).

(** What a click does outside the widget. *)
Inductive effect : Type :=
| SubprocessCall (argv : list string)     (* [subprocess.call(argv)] *)
| StartFile (file_path : string)          (* [os.startfile(file_path)] *)
| OpenUrl (url : string)                  (* [QDesktopServices.openUrl(QUrl(url))] *)
| SuperMousePressEvent.                   (* [super().mousePressEvent(event)] *)

(** [open_file] (lines 119-125), [platform] being [sys.platform]. *)
Definition open_file (platform file_path : string) : list effect :=
  if startswith "linux" platform then [SubprocessCall ["xdg-open"; file_path]]
  else if startswith "win32" platform then [StartFile file_path]
  else if startswith "darwin" platform then [SubprocessCall ["open"; file_path]]
  else [].

(** The loop over [find_urls] (lines 112-115): the URL of the first span
    that holds the click, both ends included. *)
Fixpoint clicked_url (pos : nat) (urls : list (string * nat * nat)) : option string :=
  match urls with
  | [] => None
  | (url, start, end_) :: rest =>
      if ((start <=? pos) && (pos <=? end_))%nat then Some url
      else clicked_url pos rest
  end.

(** [mousePressEvent] (lines 96-117).  [pos], [text] and [line_text] are
    what Qt gives for the click: the position of the cursor, the plain text
    of the document and the text of the block under the cursor. *)
Definition mousePressEvent (platform : string)
    (text_to_url_map : gmap string url_entry)
    (pos : nat) (text line_text : string) : list effect :=
  let opened :=
    match text_to_url_map !! strip_ws line_text with
    | Some entry => open_file platform (path entry)
    | None => []
    end in
  match clicked_url pos (find_urls text) with
  | Some url => opened ++ [OpenUrl url]
  | None => opened ++ [SuperMousePressEvent]
  end.

End ClickableTextEdit.

(** ** [gui/conversation.py]: what [ConversationView] displays (lines
    201-285) *)

Module Display.
Import Re.

(** [is_dark_mode] (lines 201-211): [app] is the lightness of the window
    colour of the application's palette, [None] without an application. *)
Definition is_dark_mode (app : option nat) : bool :=
  match app with
  | Some lightness => (lightness <? 127)%nat
  | None => false
  end.

(** [<b style='color:{color};'>{sender}:</b> ] *)
Definition sender_html (color sender : string) : string :=
  "<b style='color:" ++ color ++ ";'>" ++ sender ++ ":</b> ".

(** [html.escape(text).replace('\n', '<br>')] *)
Definition escaped_code (text : string) : string :=
  replace_char NL "<br>" (html_escape text).

(** [<pre class='code-block'>{escaped_code}</pre>] *)
Definition code_block (escaped_code : string) : string :=
  "<pre class='code-block'>" ++ escaped_code ++ "</pre>".

(** One pass of the loop [for is_code, text in segments] of
    [append_message]. *)
Definition append_segment (acc : document * view) (segment : bool * string)
    : document * view :=
  let (doc, self) := acc in
  let (is_code, text) := segment in
  if is_code then
    let formatted_code := code_block (escaped_code text) in
    ((doc ++ [InsertHtml formatted_code; InsertText (chr NL)])%list, self)
  else
    let (text, self) := format_file_links self text in
    let text := format_urls text in
    let formatted_text := text_block text in
    ((doc ++ [InsertHtml formatted_text; InsertText (chr NL)])%list, self).

(** [append_message] (lines 258-285) *)
Definition append_message (self : view) (doc : document)
    (sender message color : string) : document * view :=
  let doc := (doc ++ [InsertHtml (sender_html color sender)])%list in
  let segments := parse_message message in
  let (doc, self) := fold_left append_segment segments (doc, self) in
  ((doc ++ [InsertText (chr NL)])%list, self).

(** [<img src='data:image/png;base64,{base64_image}' alt='Image'
    style='width:100px; height:auto;'>] *)
Definition image_html (base64_image : string) : string :=
  "<img src='data:image/png;base64," ++ base64_image
  ++ "' alt='Image' style='width:100px; height:auto;'>".

(** What [append_messages] reads of a message object: its [type] and the
    attributes of a [TextMessage]. *)
Record message : Type := {
  type : string;
  role : string;
  sender : string;
  content : string
}.

Section Files.

(** [image_message.retrieve_image(self.file_path)]: the path of the local
    copy; the call, like [retrieve_file], is taken to return. *)
Variable retrieve_image : message -> string -> string.

(** [open(image_path, "rb").read()]: the bytes of the file, [None]
    where [open] raises. *)
Variable read_bytes : string -> option string.

(** [convert_image_to_base64] (lines 237-240) *)
Definition convert_image_to_base64 (image_path : string) : option string :=
  match read_bytes image_path with
  | Some data => Some (b64encode data)
  | None => None
  end.

(** [append_image] (lines 242-256); [None] when the file cannot be
    read: the exception of [open] leaves the method before anything is
    inserted.  The method does not use [assistant_name]. *)
Definition append_image (doc : document) (image_path assistant_name : string)
    : option document :=
  match convert_image_to_base64 image_path with
  | Some base64_image =>
      Some (doc ++ [InsertHtml (image_html base64_image);
                    InsertText (chr NL ++ chr NL)])%list
  | None => None
  end.

(** The colour of a sender's name (lines 219-224). *)
Definition color_of (dark : bool) (role : string) : string :=
  if dark
  then (if negb (String.eqb role "assistant") then "blue" else "#D3D3D3")
  else (if negb (String.eqb role "assistant") then "blue" else "black").

(** The outcome of [append_messages]: the document and the view, the
    messages whose file was retrieved, and whether an exception of [open]
    ended the loop. *)
Record rendering : Type := {
  shown : document;
  self_after : view;
  retrieved : list message;
  raised : bool
}.

(** One pass of the loop of [append_messages]. *)
Definition append_one (app : option nat) (r : rendering) (m : message) : rendering :=
  if raised r then r
  else if String.eqb (type m) "text" then
    let color := color_of (is_dark_mode app) (role m) in
    let (doc, self) := append_message (self_after r) (shown r) (sender m) (content m) color in
    {| shown := doc; self_after := self; retrieved := retrieved r; raised := false |}
  else if String.eqb (type m) "file" then
    {| shown := shown r; self_after := self_after r;
       retrieved := (retrieved r ++ [m])%list; raised := false |}
  else if String.eqb (type m) "image_file" then
    let file_path' := retrieve_image m (file_path (self_after r)) in
    let retrieved := (retrieved r ++ [m])%list in
    match append_image (shown r) file_path' (sender m) with
    | Some doc =>
        {| shown := doc; self_after := self_after r; retrieved := retrieved;
           raised := false |}
    | None =>
        {| shown := shown r; self_after := self_after r; retrieved := retrieved;
           raised := true |}
    end
  else r.

(** [append_messages] (lines 213-235): the map is emptied, then the
    messages are taken from the last to the first. *)
Definition append_messages (app : option nat) (self : view) (doc : document)
    (messages : list message) : rendering :=
  let self := {| file_path := file_path self; text_to_url_map := ∅ |} in
  fold_left (append_one app) (rev messages)
            {| shown := doc; self_after := self; retrieved := []; raised := false |}.

End Files.

(** Two outcomes that show the same; they may differ in the files
    retrieved. *)
Definition same_display (r1 r2 : rendering) : Prop :=
  shown r1 = shown r2
  /\ self_after r1 = self_after r2
  /\ raised r1 = raised r2.

End Display.

(** ** [main.py]: [MultiAgentOrchestrator.on_task_execute] (lines 37-43) *)

Module TaskExecution.

Section Execute.

(** The [AsyncAssistantClient] objects. *)
Variable Client : Type.

Inductive py_exception : Type :=
| KeyError (key : string)            (* a missing key of a [dict] *)
| AttributeError (name : string).    (* an attribute never assigned *)

(** The calls made on the conversation thread client and on the
    assistants, and the lines printed. *)
Inductive call : Type :=
| Print (line : string)
| CreateMessage (message thread_name : string)
| ProcessMessages (assistant_client : Client) (thread_name : string).

(** The loop over [task.requests].  [thread_name_at k] is the value of
    [self.thread_name] when the call reads it for the [k]-th time (other
    callbacks may run at each [await]), [None] while [on_task_started] has
    not yet assigned it. *)
Fixpoint execute_requests (_assistants : gmap string Client)
    (thread_name_at : nat -> option string) (reads : nat)
    (requests : list (gmap string string)) : list call * option py_exception :=
  match requests with
  | [] => ([], None)
  | request :: rest =>
      match request !! "assistant" with
      | None => ([], Some (KeyError "assistant"))
      | Some assistant_name =>
          match _assistants !! assistant_name with
          | None => ([], Some (KeyError assistant_name))
          | Some assistant_client =>
              match request !! "task" with
              | None => ([], Some (KeyError "task"))
              | Some task =>
                  match thread_name_at reads with
                  | None => ([], Some (AttributeError "thread_name"))
                  | Some thread1 =>
                      match thread_name_at (S reads) with
                      | None =>
                          ([CreateMessage task thread1],
                           Some (AttributeError "thread_name"))
                      | Some thread2 =>
                          let (calls, e) :=
                            execute_requests _assistants thread_name_at
                                             (S (S reads)) rest in
                          (CreateMessage task thread1
                             :: ProcessMessages assistant_client thread2 :: calls, e)
                      end
                  end
              end
          end
      end
  end.

(** [on_task_execute]; [task_id] and [schedule_id] are the texts the
    f-string prints for them. *)
Definition on_task_execute (_assistants : gmap string Client)
    (thread_name_at : nat -> option string)
    (task_id schedule_id : string) (requests : list (gmap string string))
    : list call * option py_exception :=
  let (calls, e) := execute_requests _assistants thread_name_at 0 requests in
  (Print (chr NL ++ "Task " ++ task_id ++ " execute with schedule ID: " ++ schedule_id)
     :: calls, e).

(** The two calls made for a request whose assistant is registered and
    whose task is given, on the thread [thread_name]. *)
Definition request_calls (_assistants : gmap string Client) (thread_name : string)
    (request : gmap string string) : list call :=
  match request !! "assistant" with
  | Some assistant_name =>
      match _assistants !! assistant_name, request !! "task" with
      | Some assistant_client, Some task =>
          [CreateMessage task thread_name;
           ProcessMessages assistant_client thread_name]
      | _, _ => []
      end
  | None => []
  end.

(** The request can be executed: it names a registered assistant and
    gives a task. *)
Definition executable (_assistants : gmap string Client)
    (request : gmap string string) : Prop :=
  exists assistant_name assistant_client task,
    request !! "assistant" = Some assistant_name
    /\ _assistants !! assistant_name = Some assistant_client
    /\ request !! "task" = Some task.

End Execute.
Arguments Print {Client} line.
Arguments CreateMessage {Client} message thread_name.
Arguments ProcessMessages {Client} assistant_client thread_name.
Arguments execute_requests {Client} _assistants thread_name_at reads requests.
Arguments on_task_execute {Client} _assistants thread_name_at task_id schedule_id
  requests.
Arguments request_calls {Client} _assistants thread_name request.
Arguments executable {Client} _assistants request.

End TaskExecution.

(** ** [main.py]: [load_assistant_config], [initialize_assistants] and
    [main] (lines 104-129 and 155-186) *)

Module MainProgram.

(** The client built for an assistant: by [AsyncChatAssistantClient.from_yaml]
    or by [AsyncAssistantClient.from_yaml], from the text of its
    configuration; both calls are taken to return.  What these functions
    print on the console is left out. *)
Inductive client : Type :=
| ChatAssistantClient (config : string)
| AssistantClient (config : string).

Section Main.

(** [open(path, "r").read()], [None] where it raises. *)
Variable read_text : string -> option string.

(** [load_assistant_config] (lines 104-113): the text of the file, [None]
    after any exception. *)
Definition load_assistant_config (assistant_name : string) : option string :=
  read_text ("config/" ++ assistant_name ++ "_assistant_config.yaml").

(** One pass of the loop of [initialize_assistants]; [if config:] is
    false for [None] and for the empty text. *)
Definition initialize_assistant (assistants : gmap string client)
    (assistant_name : string) : gmap string client :=
  match load_assistant_config assistant_name with
  | Some config =>
      if String.eqb config "" then assistants
      else if String.eqb assistant_name "TaskPlannerAgent"
              || String.eqb assistant_name "FileCreatorAgent"
      then <[assistant_name := ChatAssistantClient config]> assistants
      else <[assistant_name := AssistantClient config]> assistants
  | None => assistants
  end.

(** [initialize_assistants] (lines 116-129) *)
Definition initialize_assistants (assistant_names : list string)
    : gmap string client :=
  fold_left initialize_assistant assistant_names ∅.

Variable Json : Type.
Variable json_loads : string -> loads_result Json.

(** [conversation.get_last_text_message("TaskPlannerAgent").content] once
    the requests [posted] have been processed on the planner's thread;
    [None] when there is no such message. *)
Variable planner_reply : list string -> option string.

(** How [main] ends. *)
Inductive ending : Type :=
| Exited                 (* [exit] was typed; the thread client is closed *)
| EOFError               (* [input] found the end of the input *)
| KeyError               (* no client for [TaskPlannerAgent] *)
| AttributeError         (* [.content] of [None] *)
| OtherException.        (* [json.loads] raised something else *)

(** The calls [main] awaits, in order. *)
Inductive action : Type :=
| CreateConversationThread
| CreateMessage (user_request : string)
| ProcessMessages (planner : client)
| ScheduleTask (tasks : Json)
| WaitForAllTasks
| Close.

(** The [while True] loop (lines 164-184) over the lines [input]
    returns; every awaited call is taken to return. *)
Fixpoint main_loop (assistants : gmap string client) (posted lines : list string)
    : list action * ending :=
  match lines with
  | [] => ([], EOFError)
  | line :: rest =>
      let user_request := strip_ws line in
      if String.eqb (lower user_request) "exit" then ([Close], Exited)
      else if String.eqb user_request "" then main_loop assistants posted rest
      else
        match assistants !! "TaskPlannerAgent" with
        | None => ([CreateMessage user_request], KeyError)
        | Some planner =>
            let posted := (posted ++ [user_request])%list in
            let made := [CreateMessage user_request; ProcessMessages planner] in
            match planner_reply posted with
            | None => (made, AttributeError)
            | Some content =>
                match main_iteration json_loads content with
                | Continue =>
                    let (acts, e) := main_loop assistants posted rest in
                    ((made ++ acts)%list, e)
                | Scheduled tasks =>
                    let (acts, e) := main_loop assistants posted rest in
                    ((made ++ ScheduleTask tasks :: WaitForAllTasks :: acts)%list, e)
                | Propagated => (made, OtherException)
                end
            end
        end
  end.

(** [main] (lines 155-186) *)
Definition main (lines : list string) : list action * ending :=
  let assistant_names :=
    ["CodeProgrammerAgent"; "CodeInspectionAgent"; "TaskPlannerAgent";
     "FileCreatorAgent"] in
  let assistants := initialize_assistants assistant_names in
  let (acts, e) := main_loop assistants [] lines in
  (CreateConversationThread :: acts, e).

End Main.
Arguments CreateConversationThread {Json}.
Arguments CreateMessage {Json} user_request.
Arguments ProcessMessages {Json} planner.
Arguments ScheduleTask {Json} tasks.
Arguments WaitForAllTasks {Json}.
Arguments Close {Json}.
Arguments main_loop {Json} json_loads planner_reply assistants posted lines.
Arguments main read_text {Json} json_loads planner_reply lines.

End MainProgram.

(** ** [setup.py]: the version of the package (lines 19-22) *)

Module Setup.
Import Re.

(** The class of the two quote characters, and its complement. *)
Definition is_quote (c : ascii) : bool := Ascii.eqb c SQ || Ascii.eqb c DQ.
Definition not_quote (c : ascii) : bool := negb (is_quote c).

(** One character of a class. *)
Definition one {R : Type} (cls : ascii -> bool) (k : string -> option R)
    (s : string) : option R :=
  match s with
  | String c s' => if cls c then k s' else None
  | EmptyString => None
  end.

(** What follows the [^] of the pattern: [VERSION], white space, [=],
    white space, a quote character, group 1 (any characters but the two
    quotes) and a quote character again. *)
Definition version_pattern (s : string) : option string :=
  lit "VERSION" (star is_space (fun _ r1 =>
    lit "=" (star is_space (fun _ r2 =>
      one is_quote (star not_quote (fun version r3 =>
        one is_quote (fun _ => Some version) r3) "") r2) "") r1) "") s.

(** [re.search] with [re.MULTILINE]: [^] holds at the start of the text
    and after every line feed. *)
Fixpoint search_lines (at_line_start : bool) (s : string) : option string :=
  match (if at_line_start then version_pattern s else None) with
  | Some group1 => Some group1
  | None =>
      match s with
      | String c s' => search_lines (Ascii.eqb c NL) s'
      | EmptyString => None
      end
  end.

Inductive py_exception : Type :=
| AttributeError        (* [.group] of [None] *)
| RuntimeError.         (* "Cannot find version information" *)

(** Lines 19-22, [version_py] being the text of [_version.py]. *)
Definition version (version_py : string) : string + py_exception :=
  match search_lines true version_py with
  | None => inr AttributeError
  | Some group1 =>
      if String.eqb group1 "" then inr RuntimeError else inl group1
  end.

(** Some line of the text begins with [p]. *)
Fixpoint line_starts_with (at_line_start : bool) (p s : string) : bool :=
  (at_line_start && startswith p s)
  || match s with
     | String c s' => line_starts_with (Ascii.eqb c NL) p s'
     | EmptyString => false
     end.

End Setup.


(* ===================================================================== *)
(** * Part II: properties                                                *)
(* ===================================================================== *)

(** ** Strings *)

Lemma str_app_nil_r (s : string) : s ++ "" = s.
Proof. induction s as [|c s IH]; simpl; [reflexivity | now rewrite IH]. Qed.

Lemma str_app_assoc (a b c : string) : (a ++ b) ++ c = a ++ (b ++ c).
Proof. induction a as [|x a IH]; simpl; [reflexivity | now rewrite IH]. Qed.

Lemma str_length_app (a b : string) :
  String.length (a ++ b) = String.length a + String.length b.
Proof. induction a as [|x a IH]; simpl; [reflexivity | now rewrite IH]. Qed.

Lemma str_app_snoc (a : string) (c : ascii) (b : string) :
  (a ++ chr c) ++ b = a ++ String c b.
Proof. now rewrite str_app_assoc. Qed.

Lemma strip_prefix_Some (p s r : string) :
  strip_prefix p s = Some r <-> s = p ++ r.
Proof.
  revert s; induction p as [|a p IH]; intros s; simpl.
  - split; [now intros [= ->] | now intros ->].
  - destruct s as [|b s]; [split; discriminate|].
    destruct (Ascii.eqb_spec a b) as [->|Hne].
    + rewrite IH. split; [now intros -> | now intros [= ->]].
    + split; [discriminate | intros [= -> _]; contradiction].
Qed.

Lemma strip_prefix_app (p r : string) : strip_prefix p (p ++ r) = Some r.
Proof. now apply strip_prefix_Some. Qed.

Lemma startswith_true (p s : string) :
  startswith p s = true <-> exists r, s = p ++ r.
Proof.
  unfold startswith. destruct (strip_prefix p s) as [r|] eqn:E.
  - apply strip_prefix_Some in E. split; eauto.
  - split; [discriminate|]. intros [r Hr].
    apply strip_prefix_Some in Hr. congruence.
Qed.

Lemma contains_true (p s : string) :
  contains p s = true <-> exists a b, s = a ++ p ++ b.
Proof.
  induction s as [|c s IH]; simpl.
  - rewrite orb_false_r, startswith_true. split.
    + intros [r Hr]. now exists "", r.
    + intros (a & b & H). destruct a; simpl in H; [eauto | discriminate].
  - rewrite orb_true_iff, startswith_true, IH. split.
    + intros [[r Hr] | (a & b & ->)].
      * now exists "", r.
      * now exists (String c a), b.
    + intros (a & b & H). destruct a as [|x a]; simpl in H.
      * left; eauto.
      * injection H as -> ->. right; eauto.
Qed.

Lemma contains_false_app_l (p a b : string) :
  contains p (a ++ b) = false -> contains p a = false.
Proof.
  intros H. destruct (contains p a) eqn:E; [|reflexivity].
  apply contains_true in E as (x & y & ->).
  assert (contains p ((x ++ p ++ y) ++ b) = true); [|congruence].
  apply contains_true. exists x, (y ++ b). now rewrite !str_app_assoc.
Qed.

Lemma contains_false_app_r (p a b : string) :
  contains p (a ++ b) = false -> contains p b = false.
Proof.
  intros H. destruct (contains p b) eqn:E; [|reflexivity].
  apply contains_true in E as (x & y & ->).
  assert (contains p (a ++ x ++ p ++ y) = true); [|congruence].
  apply contains_true. exists (a ++ x), y. now rewrite !str_app_assoc.
Qed.

(** ** [str.split] and [str.join] *)

Lemma split_from_skip (sep a s cur : string) :
  split_from sep (String.length a) cur (a ++ s) = split_from sep 0 cur s.
Proof. induction a as [|c a IH]; simpl; [reflexivity | exact IH]. Qed.

Section Split.
Variable sep : string.
Hypothesis sep_nonempty : sep <> "".

Lemma split_from_sep (c : ascii) (s' cur rest : string) :
  String c s' = sep ++ rest ->
  split_from sep 0 cur (String c s') = cur :: split_from sep 0 "" rest.
Proof using sep_nonempty.
  intros H. simpl split_from.
  replace (startswith sep (String c s')) with true
    by (symmetry; apply startswith_true; eauto).
  f_equal. destruct sep as [|x t]; [contradiction|].
  simpl in H. injection H as _ ->.
  replace (String.length (String x t) - 1) with (String.length t)
    by (simpl; lia).
  apply split_from_skip.
Qed.

Lemma split_from_char (c : ascii) (s' cur : string) :
  startswith sep (String c s') = false ->
  split_from sep 0 cur (String c s') = split_from sep 0 (cur ++ chr c) s'.
Proof. intros H. simpl. now rewrite H. Qed.

Lemma split_from_nonempty (n : nat) : forall s cur,
  String.length s <= n -> split_from sep 0 cur s <> [].
Proof using sep_nonempty.
  induction n as [|n IH]; intros s cur Hn.
  - destruct s; [discriminate | simpl in Hn; lia].
  - destruct s as [|c s']; [discriminate|].
    destruct (startswith sep (String c s')) eqn:E.
    + apply startswith_true in E as [rest Hr].
      rewrite (split_from_sep _ _ _ _ Hr). discriminate.
    + rewrite split_from_char by exact E. apply IH. simpl in Hn; lia.
Qed.

Lemma join_cons (p : string) (ps : list string) :
  ps <> [] -> join sep (p :: ps) = p ++ sep ++ join sep ps.
Proof. destruct ps; [contradiction | reflexivity]. Qed.

Lemma split_from_join (n : nat) : forall s cur,
  String.length s <= n -> join sep (split_from sep 0 cur s) = cur ++ s.
Proof using sep_nonempty.
  induction n as [|n IH]; intros s cur Hn.
  - destruct s; [simpl; now rewrite str_app_nil_r | simpl in Hn; lia].
  - destruct s as [|c s']; [simpl; now rewrite str_app_nil_r|].
    destruct (startswith sep (String c s')) eqn:E.
    + apply startswith_true in E as [rest Hr].
      assert (Hlen : String.length rest <= n).
      { apply (f_equal String.length) in Hr. rewrite str_length_app in Hr.
        simpl in Hr, Hn. destruct sep; [contradiction | simpl in Hr; lia]. }
      rewrite (split_from_sep _ _ _ _ Hr).
      rewrite join_cons by (eapply split_from_nonempty; exact Hlen).
      rewrite IH by exact Hlen. now rewrite Hr.
    + rewrite split_from_char by exact E.
      rewrite IH by (simpl in Hn; lia). apply str_app_snoc.
Qed.

Lemma no_sep_inside_nil (s : string) : no_sep_inside sep "" s.
Proof. intros a b H Hb. destruct a, b; simpl in H; congruence. Qed.

Lemma str_app_eq_snoc (a b cur : string) (c : ascii) :
  cur ++ chr c = a ++ b ->
  b = "" \/ exists b', b = b' ++ chr c /\ cur = a ++ b'.
Proof.
  revert a; induction cur as [|x cur IH]; intros a H; simpl in H.
  - destruct a as [|y a]; simpl in H.
    + right. exists "". now subst.
    + injection H as -> H. destruct a, b; simpl in H; try discriminate. now left.
  - destruct a as [|y a]; simpl in H.
    + right. exists (String x cur). now subst.
    + injection H as -> H. destruct (IH _ H) as [->|(b' & -> & ->)]; [now left|].
      right. now exists b'.
Qed.

Lemma no_sep_inside_snoc (cur : string) (c : ascii) (s' : string) :
  no_sep_inside sep cur (String c s') ->
  startswith sep (String c s') = false ->
  no_sep_inside sep (cur ++ chr c) s'.
Proof.
  intros Hcur Hc a b Hab Hb.
  destruct (str_app_eq_snoc _ _ _ _ Hab) as [->|(b' & -> & ->)]; [contradiction|].
  rewrite str_app_snoc. destruct b' as [|y b'].
  - exact Hc.
  - apply (Hcur a (String y b')); [reflexivity | discriminate].
Qed.

Lemma no_sep_inside_contains (cur : string) :
  no_sep_inside sep cur "" -> contains sep cur = false.
Proof using sep_nonempty.
  intros H. destruct (contains sep cur) eqn:E; [|reflexivity].
  apply contains_true in E as (a & b & ->).
  specialize (H a (sep ++ b) eq_refl).
  rewrite str_app_nil_r in H.
  assert (Hs : startswith sep (sep ++ b) = true) by (apply startswith_true; eauto).
  rewrite H in Hs; [discriminate|].
  destruct sep; [contradiction | discriminate].
Qed.

Lemma split_from_no_sep (n : nat) : forall s cur,
  String.length s <= n -> no_sep_inside sep cur s ->
  Forall (fun p => contains sep p = false) (split_from sep 0 cur s).
Proof using sep_nonempty.
  induction n as [|n IH]; intros s cur Hn Hcur.
  - destruct s; [|simpl in Hn; lia].
    constructor; [now apply no_sep_inside_contains | constructor].
  - destruct s as [|c s'].
    { constructor; [now apply no_sep_inside_contains | constructor]. }
    destruct (startswith sep (String c s')) eqn:E.
    + apply startswith_true in E as [rest Hr].
      assert (Hlen : String.length rest <= n).
      { apply (f_equal String.length) in Hr. rewrite str_length_app in Hr.
        simpl in Hr, Hn. destruct sep; [contradiction | simpl in Hr; lia]. }
      rewrite (split_from_sep _ _ _ _ Hr). constructor.
      * destruct (contains sep cur) eqn:Ec; [|reflexivity].
        apply contains_true in Ec as (a & b & ->).
        specialize (Hcur a (sep ++ b) eq_refl).
        assert (Hs : startswith sep ((sep ++ b) ++ String c s') = true).
        { apply startswith_true. exists (b ++ String c s'). apply str_app_assoc. }
        rewrite Hcur in Hs; [discriminate|].
        destruct sep; [contradiction | discriminate].
      * apply IH; [exact Hlen | apply no_sep_inside_nil].
    + rewrite split_from_char by exact E.
      apply IH; [simpl in Hn; lia | now apply no_sep_inside_snoc].
Qed.

Lemma split_join (s : string) : join sep (split sep s) = s.
Proof using sep_nonempty. unfold split. now rewrite (split_from_join (String.length s)). Qed.

Lemma split_no_sep (s : string) :
  Forall (fun p => contains sep p = false) (split sep s).
Proof using sep_nonempty.
  apply (split_from_no_sep (String.length s)); [lia | apply no_sep_inside_nil].
Qed.

End Split.

(** ** [parse_message] *)

Lemma is_code_odd (i : nat) : negb (i mod 2 =? 0)%nat = Nat.odd i.
Proof.
  pose proof (Nat.mod_upper_bound i 2 ltac:(lia)) as Hlt.
  pose proof (Nat.div_mod_eq i 2) as Hi.
  destruct (Nat.odd i) eqn:E.
  - apply Nat.odd_spec in E as [k Hk].
    destruct (i mod 2) as [|[|r]]; [lia | reflexivity | lia].
  - destruct (i mod 2) as [|[|r]]; [reflexivity | | lia].
    assert (Nat.odd i = true); [|congruence].
    apply Nat.odd_spec. exists (i / 2). lia.
Qed.

Lemma parse_parts_imap (parts : list string) : forall i segments,
  parse_parts i parts segments
  = (segments ++ imap (fun j => parse_part (i + j)) parts)%list.
Proof.
  induction parts as [|part rest IH]; intros i segments; simpl.
  - now rewrite app_nil_r.
  - rewrite IH, <- app_assoc. simpl. rewrite Nat.add_0_r.
    do 2 f_equal. apply imap_ext. intros j x _. simpl.
    now rewrite Nat.add_succ_r.
Qed.

Lemma split_once_no_char (c : ascii) (s : string) :
  contains (chr c) s = false -> split_once c s = [s].
Proof.
  induction s as [|a s IH]; intros H; [reflexivity|].
  simpl in H. apply orb_false_iff in H as [Ha Hs].
  unfold startswith in Ha. simpl in Ha. simpl.
  rewrite Ascii.eqb_sym.
  destruct (Ascii.eqb c a); [discriminate|].
  now rewrite (IH Hs).
Qed.

Lemma split_once_first (c : ascii) (a b : string) :
  contains (chr c) a = false -> split_once c (a ++ String c b) = [a; b].
Proof.
  induction a as [|x a IH]; intros H; simpl.
  - now rewrite Ascii.eqb_refl.
  - simpl in H. apply orb_false_iff in H as [Hx Ha].
    unfold startswith in Hx. simpl in Hx. rewrite Ascii.eqb_sym.
    destruct (Ascii.eqb c x); [discriminate|].
    now rewrite (IH Ha).
Qed.

Lemma parse_part_even (i : nat) (part : string) :
  Nat.odd i = false -> parse_part i part = (false, part).
Proof. intros H. unfold parse_part. now rewrite is_code_odd, H. Qed.

Lemma parse_part_language (i : nat) (language code : string) :
  Nat.odd i = true -> contains (chr NL) language = false ->
  parse_part i (language ++ chr NL ++ code) = (true, strip NL code).
Proof.
  intros H Hl. unfold parse_part. rewrite is_code_odd, H.
  change (chr NL ++ code) with (String NL code).
  now rewrite split_once_first.
Qed.

Lemma parse_part_one_line (i : nat) (part : string) :
  Nat.odd i = true -> contains (chr NL) part = false ->
  parse_part i part = (true, strip NL part).
Proof.
  intros H Hp. unfold parse_part. rewrite is_code_odd, H.
  now rewrite split_once_no_char.
Qed.

(** C4.  [parse_message] maps the message [a ```print(1)``` b] to the three
    segments (False, "a "), (True, "print(1)"), (False, " b").  In general
    the parts of a message are what stands between its triple-backtick
    fences (joining them with the fence gives the message back, and no part
    holds a fence); the segment at position [i] is built from the part at
    position [i]; it is code exactly when [i] is odd; a part at an even
    position is kept as it is; a code part loses its first line, the
    language tag, and the line feeds around what remains. *)
Theorem parse_message_segments :
  parse_message "a ```print(1)``` b"
    = [(false, "a "); (true, "print(1)"); (false, " b")]
  /\ forall message : string,
       join "```" (split "```" message) = message
       /\ Forall (fun part => contains "```" part = false) (split "```" message)
       /\ parse_message message = imap parse_part (split "```" message)
       /\ forall (i : nat) (part : string),
            fst (parse_part i part) = Nat.odd i
            /\ (Nat.odd i = false -> parse_part i part = (false, part))
            /\ (Nat.odd i = true ->
                forall language code : string,
                  part = language ++ chr NL ++ code ->
                  contains (chr NL) language = false ->
                  parse_part i part = (true, strip NL code))
            /\ (Nat.odd i = true -> contains (chr NL) part = false ->
                parse_part i part = (true, strip NL part)).
Proof.
  split; [reflexivity|]. intros message.
  assert (Hsep : "```" <> "") by discriminate.
  split; [now apply split_join|].
  split; [now apply split_no_sep|].
  split; [unfold parse_message; now rewrite parse_parts_imap|].
  intros i part. split; [|split; [|split]].
  - destruct (Nat.odd i) eqn:E.
    + destruct (contains (chr NL) part) eqn:Ec.
      * apply contains_true in Ec as (a & b & ->).
        unfold parse_part. rewrite is_code_odd, E.
        destruct (split_once NL (a ++ chr NL ++ b)) as [|? [|? [|? ?]]]; reflexivity.
      * now rewrite parse_part_one_line.
    + now rewrite parse_part_even.
  - apply parse_part_even.
  - intros H language code -> Hl. now apply parse_part_language.
  - apply parse_part_one_line.
Qed.

(** ** [append_message_chunk] *)

Lemma html_escape_app (a b : string) :
  html_escape (a ++ b) = html_escape a ++ html_escape b.
Proof.
  induction a as [|c a IH]; simpl; [reflexivity|].
  now rewrite IH, str_app_assoc.
Qed.

(** C9.  Three calls of [append_message_chunk] with [is_start_of_message]
    true, false, false add to the document, in this order, one sender label
    and the three chunks, each escaped and in its own text block; nothing
    is inserted as text, so no line feed comes between the chunks, and the
    escaped chunks put end to end are the escaped whole message. *)
Theorem append_message_chunk_stream :
  forall (doc : document) (sender c1 c2 c3 : string),
    let doc1 := append_message_chunk doc sender c1 true in
    let doc2 := append_message_chunk doc1 sender c2 false in
    let doc3 := append_message_chunk doc2 sender c3 false in
    doc3 = (doc ++ InsertHtml (sender_label sender)
                :: map (fun chunk => InsertHtml (text_block (html_escape chunk)))
                       [c1; c2; c3])%list
    /\ (forall text : string, ~ In (InsertText text) (skipn (length doc) doc3))
    /\ html_escape c1 ++ html_escape c2 ++ html_escape c3
       = html_escape (c1 ++ c2 ++ c3).
Proof.
  intros doc sender c1 c2 c3. cbv zeta.
  assert (E : append_message_chunk
                (append_message_chunk
                   (append_message_chunk doc sender c1 true) sender c2 false)
                sender c3 false
              = (doc ++ [InsertHtml (sender_label sender);
                         InsertHtml (text_block (html_escape c1));
                         InsertHtml (text_block (html_escape c2));
                         InsertHtml (text_block (html_escape c3))])%list).
  { unfold append_message_chunk. now rewrite <- !app_assoc. }
  split; [exact E|]. split.
  - intros text. rewrite E, skipn_app, skipn_all, Nat.sub_diag. simpl.
    intros [H|[H|[H|[H|[]]]]]; discriminate.
  - now rewrite !html_escape_app.
Qed.

(** ** The terminal callbacks *)

(** C10.  When no completion event is registered for a schedule id,
    [on_task_completed] and [on_task_failed] do not raise: the [get] gives
    [None], the [set] is skipped, nothing changes but [task_started], which
    is cleared. *)
Theorem terminal_callback_without_event :
  forall (s : state) (sid : schedule_id),
    dict_get sid (task_completion_events s) = None ->
    on_task_completed sid s = Ok (clear_task_started s)
    /\ on_task_failed sid s = Ok (clear_task_started s)
    /\ task_started (clear_task_started s) = false
    /\ events (clear_task_started s) = events s
    /\ task_completion_events (clear_task_started s) = task_completion_events s.
Proof.
  intros s sid H. unfold on_task_completed, on_task_failed. rewrite H. simpl.
  repeat split.
Qed.

(** The callback arrives on a new orchestrator, before any
    [on_task_started]. *)
Lemma terminal_callback_without_event_witness :
  on_task_completed 7 init = Ok (clear_task_started init)
  /\ on_task_failed 7 init = Ok (clear_task_started init)
  /\ task_started (clear_task_started init) = false
  /\ events (clear_task_started init) = events init
  /\ task_completion_events (clear_task_started init) = task_completion_events init.
Proof. apply (terminal_callback_without_event init 7). reflexivity. Defined.

(** With an event registered the same callbacks set it: the guard is what
    keeps the unregistered case from raising. *)
Lemma terminal_callback_with_event (s : state) (sid : schedule_id) (e : event_ref) :
  dict_get sid (task_completion_events s) = Some e ->
  exists s', on_task_completed sid s = Ok s'
             /\ events s' = <[e := true]> (events s)
             /\ task_started s' = false.
Proof.
  intros H. unfold on_task_completed. rewrite H. simpl.
  eexists; repeat split.
Qed.

Lemma event_set_None (s : state) : event_set None s = Raise AttributeError.
Proof. reflexivity. Qed.

(** ** The scan of [re] *)

Section ScanFacts.
Context {M : Type}.
Variable matcher : string -> option (M * string).

Lemma scan_from_skip (a s : string) :
  Re.scan_from matcher (String.length a) (a ++ s) = Re.scan_from matcher 0 s.
Proof. induction a as [|c a IH]; simpl; [reflexivity | exact IH]. Qed.

Lemma scan_nil : Re.scan matcher "" = [].
Proof. reflexivity. Qed.

Lemma scan_lit (c : ascii) (s' : string) :
  matcher (String c s') = None ->
  Re.scan matcher (String c s') = Re.Lit c :: Re.scan matcher s'.
Proof. intros H. unfold Re.scan. simpl. now rewrite H. Qed.

Lemma scan_hit (s u rest : string) (m : M) :
  matcher s = Some (m, rest) -> s = u ++ rest -> u <> "" ->
  Re.scan matcher s = Re.Hit m :: Re.scan matcher rest.
Proof.
  intros H -> Hu. destruct u as [|c u]; [contradiction|].
  unfold Re.scan. simpl. simpl in H. rewrite H. f_equal.
  replace (S (String.length (u ++ rest)) - String.length rest - 1)
    with (String.length u) by (rewrite str_length_app; lia).
  apply scan_from_skip.
Qed.

Variable repl : M -> string.

Lemma sub_nil : Re.sub matcher repl "" = "".
Proof. reflexivity. Qed.

Lemma sub_lit (c : ascii) (s' : string) :
  matcher (String c s') = None ->
  Re.sub matcher repl (String c s') = String c (Re.sub matcher repl s').
Proof.
  intros H. unfold Re.sub, Re.sub_with. rewrite (scan_lit _ _ H). simpl.
  now destruct (Re.sub_tokens _ _ _).
Qed.

Lemma sub_hit (s u rest : string) (m : M) :
  matcher s = Some (m, rest) -> s = u ++ rest -> u <> "" ->
  Re.sub matcher repl s = repl m ++ Re.sub matcher repl rest.
Proof.
  intros H Hs Hu. unfold Re.sub, Re.sub_with.
  rewrite (scan_hit _ _ _ _ H Hs Hu). simpl.
  now destruct (Re.sub_tokens _ _ _).
Qed.

End ScanFacts.

(** ** The combinators *)

Section CombinatorFacts.
Context {R : Type}.

Lemma lit_Some (p : string) (k : string -> option R) (s : string) (r : R) :
  Re.lit p k s = Some r <-> exists rest, s = p ++ rest /\ k rest = Some r.
Proof.
  unfold Re.lit. destruct (strip_prefix p s) as [rest|] eqn:E.
  - apply strip_prefix_Some in E. subst s. split.
    + intros H. now exists rest.
    + intros (rest' & Heq & H). apply String.app_inj in Heq. now subst.
  - split; [discriminate|]. intros (rest & Heq & _).
    apply strip_prefix_Some in Heq. congruence.
Qed.

Lemma lit_None_k (p : string) (k : string -> option R) (rest : string) :
  k rest = None -> Re.lit p k (p ++ rest) = None.
Proof. intros H. unfold Re.lit. now rewrite strip_prefix_app. Qed.

(** A greedy star hands to its continuation a split of the text. *)
Lemma star_Some (cls : ascii -> bool) (k : string -> string -> option R) :
  forall (s cap : string) (r : R),
    Re.star cls k cap s = Some r ->
    exists a b, s = a ++ b /\ k (cap ++ a) b = Some r.
Proof.
  induction s as [|c s IH]; intros cap r H; simpl in H.
  - exists "", "". split; [reflexivity | now rewrite (str_app_nil_r cap)].
  - destruct (cls c).
    + destruct (Re.star cls k (cap ++ chr c) s) as [r'|] eqn:E.
      * injection H as ->. destruct (IH _ _ E) as (a & b & -> & Hk).
        exists (String c a), b. split; [reflexivity|].
        now rewrite <- str_app_snoc.
      * exists "", (String c s). split; [reflexivity | now rewrite (str_app_nil_r cap)].
    + exists "", (String c s). split; [reflexivity | now rewrite (str_app_nil_r cap)].
Qed.

Lemma plus_Some (cls : ascii -> bool) (k : string -> string -> option R)
    (s : string) (r : R) :
  Re.plus cls k s = Some r ->
  exists c a b, cls c = true /\ s = String c (a ++ b) /\ k (String c a) b = Some r.
Proof.
  unfold Re.plus. destruct s as [|c s]; [discriminate|].
  destruct (cls c) eqn:Ec; [|discriminate]. intros H.
  destruct (star_Some _ _ _ _ _ H) as (a & b & -> & Hk).
  now exists c, a, b.
Qed.

(** A lazy star stops at the first place where its continuation succeeds. *)
Lemma lazy_star_any_Some (k : string -> string -> option R) :
  forall (s cap : string) (r : R),
    Re.lazy_star any_char k cap s = Some r ->
    exists a b, s = a ++ b /\ k (cap ++ a) b = Some r
      /\ forall a1 a2, a = a1 ++ a2 -> a2 <> "" -> k (cap ++ a1) (a2 ++ b) = None.
Proof.
  induction s as [|c s IH]; intros cap r H; simpl in H.
  - destruct (k cap "") eqn:E; [|discriminate]. injection H as ->.
    exists "", "". rewrite (str_app_nil_r cap). split; [reflexivity|]. split; [exact E|].
    intros a1 a2 Ha Hne. destruct a1, a2; simpl in Ha; congruence.
  - destruct (k cap (String c s)) eqn:E.
    + injection H as ->. exists "", (String c s). rewrite (str_app_nil_r cap).
      split; [reflexivity|]. split; [exact E|].
      intros a1 a2 Ha Hne. destruct a1, a2; simpl in Ha; congruence.
    + destruct (IH _ _ H) as (a & b & -> & Hk & Hmin).
      exists (String c a), b. split; [reflexivity|].
      split; [now rewrite <- str_app_snoc|].
      intros a1 a2 Ha Hne. destruct a1 as [|x a1]; simpl in Ha.
      * subst a2. now rewrite (str_app_nil_r cap).
      * injection Ha as -> ->. rewrite <- str_app_snoc.
        now apply Hmin.
Qed.

Lemma lazy_star_any_None (k : string -> string -> option R) :
  forall (s cap : string),
    Re.lazy_star any_char k cap s = None ->
    forall a b, s = a ++ b -> k (cap ++ a) b = None.
Proof.
  induction s as [|c s IH]; intros cap H a b Hs; simpl in H.
  - destruct a, b; try discriminate. rewrite (str_app_nil_r cap).
    now destruct (k cap "").
  - destruct (k cap (String c s)) eqn:E; [discriminate|].
    destruct a as [|x a]; simpl in Hs.
    + subst b. now rewrite (str_app_nil_r cap).
    + injection Hs as -> ->. rewrite <- str_app_snoc. now apply IH.
Qed.

End CombinatorFacts.

(** ** The json block of the planner's reply *)

Lemma str_app_eq_app (a b c d : string) :
  a ++ b = c ++ d ->
  (exists w, a = c ++ w /\ d = w ++ b) \/ (exists w, c = a ++ w /\ b = w ++ d).
Proof.
  revert c; induction a as [|x a IH]; intros c H; simpl in H.
  - right. now exists c.
  - destruct c as [|y c]; simpl in H.
    + left. now exists (String x a).
    + injection H as -> H. destruct (IH _ H) as [(w & -> & ->)|(w & -> & ->)].
      * left. now exists w.
      * right. now exists w.
Qed.

(** Where a text without question mark is cut by one. *)
Lemma question_not_in (p a b : string) :
  contains "?" p = false -> p <> a ++ "?" ++ b.
Proof.
  intros H ->. assert (contains "?" (a ++ "?" ++ b) = true); [|congruence].
  apply contains_true. now exists a, b.
Qed.

Lemma cut_before_question (p a b d : string) :
  contains "?" p = false ->
  a ++ "?" ++ b = p ++ d ->
  exists w, a = p ++ w /\ d = w ++ "?" ++ b.
Proof.
  intros Hp H. destruct (str_app_eq_app _ _ _ _ H) as [(w & -> & Hw)|(w & -> & Hw)].
  - now exists w.
  - destruct w as [|x w]; simpl in Hw.
    + exists "". split; [now rewrite !str_app_nil_r | now symmetry].
    + injection Hw as <- ->. exfalso. now apply (question_not_in _ a w Hp).
Qed.

Lemma json_block_pattern_Some (s body rest : string) :
  json_block_pattern s = Some (body, rest) ->
  s = fence_open ++ body ++ fence_close ++ rest
  /\ forall b1 b2, body = b1 ++ b2 -> b2 <> "" ->
       startswith fence_close (b2 ++ fence_close ++ rest) = false.
Proof.
  unfold json_block_pattern. intros H.
  apply lit_Some in H as (r0 & -> & H).
  apply lazy_star_any_Some in H as (a & b & -> & Hk & Hmin).
  cbv beta in Hk. apply lit_Some in Hk as (r2 & -> & [= <- <-]).
  split; [reflexivity|]. intros b1 b2 Hb Hne. change ("" ++ a) with a in Hb.
  specialize (Hmin b1 b2 Hb Hne). cbv beta in Hmin.
  unfold startswith. unfold Re.lit in Hmin.
  now destruct (strip_prefix fence_close (b2 ++ fence_close ++ r2)).
Qed.

Lemma json_block_pattern_None (s r : string) :
  json_block_pattern s = None ->
  strip_prefix fence_open s = Some r -> contains fence_close r = false.
Proof.
  unfold json_block_pattern, Re.lit at 1. intros H Hr. rewrite Hr in H.
  destruct (contains fence_close r) eqn:E; [|reflexivity].
  apply contains_true in E as (a & b & ->).
  pose proof (lazy_star_any_None _ _ _ H a (fence_close ++ b) eq_refl) as Hk.
  cbv beta in Hk. unfold Re.lit in Hk.
  now rewrite strip_prefix_app in Hk.
Qed.

Lemma json_block_pattern_found (r : string) :
  contains fence_close r = true ->
  exists body rest, json_block_pattern (fence_open ++ r) = Some (body, rest).
Proof.
  intros H. destruct (json_block_pattern (fence_open ++ r)) as [[body rest]|] eqn:E.
  - eauto.
  - rewrite (json_block_pattern_None _ r E) in H; [discriminate|].
    apply strip_prefix_app.
Qed.

Lemma has_json_block_cons (c : ascii) (text : string) :
  has_json_block (String c text)
  = match strip_prefix fence_open (String c text) with
    | Some r => contains fence_close r
    | None => false
    end || has_json_block text.
Proof. reflexivity. Qed.

Lemma search_json_None (text : string) :
  has_json_block text = false -> Re.search json_block_pattern text = None.
Proof.
  induction text as [|c text IH]; intros H.
  - reflexivity.
  - rewrite has_json_block_cons in H. apply orb_false_iff in H as [Hhead Htail].
    assert (Hm : json_block_pattern (String c text) = None).
    { destruct (json_block_pattern (String c text)) as [[body rest]|] eqn:E;
        [|reflexivity].
      apply json_block_pattern_Some in E as [E _].
      destruct (strip_prefix fence_open (String c text)) as [r|] eqn:Er.
      - pose proof Er as Er'. apply strip_prefix_Some in Er'. rewrite Er' in E.
        apply String.app_inj in E. subst r.
        assert (contains fence_close (body ++ fence_close ++ rest) = true)
          by (apply contains_true; eauto).
        congruence.
      - assert (strip_prefix fence_open (String c text) = Some (body ++ fence_close ++ rest))
          by now apply strip_prefix_Some.
        congruence. }
    unfold Re.search. rewrite Hm. now apply IH.
Qed.

Lemma has_json_block_spec (text : string) :
  has_json_block text = true
  <-> exists a body c, text = a ++ fence_open ++ body ++ fence_close ++ c.
Proof.
  induction text as [|x text IH].
  - simpl. split; [discriminate|]. intros (a & body & c & H).
    destruct a; discriminate.
  - rewrite has_json_block_cons, orb_true_iff, IH. split.
    + intros [H|(a & body & c & ->)].
      * destruct (strip_prefix fence_open (String x text)) as [r|] eqn:E;
          [|discriminate].
        apply strip_prefix_Some in E. apply contains_true in H as (body & c & ->).
        now exists "", body, c.
      * now exists (String x a), body, c.
    + intros (a & body & c & H). destruct a as [|y a]; simpl in H.
      * left. change (String x text = fence_open ++ body ++ fence_close ++ c) in H.
        rewrite H, strip_prefix_app. apply contains_true. eauto.
      * injection H as -> ->. right. eauto.
Qed.

Lemma sub_json_no_block (text : string) :
  has_json_block text = false ->
  Re.sub json_block_pattern (fun _ => "") text = text.
Proof.
  induction text as [|c text IH]; intros H; [reflexivity|].
  pose proof (search_json_None _ H) as Hs.
  rewrite has_json_block_cons in H. apply orb_false_iff in H as [_ Htail].
  unfold Re.search in Hs.
  destruct (json_block_pattern (String c text)) as [[body rest]|] eqn:E;
    [discriminate|].
  rewrite sub_lit by exact E. now rewrite IH.
Qed.

(** C8.  When the reply holds no json block, [extract_json_code_block]
    gives the reply itself, which is then what the loop hands to
    [json.loads]; and whenever [json.loads] of the extracted task list
    raises [JSONDecodeError], the pass ends by [continue]: nothing is
    scheduled and no exception leaves the loop. *)
Theorem raw_reply_and_silent_abort :
  forall (Json : Type) (json_loads : string -> loads_result Json) (content : string),
    (has_json_block content = false ->
       extract_json_code_block content = content
       /\ main_iteration json_loads content
          = if contains "?" content then Continue
            else match json_loads content with
                 | Loaded tasks => Scheduled tasks
                 | JSONDecodeError => Continue
                 | OtherError => Propagated
                 end)
    /\ (json_loads (extract_json_code_block content) = JSONDecodeError ->
          main_iteration json_loads content = Continue).
Proof.
  intros Json json_loads content. split.
  - intros H.
    assert (E : extract_json_code_block content = content).
    { unfold extract_json_code_block. now rewrite search_json_None. }
    split; [exact E|].
    unfold main_iteration, requires_user_confirmation.
    now rewrite sub_json_no_block, E.
  - intros H. unfold main_iteration. rewrite H.
    now destruct (requires_user_confirmation content).
Qed.

(** A reply in prose, and a decoder that rejects it. *)
Lemma raw_reply_and_silent_abort_witness :
  extract_json_code_block "create the files" = "create the files"
  /\ main_iteration (fun _ : string => @JSONDecodeError unit) "create the files"
     = Continue.
Proof.
  pose proof (raw_reply_and_silent_abort unit (fun _ => JSONDecodeError)
                "create the files") as [H1 H2].
  split; [apply H1 | apply H2]; reflexivity.
Defined.

(** ** A question mark outside the json blocks *)

Lemma open_fence_cons (c : ascii) (pre : string) :
  open_fence (String c pre)
  = match strip_prefix fence_open (String c pre) with
    | Some body => negb (contains fence_close body)
    | None => false
    end || open_fence pre.
Proof. reflexivity. Qed.

Lemma open_fence_head (body : string) :
  contains fence_close body = false -> open_fence (fence_open ++ body) = true.
Proof.
  intros H. change (fence_open ++ body) with (String "`" ("``json" ++ chr NL ++ body)).
  rewrite open_fence_cons.
  change (String "`" ("``json" ++ chr NL ++ body)) with (fence_open ++ body).
  now rewrite strip_prefix_app, H.
Qed.

Lemma open_fence_app (a pre : string) :
  open_fence pre = true -> open_fence (a ++ pre) = true.
Proof.
  intros H. induction a as [|c a IH]; [exact H|].
  simpl String.append. rewrite open_fence_cons, IH. apply orb_true_r.
Qed.

Lemma inside_json_block_app (a pre post : string) :
  inside_json_block (a ++ pre) post = false -> inside_json_block pre post = false.
Proof.
  unfold inside_json_block. intros H.
  destruct (open_fence pre) eqn:E; [|reflexivity].
  now rewrite (open_fence_app a pre E) in H.
Qed.

(** The meaning of [inside_json_block]. *)
Lemma inside_json_block_spec (pre post : string) :
  inside_json_block pre post = true
  <-> (exists a body, pre = a ++ fence_open ++ body
                      /\ contains fence_close body = false)
      /\ exists body' c, post = body' ++ fence_close ++ c.
Proof.
  unfold inside_json_block. rewrite andb_true_iff, contains_true.
  enough (open_fence pre = true
          <-> exists a body, pre = a ++ fence_open ++ body
                             /\ contains fence_close body = false) as -> by reflexivity.
  induction pre as [|x pre IH].
  - split; [discriminate|]. intros (a & body & H & _). destruct a; discriminate.
  - rewrite open_fence_cons, orb_true_iff, IH. split.
    + intros [H|(a & body & -> & Hb)].
      * destruct (strip_prefix fence_open (String x pre)) as [body|] eqn:E;
          [|discriminate].
        apply strip_prefix_Some in E. exists "", body. split; [exact E|].
        now destruct (contains fence_close body).
      * now exists (String x a), body.
    + intros (a & body & H & Hb). destruct a as [|y a]; simpl in H.
      * left. change (String x pre = fence_open ++ body) in H.
        now rewrite H, strip_prefix_app, Hb.
      * injection H as -> ->. right. eauto.
Qed.

Lemma contains_question_cons (c : ascii) (s : string) :
  contains "?" s = true -> contains "?" (String c s) = true.
Proof. intros H. simpl. rewrite H. apply orb_true_r. Qed.

(** A match that starts before the question mark ends before it, unless
    the mark stands inside a block. *)
Lemma json_match_before_question (pre post body rest : string) :
  inside_json_block pre post = false ->
  json_block_pattern (pre ++ "?" ++ post) = Some (body, rest) ->
  exists w, pre = fence_open ++ body ++ fence_close ++ w
            /\ rest = w ++ "?" ++ post.
Proof.
  intros Hout Hm. apply json_block_pattern_Some in Hm as [Hs Hmin].
  destruct (cut_before_question fence_open pre post _ eq_refl Hs)
    as (w1 & -> & H1).
  symmetry in H1.
  destruct (str_app_eq_app _ _ _ _ H1) as [(w2 & -> & H2)|(w & -> & H2)].
  - (* the body ends before the mark *)
    symmetry in H2.
    destruct (cut_before_question fence_close w2 post rest eq_refl H2)
      as (w3 & -> & ->).
    exists w3. split; reflexivity.
  - destruct w as [|x w]; simpl in H2.
    + (* the body ends at the mark: the closing fence would start with it *)
      discriminate.
    + (* the mark is in the body *)
      injection H2 as <- ->. exfalso.
      assert (Hw1 : contains fence_close w1 = false).
      { destruct (contains fence_close w1) eqn:E; [|reflexivity].
        apply contains_true in E as (u & v & ->).
        specialize (Hmin u (fence_close ++ v ++ String "?" w)).
        rewrite !str_app_assoc in Hmin.
        specialize (Hmin eq_refl ltac:(discriminate)).
        assert (startswith fence_close
                  (fence_close ++ v ++ String "?" w ++ fence_close ++ rest) = true)
          by (apply startswith_true; eauto).
        congruence. }
      unfold inside_json_block in Hout.
      rewrite (open_fence_head _ Hw1) in Hout.
      assert (contains fence_close (w ++ fence_close ++ rest) = true)
        by (apply contains_true; eauto).
      change (true && contains fence_close (w ++ fence_close ++ rest) = false) in Hout.
      rewrite H in Hout. discriminate.
Qed.

Lemma sub_json_keeps_question (post : string) (n : nat) : forall pre : string,
  String.length pre <= n ->
  inside_json_block pre post = false ->
  contains "?" (Re.sub json_block_pattern (fun _ => "") (pre ++ "?" ++ post)) = true.
Proof.
  induction n as [|n IH]; intros pre Hn Hout.
  - destruct pre; [|simpl in Hn; lia].
    change ("" ++ "?" ++ post) with (String "?" post).
    rewrite sub_lit by reflexivity. reflexivity.
  - destruct pre as [|x pre].
    { change ("" ++ "?" ++ post) with (String "?" post).
      rewrite sub_lit by reflexivity. reflexivity. }
    destruct (json_block_pattern (String x pre ++ "?" ++ post))
      as [[body rest]|] eqn:E.
    + destruct (json_match_before_question _ _ _ _ Hout E) as (w & Hpre & ->).
      rewrite (sub_hit _ _ _ (fence_open ++ body ++ fence_close) _ _ E).
      * simpl String.append at 1. apply IH.
        -- apply (f_equal String.length) in Hpre. simpl in Hpre, Hn.
           rewrite !str_length_app in Hpre. simpl in Hpre. lia.
        -- rewrite Hpre in Hout.
           replace (fence_open ++ body ++ fence_close ++ w)
             with ((fence_open ++ body ++ fence_close) ++ w) in Hout
             by now rewrite !str_app_assoc.
           now apply inside_json_block_app in Hout.
      * rewrite Hpre. now rewrite !str_app_assoc.
      * discriminate.
    + simpl String.append. simpl String.append in E.
      rewrite sub_lit by exact E. apply contains_question_cons.
      apply IH; [simpl in Hn; lia|].
      now apply (inside_json_block_app (chr x)).
Qed.

(** C7.  A reply with a question mark that no json block holds requires
    the user's confirmation, and the pass of the loop ends by [continue]:
    no task batch is scheduled. *)
Theorem question_outside_json_requires_confirmation :
  forall (Json : Type) (json_loads : string -> loads_result Json)
         (pre post : string),
    inside_json_block pre post = false ->
    requires_user_confirmation (pre ++ "?" ++ post) = true
    /\ main_iteration json_loads (pre ++ "?" ++ post) = Continue.
Proof.
  intros Json json_loads pre post Hout.
  assert (H : requires_user_confirmation (pre ++ "?" ++ post) = true).
  { unfold requires_user_confirmation.
    now apply (sub_json_keeps_question post (String.length pre)). }
  split; [exact H|]. unfold main_iteration. now rewrite H.
Qed.

(** A question between two task lists; the decoder would accept anything. *)
Lemma question_outside_json_witness :
  let pre := fence_open ++ "[1]" ++ fence_close ++ " Shall I go on" in
  let post := " or " ++ fence_open ++ "[2]" ++ fence_close in
  requires_user_confirmation (pre ++ "?" ++ post) = true
  /\ main_iteration (fun _ : string => Loaded tt) (pre ++ "?" ++ post) = Continue.
Proof.
  apply (question_outside_json_requires_confirmation unit (fun _ => Loaded tt)).
  vm_compute. reflexivity.
Defined.

(** ** [format_urls] *)

Lemma substring_prefix (u rest : string) :
  substring 0 (String.length u) (u ++ rest) = u.
Proof.
  induction u as [|c u IH]; simpl.
  - now destruct rest.
  - now rewrite IH.
Qed.

Lemma matched_app (u rest : string) : matched (u ++ rest) rest = u.
Proof.
  unfold matched. rewrite str_length_app.
  replace (String.length u + String.length rest - String.length rest)
    with (String.length u) by lia.
  apply substring_prefix.
Qed.

(** A greedy star whose continuation always succeeds succeeds. *)
Lemma star_total {R : Type} (cls : ascii -> bool) (k : string -> string -> option R) :
  (forall cap rest, k cap rest <> None) ->
  forall s cap, Re.star cls k cap s <> None.
Proof.
  intros Hk. induction s as [|c s IH]; intros cap; simpl; [apply Hk|].
  destruct (cls c); [|apply Hk].
  destruct (Re.star cls k (cap ++ chr c) s) eqn:E; [discriminate|].
  now apply IH in E.
Qed.

(** What a match of the URL pattern is. *)
Lemma url_pattern_Some (s u rest : string) :
  url_pattern s = Some (u, rest) ->
  s = u ++ rest
  /\ exists scheme c a,
       (scheme = "http://" \/ scheme = "https://")
       /\ u = scheme ++ String c a /\ non_space c = true.
Proof.
  unfold url_pattern. intros H.
  apply lit_Some in H as (r1 & Hs & H). unfold Re.opt_lit in H.
  destruct (Re.lit "s" _ r1) as [res|] eqn:E.
  - injection H as ->.
    apply lit_Some in E as (r2 & -> & E).
    apply lit_Some in E as (r3 & -> & E).
    apply plus_Some in E as (c & a & b & Hc & -> & E).
    change (s = ("https://" ++ String c a) ++ b) in Hs.
    rewrite Hs, matched_app in E. injection E as <- <-.
    split; [exact Hs|]. exists "https://", c, a. auto.
  - apply lit_Some in H as (r3 & -> & H).
    apply plus_Some in H as (c & a & b & Hc & -> & H).
    change (s = ("http://" ++ String c a) ++ b) in Hs.
    rewrite Hs, matched_app in H. injection H as <- <-.
    split; [exact Hs|]. exists "http://", c, a. auto.
Qed.

Lemma url_token_at_scheme (scheme : string) (c : ascii) (r : string) :
  scheme = "http://" \/ scheme = "https://" -> non_space c = true ->
  url_token_at (scheme ++ String c r) = true.
Proof.
  intros [-> | ->] Hc; unfold url_token_at; simpl; rewrite Hc; reflexivity.
Qed.

Lemma lit_app {R : Type} (p : string) (k : string -> option R) (r : string) :
  Re.lit p k (p ++ r) = k r.
Proof. unfold Re.lit. now rewrite strip_prefix_app. Qed.

Lemma lit_mismatch {R : Type} (a b : ascii) (p s : string) (k : string -> option R) :
  a <> b -> Re.lit (String a p) k (String b s) = None.
Proof.
  intros H. unfold Re.lit. simpl. apply Ascii.eqb_neq in H. now rewrite H.
Qed.

Lemma url_tail_total (s0 : string) (c : ascii) (r : string) :
  non_space c = true ->
  Re.plus non_space (fun _ rest => Some (matched s0 rest, rest)) (String c r) <> None.
Proof.
  intros Hc. unfold Re.plus. rewrite Hc. apply star_total. discriminate.
Qed.

Lemma url_pattern_http (c : ascii) (r : string) :
  non_space c = true -> url_pattern ("http://" ++ String c r) <> None.
Proof.
  intros Hc. unfold url_pattern.
  change ("http://" ++ String c r) with ("http" ++ "://" ++ String c r) at 2.
  rewrite lit_app. unfold Re.opt_lit.
  assert (E : forall k : string -> option (string * string),
             Re.lit "s" k ("://" ++ String c r) = None)
    by (intros k; apply lit_mismatch; discriminate).
  rewrite E, lit_app. now apply url_tail_total.
Qed.

Lemma url_pattern_https (c : ascii) (r : string) :
  non_space c = true -> url_pattern ("https://" ++ String c r) <> None.
Proof.
  intros Hc. unfold url_pattern.
  change ("https://" ++ String c r) with ("http" ++ "s" ++ "://" ++ String c r) at 2.
  rewrite lit_app. unfold Re.opt_lit. rewrite !lit_app.
  pose proof (url_tail_total ("https://" ++ String c r) c r Hc) as H.
  now destruct (Re.plus non_space _ (String c r)).
Qed.

Lemma url_pattern_None (s : string) :
  url_pattern s = None <-> url_token_at s = false.
Proof.
  split.
  - intros H. destruct (url_token_at s) eqn:E; [|reflexivity]. exfalso.
    unfold url_token_at in E. apply orb_true_iff in E. destruct E as [E|E].
    + destruct (strip_prefix "http://" s) as [r|] eqn:Er; [|discriminate].
      apply strip_prefix_Some in Er. destruct r as [|c r]; [discriminate|].
      simpl in E. subst s. now apply (url_pattern_http c r).
    + destruct (strip_prefix "https://" s) as [r|] eqn:Er; [|discriminate].
      apply strip_prefix_Some in Er. destruct r as [|c r]; [discriminate|].
      simpl in E. subst s. now apply (url_pattern_https c r).
  - intros H. destruct (url_pattern s) as [[u rest]|] eqn:E; [|reflexivity].
    apply url_pattern_Some in E as (-> & scheme & c & a & Hsch & -> & Hc).
    rewrite str_app_assoc in H. simpl in H.
    now rewrite (url_token_at_scheme scheme c _ Hsch Hc) in H.
Qed.

Lemma has_url_cons (c : ascii) (s : string) :
  has_url (String c s) = url_token_at (String c s) || has_url s.
Proof. reflexivity. Qed.

Lemma has_url_app (a b : string) : url_token_at b = true -> has_url (a ++ b) = true.
Proof.
  intros H. induction a as [|c a IH].
  - destruct b; simpl; [discriminate | simpl in H]; now rewrite H.
  - simpl String.append. rewrite has_url_cons, IH. apply orb_true_r.
Qed.

Lemma has_url_app_r (a b : string) : has_url b = true -> has_url (a ++ b) = true.
Proof.
  intros H. induction a as [|c a IH]; [exact H|].
  simpl String.append. rewrite has_url_cons, IH. apply orb_true_r.
Qed.

Lemma format_urls_lit (c : ascii) (s : string) :
  url_token_at (String c s) = false ->
  format_urls (String c s) = String c (format_urls s).
Proof. intros H. apply sub_lit. now apply url_pattern_None. Qed.

Lemma format_urls_hit (s : string) :
  url_token_at s = true ->
  exists u rest, s = u ++ rest /\ url_token_at u = true
    /\ format_urls s = replace_with_link u ++ format_urls rest.
Proof.
  intros H. destruct (url_pattern s) as [[u rest]|] eqn:E.
  - pose proof E as E'.
    apply url_pattern_Some in E' as (Hs & scheme & c & a & Hsch & Hu & Hc).
    exists u, rest. split; [exact Hs|]. split.
    + rewrite Hu. now apply url_token_at_scheme.
    + apply (sub_hit _ _ s u rest u E Hs). rewrite Hu.
      destruct Hsch as [-> | ->]; discriminate.
  - apply url_pattern_None in E. congruence.
Qed.

Lemma format_urls_no_url (text : string) :
  has_url text = false -> format_urls text = text.
Proof.
  induction text as [|c text IH]; intros H; [reflexivity|].
  rewrite has_url_cons in H. apply orb_false_iff in H as [Hh Ht].
  now rewrite format_urls_lit, IH.
Qed.

Lemma url_token_starts_with_h (s : string) :
  url_token_at s = true -> exists s', s = String "h" s'.
Proof.
  unfold url_token_at. intros H. apply orb_true_iff in H.
  destruct H as [H|H];
    destruct (strip_prefix _ s) as [r|] eqn:E; try discriminate;
    apply strip_prefix_Some in E; subst s; eexists; reflexivity.
Qed.

Lemma format_urls_changes (text : string) :
  has_url text = true -> format_urls text <> text.
Proof.
  induction text as [|c text IH]; intros H; [discriminate|].
  rewrite has_url_cons in H.
  destruct (url_token_at (String c text)) eqn:E.
  - destruct (format_urls_hit _ E) as (u & rest & _ & _ & ->).
    destruct (url_token_starts_with_h _ E) as (s' & ->).
    discriminate.
  - rewrite format_urls_lit by exact E. simpl in H.
    intros [= Heq]. now apply IH.
Qed.

Lemma format_urls_keeps_url (text : string) :
  has_url text = true -> has_url (format_urls text) = true.
Proof.
  induction text as [|c text IH]; intros H; [discriminate|].
  rewrite has_url_cons in H.
  destruct (url_token_at (String c text)) eqn:E.
  - destruct (format_urls_hit _ E) as (u & rest & _ & Hu & ->).
    unfold replace_with_link. rewrite !str_app_assoc.
    apply (has_url_app_r "<a href="). apply (has_url_app (chr DQ)).
    destruct (url_token_starts_with_h _ Hu) as (u' & ->).
    destruct (url_pattern (String "h" u')) as [[v rest']|] eqn:Eu.
    + apply url_pattern_Some in Eu as (Hv & scheme & x & a & Hsch & -> & Hx).
      rewrite Hv, !str_app_assoc. simpl String.append at 2.
      now apply url_token_at_scheme.
    + apply url_pattern_None in Eu. congruence.
  - rewrite format_urls_lit by exact E. simpl in H.
    rewrite has_url_cons, (IH H). apply orb_true_r.
Qed.

(** C2, as the code has it.  [format_urls] leaves a text as it is exactly
    when the text holds no URL token ([http://] or [https://] followed by a
    character that is not white space): text without URLs, escaped HTML
    included, is not altered.  Anchors are not recognised, so a second
    application changes the result of the first whenever the text had a
    URL: [format_urls] is idempotent exactly on the texts without URL. *)
Theorem format_urls_fixed_points :
  forall text : string,
    (format_urls text = text <-> has_url text = false)
    /\ (format_urls (format_urls text) = format_urls text <-> has_url text = false).
Proof.
  intros text.
  assert (H1 : forall t, format_urls t = t <-> has_url t = false).
  { intros t. split.
    - intros H. destruct (has_url t) eqn:E; [|reflexivity].
      now apply format_urls_changes in E.
    - apply format_urls_no_url. }
  split; [apply H1|]. rewrite H1. split.
  - intros H. destruct (has_url text) eqn:E; [|reflexivity].
    apply format_urls_keeps_url in E. congruence.
  - intros H. now rewrite (format_urls_no_url _ H).
Qed.

(** C2, as stated, fails: the text that [format_urls] made of
    [see http://a.com now] holds its URL only inside the anchor, and a
    second application wraps both copies of the URL, with what follows them
    up to the next blank, in anchors again. *)
Lemma format_urls_wraps_anchor_again :
  let linked := "see " ++ replace_with_link "http://a.com" ++ " now" in
  format_urls "see http://a.com now" = linked
  /\ format_urls linked
     = "see <a href=" ++ chr DQ ++ replace_with_link ("http://a.com" ++ chr DQ)
       ++ " style=" ++ chr DQ ++ "color:blue;" ++ chr DQ ++ ">"
       ++ replace_with_link "http://a.com</a>" ++ " now"
  /\ format_urls linked <> linked.
Proof.
  cbv zeta. split; [vm_compute; reflexivity|]. split; [vm_compute; reflexivity|].
  intros H. apply (f_equal String.length) in H. vm_compute in H. discriminate.
Qed.

(** ** [format_file_links] *)



Lemma sub_tokens_dropped {M St : Type} (repl : M -> St -> option string * St)
    (m : M) (ts : list (Re.token M)) (st : St) :
  repl m st = (None, st) ->
  Re.sub_tokens repl (Re.Hit m :: ts) st = Re.sub_tokens repl ts st.
Proof. intros H. simpl. rewrite H. now destruct (Re.sub_tokens repl ts st). Qed.

(** C3, evaluated.  A text with a citation marker and no definition line:
    the marker's own [[0])], with the rest of its line, is taken for the
    definition of index 0, and a link to [output/) here] is emitted and
    stored.  Where the index is in no definition at all (an earlier match
    of the definition pattern has taken the line), the callback returns
    [None] and [re.sub] puts nothing in place of the marker. *)
Theorem citation_without_definition :
  Re.findall file_citation_pattern "See [chart]([0]) here" = [("0", ") here")]
  /\ format_file_links init_view "See [chart]([0]) here"
     = ("See " ++ clickable_html "output/) here" ") here" "chart" ++ " here",
        {| file_path := "output";
           text_to_url_map := {[ "chart" := {| path := "output/) here" |} ]} |})
  /\ Re.findall file_citation_pattern "Sources [1]: [chart]([0])"
     = [("1", ": [chart]([0])")]
  /\ format_file_links init_view "Sources [1]: [chart]([0])"
     = ("Sources [1]: ", init_view).
Proof. repeat split; vm_compute; reflexivity. Qed.

(** C5, evaluated.  With the definition line before the marker, the last
    pair found for index 0 is the marker's own [[0])]: the link goes to
    [output/)], not to [output/chart.png]; the definition line is removed.
    With the definition line after the marker the link goes to
    [output/chart.png]. *)
Theorem citation_definition_before_marker :
  let text := "[0] chart.png" ++ chr NL ++ "[See chart]([0])" in
  let text' := "[See chart]([0])" ++ chr NL ++ "[0] chart.png" in
  Re.findall file_citation_pattern text = [("0", "chart.png"); ("0", ")")]
  /\ format_file_links init_view text
     = (chr NL ++ clickable_html "output/)" ")" "See chart",
        {| file_path := "output";
           text_to_url_map := {[ "See chart" := {| path := "output/)" |} ]} |})
  /\ Re.findall file_citation_pattern text' = [("0", ")"); ("0", "chart.png")]
  /\ format_file_links init_view text'
     = (clickable_html "output/chart.png" "chart.png" "See chart" ++ chr NL,
        {| file_path := "output";
           text_to_url_map := {[ "See chart" := {| path := "output/chart.png" |} ]} |}).
Proof. cbv zeta. repeat split; vm_compute; reflexivity. Qed.

(** ** The keys of the citation map *)

Lemma resolve_file_path (c2f : gmap string string) (m : string * string) (self : view) :
  file_path (resolve c2f m self) = file_path self.
Proof.
  unfold resolve, replace_with_clickable_text. destruct m as [link_text index].
  destruct (c2f !! index) as [file_name|]; [|reflexivity].
  now destruct (String.eqb file_name "").
Qed.

Lemma resolve_all_file_path (c2f : gmap string string) (ms : list (string * string)) :
  forall self, file_path (resolve_all c2f ms self) = file_path self.
Proof.
  induction ms as [|m ms IH]; intros self; [reflexivity|].
  unfold resolve_all in *. simpl. now rewrite IH, resolve_file_path.
Qed.

(** A key once stored stays. *)
Lemma resolve_keeps_keys (c2f : gmap string string) (m : string * string)
    (self : view) (key : string) :
  is_Some (text_to_url_map self !! key) ->
  is_Some (text_to_url_map (resolve c2f m self) !! key).
Proof.
  intros H. unfold resolve, replace_with_clickable_text.
  destruct m as [link_text index].
  destruct (c2f !! index) as [file_name|]; [|exact H].
  destruct (String.eqb file_name ""); [exact H|]. simpl.
  rewrite lookup_insert. case_decide; [eauto | exact H].
Qed.

Lemma resolve_all_keeps_keys (c2f : gmap string string) (ms : list (string * string))
    (key : string) :
  forall self,
    is_Some (text_to_url_map self !! key) ->
    is_Some (text_to_url_map (resolve_all c2f ms self) !! key).
Proof.
  induction ms as [|m ms IH]; intros self H; [exact H|].
  unfold resolve_all in *. simpl. apply IH. now apply resolve_keeps_keys.
Qed.

(** What one resolved citation stores. *)
Lemma resolve_resolved (c2f : gmap string string) (self : view)
    (label index file_name : string) :
  c2f !! index = Some file_name -> file_name <> "" ->
  text_to_url_map (resolve c2f (label, index) self)
  = <[map_key label (text_to_url_map self)
      := {| path := PosixPath.normpath (PosixPath.path_join (file_path self) file_name) |}]>
    (text_to_url_map self).
Proof.
  intros H Hne. unfold resolve, replace_with_clickable_text. rewrite H.
  apply String.eqb_neq in Hne. now rewrite Hne.
Qed.

Lemma suffixed_key_differs (label suffix : string) : label ++ " " ++ suffix <> label.
Proof.
  intros H. apply (f_equal String.length) in H.
  rewrite str_length_app in H. simpl in H. lia.
Qed.

(** The state that [re.sub] threads through the callback is the fold of
    the callback over the matches. *)
Lemma sub_tokens_state {M St : Type} (repl : M -> St -> option string * St)
    (ts : list (Re.token M)) :
  forall st, snd (Re.sub_tokens repl ts st)
             = fold_left (fun st m => snd (repl m st)) (Re.hits ts) st.
Proof.
  induction ts as [|[c|m] ts IH]; intros st; simpl.
  - reflexivity.
  - rewrite <- IH. now destruct (Re.sub_tokens repl ts st).
  - destruct (repl m st) as [r st1] eqn:E. simpl. rewrite <- IH.
    now destruct (Re.sub_tokens repl ts st1).
Qed.

Lemma format_file_links_view (self : view) (text : string) :
  snd (format_file_links self text)
  = resolve_all (citation_table (Re.findall file_citation_pattern text))
                (Re.findall citation_link_pattern text) self.
Proof.
  unfold format_file_links, Re.sub_with, resolve_all, Re.findall.
  set (c2f := citation_table _). set (ts := Re.scan citation_link_pattern text).
  pose proof (sub_tokens_state (replace_with_clickable_text c2f) ts self) as H.
  destruct (Re.sub_tokens (replace_with_clickable_text c2f) ts self) as [u self'].
  exact H.
Qed.

(** The decimal rendering of a number reads back as the number. *)
Lemma int_from_app (a b : string) : forall v,
  int_from v (a ++ b) = int_from (int_from v a) b.
Proof. induction a as [|c a IH]; intros v; simpl; [reflexivity | apply IH]. Qed.

Lemma str_of_nat_fuel_digits (fuel : nat) : forall n acc,
  n < fuel ->
  exists ds, str_of_nat_fuel fuel n acc = ds ++ acc
             /\ forall v, int_from v ds = v * 10 ^ String.length ds + n.
Proof.
  induction fuel as [|fuel IH]; intros n acc Hn; [lia|].
  cbn [str_of_nat_fuel].
  assert (Hd : nat_of_ascii (digit_char (n mod 10)) - 48 = n mod 10).
  { unfold digit_char. pose proof (Nat.mod_upper_bound n 10 ltac:(lia)).
    rewrite nat_ascii_embedding by lia. lia. }
  destruct (Nat.ltb_spec n 10) as [Hlt|Hge].
  - exists (chr (digit_char (n mod 10))). split; [reflexivity|].
    intros v. cbn [int_from chr String.length].
    rewrite Hd, Nat.mod_small by exact Hlt. rewrite Nat.pow_1_r. lia.
  - assert (Hq : n / 10 < fuel).
    { pose proof (Nat.div_lt n 10 ltac:(lia) ltac:(lia)). lia. }
    destruct (IH (n / 10) (String (digit_char (n mod 10)) acc) Hq)
      as (ds & -> & Hds).
    exists (ds ++ chr (digit_char (n mod 10))). split.
    + now rewrite str_app_snoc.
    + intros v. rewrite int_from_app, Hds, str_length_app.
      cbn [int_from chr String.length].
      rewrite Hd, Nat.add_1_r, Nat.pow_succ_r'.
      pose proof (Nat.div_mod_eq n 10). lia.
Qed.

Lemma int_of_str_of_nat (n : nat) : int_from 0 (str_of_nat n) = n.
Proof.
  unfold str_of_nat.
  destruct (str_of_nat_fuel_digits (S n) n "" ltac:(lia)) as (ds & -> & Hds).
  rewrite str_app_nil_r. now rewrite Hds.
Qed.

Lemma str_of_nat_inj (n m : nat) : str_of_nat n = str_of_nat m -> n = m.
Proof.
  intros H. rewrite <- (int_of_str_of_nat n), <- (int_of_str_of_nat m).
  now rewrite H.
Qed.

(** The map never shrinks. *)
Lemma resolve_size (c2f : gmap string string) (m : string * string) (self : view) :
  size (text_to_url_map self) <= size (text_to_url_map (resolve c2f m self)).
Proof.
  unfold resolve, replace_with_clickable_text. destruct m as [link_text index].
  destruct (c2f !! index) as [file_name|]; [|reflexivity].
  destruct (String.eqb file_name ""); [reflexivity|]. simpl.
  rewrite map_size_insert. destruct (_ !! _); simpl; lia.
Qed.

Lemma resolve_all_size (c2f : gmap string string) (ms : list (string * string)) :
  forall self,
    size (text_to_url_map self) <= size (text_to_url_map (resolve_all c2f ms self)).
Proof.
  induction ms as [|m ms IH]; intros self; [reflexivity|].
  unfold resolve_all in *. simpl.
  etransitivity; [apply (resolve_size c2f m) | apply IH].
Qed.

(** Two resolutions of one label.  When the key chosen for the first is
    new (the label itself where the label is not yet a key), and the same
    label is resolved again, for another index and after any other
    citations, the second key is the label, a blank and the number of
    entries of the map plus one.  The two keys differ, each holds the path
    of its own file when it is stored, and both are keys of the map at the
    end of the render. *)
Lemma repeated_label_gets_suffix :
  forall (citation_to_filename : gmap string string) (self : view)
         (label i j fi fj : string) (mid post : list (string * string)),
    citation_to_filename !! i = Some fi -> fi <> "" ->
    citation_to_filename !! j = Some fj -> fj <> "" ->
    let key1 := map_key label (text_to_url_map self) in
    text_to_url_map self !! key1 = None ->
    let self1 := resolve citation_to_filename (label, i) self in
    let self2 := resolve_all citation_to_filename mid self1 in
    let key2 := label ++ " " ++ str_of_nat (size (text_to_url_map self2) + 1) in
    let self3 := resolve citation_to_filename (label, j) self2 in
    let final := resolve_all citation_to_filename post self3 in
    (text_to_url_map self !! label = None -> key1 = label)
    /\ text_to_url_map self1 !! key1
       = Some {| path := PosixPath.normpath (PosixPath.path_join (file_path self) fi) |}
    /\ text_to_url_map self3 !! key2
       = Some {| path := PosixPath.normpath (PosixPath.path_join (file_path self) fj) |}
    /\ key1 <> key2
    /\ is_Some (text_to_url_map final !! key1)
    /\ is_Some (text_to_url_map final !! key2).
Proof.
  intros c2f self label i j fi fj mid post Hi Hfi Hj Hfj. cbv zeta.
  set (key1 := map_key label (text_to_url_map self)). intros Hnew.
  set (self1 := resolve c2f (label, i) self).
  set (self2 := resolve_all c2f mid self1).
  set (self3 := resolve c2f (label, j) self2).
  set (key2 := label ++ " " ++ str_of_nat (size (text_to_url_map self2) + 1)).
  assert (Hmap1 : text_to_url_map self1
                  = <[key1 := {| path := PosixPath.normpath
                                           (PosixPath.path_join (file_path self) fi) |}]>
                    (text_to_url_map self))
    by apply (resolve_resolved _ _ _ _ _ Hi Hfi).
  assert (H1 : text_to_url_map self1 !! key1
               = Some {| path := PosixPath.normpath
                                   (PosixPath.path_join (file_path self) fi) |})
    by (rewrite Hmap1; apply lookup_insert_eq).
  assert (Hkey1 : text_to_url_map self !! label = None -> key1 = label).
  { intros H. unfold key1, map_key. rewrite H.
    now destruct (decide (is_Some None)) as [[? [=]]|_]. }
  assert (Hlabel1 : is_Some (text_to_url_map self1 !! label)).
  { destruct (text_to_url_map self !! label) as [p|] eqn:E.
    - apply resolve_keeps_keys. rewrite E. eauto.
    - rewrite <- (Hkey1 eq_refl), H1. eauto. }
  assert (H2 : is_Some (text_to_url_map self2 !! label))
    by now apply resolve_all_keeps_keys.
  assert (H3 : text_to_url_map self3 !! key2
               = Some {| path := PosixPath.normpath
                                   (PosixPath.path_join (file_path self) fj) |}).
  { unfold self3. rewrite (resolve_resolved _ _ _ _ _ Hj Hfj).
    unfold map_key. destruct (decide (is_Some (text_to_url_map self2 !! label)));
      [|contradiction].
    fold key2. rewrite lookup_insert_eq. unfold self2, self1.
    now rewrite resolve_all_file_path, resolve_file_path. }
  assert (Hsize : S (size (text_to_url_map self)) <= size (text_to_url_map self2)).
  { etransitivity; [|apply resolve_all_size].
    rewrite Hmap1, map_size_insert_None by exact Hnew. reflexivity. }
  split; [exact Hkey1|]. split; [exact H1|]. split; [exact H3|]. split; [|split].
  - unfold key1, key2, map_key.
    destruct (decide (is_Some (text_to_url_map self !! label))).
    + intros H. do 2 apply String.app_inj in H. apply str_of_nat_inj in H. lia.
    + intros H. symmetry in H. now apply suffixed_key_differs in H.
  - apply resolve_all_keeps_keys, resolve_keeps_keys, resolve_all_keeps_keys.
    rewrite H1. eauto.
  - apply resolve_all_keeps_keys. rewrite H3. eauto.
Qed.

(** The label [Download] resolved for the indices 0 and 1 of a new view:
    the keys are [Download] and [Download 2]. *)
Lemma repeated_label_gets_suffix_witness :
  let citation_to_filename := citation_table [("0", "a.png"); ("1", "b.png")] in
  let key1 := map_key "Download" (text_to_url_map init_view) in
  let self1 := resolve citation_to_filename ("Download", "0") init_view in
  let self2 := resolve_all citation_to_filename [] self1 in
  let key2 := "Download" ++ " " ++ str_of_nat (size (text_to_url_map self2) + 1) in
  let self3 := resolve citation_to_filename ("Download", "1") self2 in
  let final := resolve_all citation_to_filename [] self3 in
  (text_to_url_map init_view !! "Download" = None -> key1 = "Download")
  /\ text_to_url_map self1 !! key1
     = Some {| path := PosixPath.normpath (PosixPath.path_join (file_path init_view) "a.png") |}
  /\ text_to_url_map self3 !! key2
     = Some {| path := PosixPath.normpath (PosixPath.path_join (file_path init_view) "b.png") |}
  /\ key1 <> key2
  /\ is_Some (text_to_url_map final !! key1)
  /\ is_Some (text_to_url_map final !! key2).
Proof.
  apply (repeated_label_gets_suffix
           (citation_table [("0", "a.png"); ("1", "b.png")]) init_view
           "Download" "0" "1" "a.png" "b.png" [] []).
  - vm_compute. reflexivity.
  - discriminate.
  - vm_compute. reflexivity.
  - discriminate.
  - vm_compute. reflexivity.
Defined.

(** C6, evaluated.  The suffixed key is not tested against the map.  In
    [[A 3]([0]) [A]([1]) [A]([2]) [A]([3])] with its four definition lines
    every marker is resolved; after [A 3] and [A] the map has two entries,
    so the label [A] is stored under [A 3] when it is resolved for index 2,
    over the entry of the first marker, and under [A 3] again when it is
    resolved for index 3: one key for two indices of the same label, and
    two keys in all for four citations. *)
Theorem repeated_label_collision :
  let text := "[A 3]([0]) [A]([1]) [A]([2]) [A]([3])" ++ chr NL
              ++ "[0] a.png" ++ chr NL ++ "[1] b.png" ++ chr NL
              ++ "[2] c.png" ++ chr NL ++ "[3] d.png" in
  let citation_to_filename := citation_table (Re.findall file_citation_pattern text) in
  let self2 := resolve_all citation_to_filename [("A 3", "0"); ("A", "1")] init_view in
  let self3 := resolve citation_to_filename ("A", "2") self2 in
  Re.findall citation_link_pattern text
    = [("A 3", "0"); ("A", "1"); ("A", "2"); ("A", "3")]
  /\ citation_to_filename !! "2" = Some "c.png"
  /\ citation_to_filename !! "3" = Some "d.png"
  /\ map_key "A" (text_to_url_map self2) = "A 3"
  /\ map_key "A" (text_to_url_map self3) = "A 3"
  /\ text_to_url_map (snd (format_file_links init_view text))
     = {[ "A 3" := {| path := "output/d.png" |};
          "A" := {| path := "output/b.png" |} ]}.
Proof. cbv zeta. repeat split; vm_compute; reflexivity. Qed.

(** The same through [format_file_links], on a text with the two markers
    and the two definition lines. *)
Lemma repeated_label_example :
  let text := "[Download]([0]) and [Download]([1])" ++ chr NL
              ++ "[0] a.png" ++ chr NL ++ "[1] b.png" in
  Re.findall citation_link_pattern text = [("Download", "0"); ("Download", "1")]
  /\ text_to_url_map (snd (format_file_links init_view text))
     = {[ "Download" := {| path := "output/a.png" |};
          "Download 2" := {| path := "output/b.png" |} ]}.
Proof. cbv zeta. split; vm_compute; reflexivity. Qed.

(** ** The completion rendezvous *)

Lemma run_snoc (sched : list label) (l : label) : forall s,
  run (sched ++ [l]) s
  = match run sched s with
    | Some s' => step l s'
    | None => None
    end.
Proof.
  induction sched as [|l0 sched IH]; intros s; simpl.
  - now destruct (step l s).
  - destruct (step l0 s); [apply IH | reflexivity].
Qed.

Lemma dict_get_lookup {V : Type} (k : schedule_id) (v : V) (d : dict V) :
  dict_get k d = Some v -> exists i, d !! i = Some (k, v).
Proof.
  induction d as [|[k' v'] d IH]; simpl; [discriminate|].
  destruct (Nat.eqb_spec k k') as [->|Hne].
  - intros [= ->]. now exists 0.
  - intros H. destruct (IH H) as [i Hi]. now exists (S i).
Qed.

Lemma dict_set_lookup {V : Type} (k : schedule_id) (v : V) (d : dict V) :
  forall i k' v',
    dict_set k v d !! i = Some (k', v') ->
    (k' = k /\ v' = v) \/ d !! i = Some (k', v').
Proof.
  induction d as [|[k0 v0] d IH]; intros i k' v' H; simpl in H.
  - destruct i; [|discriminate]. injection H as <- <-. now left.
  - destruct (k =? k0)%nat.
    + destruct i; simpl in H; [injection H as <- <-; now left | now right].
    + destruct i; simpl in H; [now right|]. apply IH in H. exact H.
Qed.

Lemma dict_set_refs (k : schedule_id) (v : event_ref) (d : dict event_ref) :
  forall e, e ∈ (snd <$> dict_set k v d) -> e = v \/ e ∈ (snd <$> d).
Proof.
  induction d as [|[k0 v0] d IH]; intros e H; simpl in H.
  - apply list_elem_of_singleton in H. now left.
  - destruct (k =? k0)%nat; simpl in H; apply elem_of_cons in H as [H|H].
    + now left.
    + right. simpl. apply elem_of_cons. now right.
    + right. simpl. apply elem_of_cons. now left.
    + destruct (IH _ H) as [->|H']; [now left|].
      right. simpl. apply elem_of_cons. now right.
Qed.

Lemma dict_set_NoDup (k : schedule_id) (v : event_ref) (d : dict event_ref) :
  NoDup (snd <$> d) -> v ∉ (snd <$> d) -> NoDup (snd <$> dict_set k v d).
Proof.
  induction d as [|[k0 v0] d IH]; intros Hnd Hv; simpl.
  - apply NoDup_singleton.
  - simpl in Hnd, Hv. apply NoDup_cons in Hnd as [Hv0 Hnd].
    apply not_elem_of_cons in Hv as [Hne Hv].
    destruct (k =? k0)%nat; simpl; apply NoDup_cons.
    + split; assumption.
    + split; [|now apply IH].
      intros H. destruct (dict_set_refs _ _ _ _ H) as [->|H']; contradiction.
Qed.

Lemma invariant_init : invariant [] init.
Proof.
  constructor; simpl; try discriminate.
  - split; [discriminate | intros [H|H]; discriminate].
  - constructor.
Qed.

Lemma In_snoc_l {A : Type} (x y : A) (l : list A) : In x l -> In x (l ++ [y])%list.
Proof. intros H. apply in_or_app. now left. Qed.

Lemma In_snoc_r {A : Type} (y : A) (l : list A) : In y (l ++ [y])%list.
Proof. apply in_or_app. right. now left. Qed.

Lemma observed_snoc (sched : list label) (l : label) :
  l <> CallWait ->
  (exists before after s0,
      sched = (before ++ WaiterStep :: after)%list
      /\ run before init = Some s0
      /\ waiter s0 = Checking /\ task_started s0 = true
      /\ ~ In CallWait after) ->
  exists before after s0,
    (sched ++ [l])%list = (before ++ WaiterStep :: after)%list
    /\ run before init = Some s0
    /\ waiter s0 = Checking /\ task_started s0 = true
    /\ ~ In CallWait after.
Proof.
  intros Hl (before & after & s0 & -> & Hrun & Hpc & Hts & Hno).
  exists before, (after ++ [l])%list, s0. repeat split; try assumption.
  - now rewrite <- app_assoc.
  - intros H. apply in_app_or in H as [H|[H|[]]]; [contradiction | congruence].
Qed.

Lemma is_set_after_set (s : state) (e0 e : event_ref) :
  is_set s e = true ->
  match <[e0 := true]> (events s) !! e with
  | Some flag => flag
  | None => false
  end = true.
Proof.
  unfold is_set. intros H. destruct (decide (e0 = e)) as [->|Hne].
  - destruct (events s !! e) eqn:E; [|discriminate].
    rewrite list_lookup_insert_eq; [reflexivity|].
    now apply lookup_lt_Some in E.
  - now rewrite list_lookup_insert_ne.
Qed.

Lemma invariant_call_wait (sched : list label) (s s' : state) :
  invariant sched s -> wait_for_all_tasks_call s = Some s' ->
  invariant (sched ++ [CallWait]) s'.
Proof.
  intros [Hlock Hrange Hnd Hby Hprog Haw Hobs Hst] Hstep.
  unfold wait_for_all_tasks_call in Hstep.
  assert (Hpc : waiter s = Idle \/ waiter s = Returned)
    by (destruct (waiter s); try discriminate; auto).
  assert (s' = set_waiter Acquiring (condition s) s)
    by (destruct Hpc as [E|E]; rewrite E in Hstep; now injection Hstep).
  subst s'. clear Hstep. constructor; simpl; try discriminate.
  - rewrite Hlock. destruct Hpc as [E|E]; rewrite E; simpl;
      split; intros [H|H]; discriminate.
  - exact Hrange.
  - exact Hnd.
  - intros i sid e Hi Hset. destruct (Hby i sid e Hi Hset) as (l & Hl & Ht).
    exists l. split; [now apply In_snoc_l | exact Ht].
  - intros i [H|[e H]]; discriminate.
  - intros H. destruct (Hst H) as [sid Hsid]. exists sid. now apply In_snoc_l.
Qed.

Lemma invariant_thread_created (sched : list label) (name : string) (s s' : state) :
  invariant sched s -> on_task_started_exit name s = Some s' ->
  invariant (sched ++ [ThreadCreated name]) s'.
Proof.
  intros [Hlock Hrange Hnd Hby Hprog Haw Hobs Hst] Hstep.
  unfold on_task_started_exit in Hstep.
  destruct (condition s) eqn:Ec; try discriminate. injection Hstep as <-.
  assert (Hout : ~ (waiter s = Checking \/ in_loop (waiter s) = true))
    by (intros H; apply Hlock in H; congruence).
  constructor; simpl.
  - split; [discriminate | intros H; contradiction].
  - exact Hrange.
  - exact Hnd.
  - intros i sid e Hi Hset. destruct (Hby i sid e Hi Hset) as (l & Hl & Ht).
    exists l. split; [now apply In_snoc_l | exact Ht].
  - exact Hprog.
  - exact Haw.
  - intros H. exfalso. apply Hout. now right.
  - intros H. destruct (Hst H) as [sid Hsid]. exists sid. now apply In_snoc_l.
Qed.

Lemma invariant_task_started (sched : list label) (sid : schedule_id) (s s' : state) :
  invariant sched s -> on_task_started_enter sid s = Some s' ->
  invariant (sched ++ [TaskStarted sid]) s'.
Proof.
  intros [Hlock Hrange Hnd Hby Hprog Haw Hobs Hst] Hstep.
  unfold on_task_started_enter in Hstep.
  destruct (condition s) eqn:Ec; try discriminate. injection Hstep as <-.
  assert (Hout : ~ (waiter s = Checking \/ in_loop (waiter s) = true))
    by (intros H; apply Hlock in H; congruence).
  assert (Hpc : forall pc, pc = Checking \/ in_loop pc = true ->
                match waiter s with Waiting => Notified | pc' => pc' end <> pc).
  { intros pc Hpc E. apply Hout. destruct (waiter s); subst pc; auto;
      destruct Hpc as [H|H]; discriminate. }
  constructor; simpl.
  - split; [discriminate|]. intros H. exfalso. now apply (Hpc _ H).
  - intros i sid' e Hi. rewrite length_app. simpl.
    apply dict_set_lookup in Hi as [[_ ->]|Hi]; [lia|].
    apply Hrange in Hi. lia.
  - apply dict_set_NoDup; [exact Hnd|].
    intros H. apply list_elem_of_lookup in H as [i Hi].
    apply list_lookup_fmap_Some_1 in Hi as ([sid' e] & He & Hi).
    simpl in He. subst e. apply Hrange in Hi. lia.
  - intros i sid' e Hi Hset. unfold is_set in Hset. simpl in Hset.
    apply dict_set_lookup in Hi as [[_ ->]|Hi].
    + rewrite lookup_app_r, Nat.sub_diag in Hset by lia. discriminate.
    + pose proof (Hrange _ _ _ Hi) as Hlt.
      rewrite lookup_app_l in Hset by exact Hlt.
      destruct (Hby i sid' e Hi Hset) as (l & Hl & Ht).
      exists l. split; [now apply In_snoc_l | exact Ht].
  - intros i H. exfalso. destruct H as [H|[e H]].
    + apply (Hpc (Iterating i)); [now right | exact H].
    + apply (Hpc (AwaitingEvent i e)); [now right | exact H].
  - intros i e H. exfalso. apply (Hpc (AwaitingEvent i e)); [now right | exact H].
  - intros H. exfalso. now apply (Hpc _ (or_intror H)).
  - intros _. exists sid. apply In_snoc_r.
Qed.

(** The fields after a terminal callback. *)
Lemma terminal_fields (sid : schedule_id) (s s' : state) :
  on_task_completed sid s = Ok s' \/ on_task_failed sid s = Ok s' ->
  task_completion_events s' = task_completion_events s
  /\ condition s' = condition s /\ waiter s' = waiter s
  /\ task_started s' = false
  /\ events s' = match dict_get sid (task_completion_events s) with
                 | Some e => <[e := true]> (events s)
                 | None => events s
                 end.
Proof.
  unfold on_task_completed, on_task_failed.
  destruct (dict_get sid (task_completion_events s)) as [e|]; simpl;
    intros [[= <-]|[= <-]]; repeat split.
Qed.

Lemma invariant_terminal (sched : list label) (l : label) (sid : schedule_id)
    (s s' : state) :
  invariant sched s ->
  l = TaskCompleted sid \/ l = TaskFailed sid ->
  on_task_completed sid s = Ok s' \/ on_task_failed sid s = Ok s' ->
  invariant (sched ++ [l]) s'.
Proof.
  intros [Hlock Hrange Hnd Hby Hprog Haw Hobs Hst] Hl Hstep.
  destruct (terminal_fields _ _ _ Hstep) as (Hd & Hc & Hw & Hts & Hev).
  assert (Hterm : is_terminal sid l = true)
    by (destruct Hl as [-> | ->]; simpl; apply Nat.eqb_refl).
  assert (Hmono : forall e, is_set s e = true -> is_set s' e = true).
  { intros e H. unfold is_set. rewrite Hev.
    destruct (dict_get sid (task_completion_events s)); [|exact H].
    now apply is_set_after_set. }
  constructor; rewrite ?Hd, ?Hc, ?Hw.
  - exact Hlock.
  - intros i sid' e Hi. apply Hrange in Hi. rewrite Hev.
    destruct (dict_get sid (task_completion_events s)); [|exact Hi].
    now rewrite length_insert.
  - exact Hnd.
  - intros i sid' e Hi Hset.
    destruct (dict_get sid (task_completion_events s)) as [e0|] eqn:Eg.
    + destruct (decide (e0 = e)) as [->|Hne].
      * (* the event just set: it is registered for [sid] alone *)
        apply dict_get_lookup in Eg as [j Hj].
        assert (i = j).
        { apply (NoDup_lookup _ i j e Hnd);
            rewrite list_lookup_fmap; [now rewrite Hi | now rewrite Hj]. }
        subst j. rewrite Hi in Hj. injection Hj as ->.
        exists l. split; [apply In_snoc_r | exact Hterm].
      * unfold is_set in Hset. rewrite Hev in Hset.
        rewrite list_lookup_insert_ne in Hset by exact Hne.
        destruct (Hby i sid' e Hi Hset) as (l' & Hl' & Ht).
        exists l'. split; [now apply In_snoc_l | exact Ht].
    + unfold is_set in Hset. rewrite Hev in Hset.
      destruct (Hby i sid' e Hi Hset) as (l' & Hl' & Ht).
      exists l'. split; [now apply In_snoc_l | exact Ht].
  - intros i Hi j sid' e Hj He. apply Hmono. now apply (Hprog i Hi j sid').
  - exact Haw.
  - intros H. apply observed_snoc; [|now apply Hobs].
    destruct Hl as [-> | ->]; discriminate.
  - rewrite Hts. discriminate.
Qed.

Lemma invariant_waiter_step (sched : list label) (s s' : state) :
  run sched init = Some s ->
  invariant sched s -> wait_for_all_tasks_step s = Some s' ->
  invariant (sched ++ [WaiterStep]) s'.
Proof.
  intros Hrun [Hlock Hrange Hnd Hby Hprog Haw Hobs Hst] Hstep.
  assert (Hby' : forall i sid e,
             task_completion_events s !! i = Some (sid, e) ->
             is_set s e = true ->
             exists l, In l (sched ++ [WaiterStep])%list /\ is_terminal sid l = true).
  { intros i sid e Hi Hset. destruct (Hby i sid e Hi Hset) as (l & Hl & Ht).
    exists l. split; [now apply In_snoc_l | exact Ht]. }
  assert (Hst' : task_started s = true ->
                 exists sid, In (TaskStarted sid) (sched ++ [WaiterStep])%list).
  { intros H. destruct (Hst H) as [sid Hsid]. exists sid. now apply In_snoc_l. }
  assert (Hobs' : in_loop (waiter s) = true ->
                  exists before after s0,
                    (sched ++ [WaiterStep])%list = (before ++ WaiterStep :: after)%list
                    /\ run before init = Some s0
                    /\ waiter s0 = Checking /\ task_started s0 = true
                    /\ ~ In CallWait after).
  { intros H. apply observed_snoc; [discriminate | now apply Hobs]. }
  unfold wait_for_all_tasks_step in Hstep.
  destruct (waiter s) as [| | | | |i|i ev|] eqn:Epc; try discriminate.
  - (* Acquiring *)
    destruct (condition s) eqn:Ec; try discriminate. injection Hstep as <-.
    constructor; simpl; try assumption; try discriminate.
    + split; auto.
    + intros i [H|[e H]]; discriminate.
  - (* Checking *)
    assert (Hheld : condition s = HeldByWaiter) by (apply Hlock; now left).
    destruct (task_started s) eqn:Ets; injection Hstep as <-.
    + constructor; simpl; try assumption; try discriminate;
        try (intros _; apply Hst'; reflexivity).
      * rewrite Hheld. split; auto.
      * intros i [[= <-]|[e0 [=]]] j sid e Hj. lia.
      * intros _. exists sched, [], s. repeat split; auto.
    + constructor; simpl; try assumption; try discriminate;
        try (intros H; congruence).
      * split; [discriminate | intros [H|H]; discriminate].
      * intros i [H|[e H]]; discriminate.
  - (* Notified *)
    destruct (condition s) eqn:Ec; try discriminate. injection Hstep as <-.
    constructor; simpl; try assumption; try discriminate.
    + split; auto.
    + intros i [H|[e H]]; discriminate.
  - (* Iterating i *)
    assert (Hheld : condition s = HeldByWaiter) by (apply Hlock; now right).
    destruct (task_completion_events s !! i) as [[sid ev]|] eqn:Ei;
      injection Hstep as <-.
    + constructor; simpl; try assumption; try discriminate.
      * rewrite Hheld. split; auto.
      * intros i' [[=]|[e0 [= <- <-]]]. apply Hprog. now left.
      * intros i' e' [= <- <-]. now exists sid.
    + constructor; simpl; try assumption; try discriminate.
      * split; [discriminate | intros [H|H]; discriminate].
      * intros i' [H|[e H]]; discriminate.
  - (* AwaitingEvent i ev *)
    assert (Hheld : condition s = HeldByWaiter) by (apply Hlock; now right).
    destruct (is_set s ev) eqn:Eset; [|discriminate]. injection Hstep as <-.
    constructor; simpl; try assumption; try discriminate.
    + rewrite Hheld. split; auto.
    + intros i' [[= <-]|[e0 [=]]] j sid e Hj Hje.
      destruct (decide (j = i)) as [->|Hne].
      * destruct (Haw i ev eq_refl) as [sid' Hi]. rewrite Hi in Hje.
        injection Hje as <- <-. exact Eset.
      * apply (Hprog i (or_intror (ex_intro _ ev eq_refl)) j sid e); [lia | exact Hje].
Qed.

Lemma invariant_step (sched : list label) (l : label) (s s' : state) :
  run sched init = Some s ->
  invariant sched s -> step l s = Some s' -> invariant (sched ++ [l]) s'.
Proof.
  intros Hrun Hinv Hstep. destruct l as [| |sid|name|sid|sid]; simpl in Hstep.
  - now apply (invariant_call_wait sched s).
  - now apply (invariant_waiter_step sched s).
  - now apply (invariant_task_started sched sid s).
  - now apply (invariant_thread_created sched name s).
  - apply (invariant_terminal sched _ sid s); [exact Hinv | now left |].
    left. destruct (on_task_completed sid s) as [a|e]; simpl in Hstep;
      [injection Hstep as ->; reflexivity | discriminate].
  - apply (invariant_terminal sched _ sid s); [exact Hinv | now right |].
    right. destruct (on_task_failed sid s) as [a|e]; simpl in Hstep;
      [injection Hstep as ->; reflexivity | discriminate].
Qed.

Lemma invariant_run (sched : list label) : forall s,
  run sched init = Some s -> invariant sched s.
Proof.
  induction sched as [|l sched IH] using rev_ind; intros s Hrun.
  - injection Hrun as <-. apply invariant_init.
  - rewrite run_snoc in Hrun.
    destruct (run sched init) as [s0|] eqn:E; [|discriminate].
    apply (invariant_step sched l s0); [reflexivity || exact E | now apply IH | exact Hrun].
Qed.

(** The only way into [Returned] is the end of the [for] loop. *)
Lemma returns_from_loop (l : label) (s s' : state) :
  waiter s <> Returned -> step l s = Some s' -> waiter s' = Returned ->
  l = WaiterStep
  /\ exists i, waiter s = Iterating i
               /\ task_completion_events s !! i = None
               /\ s' = set_waiter Returned Unlocked s.
Proof.
  intros Hpc Hstep Hret. destruct l as [| |sid|name|sid|sid]; simpl in Hstep.
  - unfold wait_for_all_tasks_call in Hstep.
    destruct (waiter s); try discriminate; injection Hstep as <-; discriminate.
  - split; [reflexivity|]. unfold wait_for_all_tasks_step in Hstep.
    destruct (waiter s) as [| | | | |i|i ev|] eqn:Epc; try discriminate.
    + destruct (condition s); try discriminate. injection Hstep as <-. discriminate.
    + destruct (task_started s); injection Hstep as <-; discriminate.
    + destruct (condition s); try discriminate. injection Hstep as <-. discriminate.
    + exists i. destruct (task_completion_events s !! i) as [[sid ev]|] eqn:Ei;
        injection Hstep as <-; [discriminate | auto].
    + destruct (is_set s ev); [|discriminate]. injection Hstep as <-. discriminate.
  - unfold on_task_started_enter in Hstep.
    destruct (condition s); try discriminate. injection Hstep as <-.
    simpl in Hret. destruct (waiter s); congruence.
  - unfold on_task_started_exit in Hstep.
    destruct (condition s); try discriminate. injection Hstep as <-.
    simpl in Hret. contradiction.
  - destruct (on_task_completed sid s) as [a|e] eqn:E; [|discriminate].
    injection Hstep as ->.
    destruct (terminal_fields sid s s' (or_introl E)) as (_ & _ & Hw & _).
    congruence.
  - destruct (on_task_failed sid s) as [a|e] eqn:E; [|discriminate].
    injection Hstep as ->.
    destruct (terminal_fields sid s s' (or_intror E)) as (_ & _ & Hw & _).
    congruence.
Qed.

(** C1.  In every execution from a new orchestrator, at the step by which
    [wait_for_all_tasks] returns: every schedule id registered in
    [task_completion_events] has its event set, and the execution holds a
    terminal callback ([on_task_completed] or [on_task_failed]) of that id;
    earlier in the same call (no new call in between) the [while] test found
    [task_started] true; and an [on_task_started] has run. *)
Theorem wait_for_all_tasks_returns_after_completion :
  forall (sched : list label) (l : label) (s s' : state),
    run sched init = Some s ->
    waiter s <> Returned ->
    step l s = Some s' ->
    waiter s' = Returned ->
    (forall (sid : schedule_id) (e : event_ref),
        dict_get sid (task_completion_events s') = Some e ->
        is_set s' e = true
        /\ exists l', In l' sched /\ is_terminal sid l' = true)
    /\ (exists before after s0,
          sched = (before ++ WaiterStep :: after)%list
          /\ run before init = Some s0
          /\ waiter s0 = Checking /\ task_started s0 = true
          /\ ~ In CallWait after)
    /\ exists sid, In (TaskStarted sid) sched.
Proof.
  intros sched l s s' Hrun Hpc Hstep Hret.
  destruct (returns_from_loop l s s' Hpc Hstep Hret) as (-> & i & Hi & Hend & ->).
  pose proof (invariant_run sched s Hrun) as [Hlock Hrange Hnd Hby Hprog Haw Hobs Hst].
  assert (Hloop : in_loop (waiter s) = true) by now rewrite Hi.
  destruct (Hobs Hloop) as (before & after & s0 & Hsched & Hrun0 & Hpc0 & Hts0 & Hno).
  split; [|split].
  - intros sid e Hget. simpl in Hget.
    apply dict_get_lookup in Hget as [j Hj].
    assert (Hlt : j < i).
    { apply lookup_ge_None in Hend. apply lookup_lt_Some in Hj. lia. }
    assert (Hset : is_set s e = true)
      by (apply (Hprog i (or_introl Hi) j sid e Hlt Hj)).
    split; [exact Hset|]. now apply (Hby j sid e).
  - now exists before, after, s0.
  - destruct (inv_started _ _ (invariant_run before s0 Hrun0) Hts0) as [sid Hsid].
    exists sid. rewrite Hsched. apply in_or_app. now left.
Qed.

(** One batch: the waiter blocks, the batch starts, the waiter enters its
    loop and waits for the event, the batch completes, the waiter returns. *)
Lemma wait_for_all_tasks_returns_witness :
  let sched :=
    [CallWait; WaiterStep; WaiterStep; TaskStarted 1; ThreadCreated "thread";
     WaiterStep; WaiterStep; WaiterStep; TaskCompleted 1; WaiterStep] in
  let s' :=
    {| task_completion_events := [(1, 0)]; events := [true];
       task_started := false; thread_name := Some "thread";
       condition := Unlocked; waiter := Returned |} in
  (forall (sid : schedule_id) (e : event_ref),
      dict_get sid (task_completion_events s') = Some e ->
      is_set s' e = true
      /\ exists l', In l' sched /\ is_terminal sid l' = true)
  /\ (exists before after s0,
        sched = (before ++ WaiterStep :: after)%list
        /\ run before init = Some s0
        /\ waiter s0 = Checking /\ task_started s0 = true
        /\ ~ In CallWait after)
  /\ exists sid, In (TaskStarted sid) sched.
Proof.
  apply (wait_for_all_tasks_returns_after_completion
           [CallWait; WaiterStep; WaiterStep; TaskStarted 1; ThreadCreated "thread";
            WaiterStep; WaiterStep; WaiterStep; TaskCompleted 1; WaiterStep]
           WaiterStep
           {| task_completion_events := [(1, 0)]; events := [true];
              task_started := false; thread_name := Some "thread";
              condition := HeldByWaiter; waiter := Iterating 1 |}).
  - reflexivity.
  - discriminate.
  - reflexivity.
  - reflexivity.
Defined.

(** ** The spans of [find_urls] *)

Lemma all_chars_app (cls : ascii -> bool) (a b : string) :
  all_chars cls (a ++ b) = all_chars cls a && all_chars cls b.
Proof.
  induction a as [|c a IH]; simpl; [reflexivity|].
  rewrite IH. now rewrite andb_assoc.
Qed.

(** A greedy [\S*] whose continuation cannot fail takes every character up
    to the first white space. *)
Lemma star_non_space_greedy {R : Type} (k : string -> string -> option R) :
  (forall cap rest, k cap rest <> None) ->
  forall s cap, exists a b,
    s = a ++ b /\ all_chars non_space a = true /\ first_non_space b = false
    /\ Re.star non_space k cap s = k (cap ++ a) b.
Proof.
  intros Hk s. induction s as [|c s IH]; intros cap.
  - exists "", "". simpl. now rewrite str_app_nil_r.
  - simpl. destruct (non_space c) eqn:Hc.
    + destruct (IH (cap ++ chr c)) as (a & b & -> & Ha & Hb & Hstar).
      exists (String c a), b. simpl. rewrite Hc, Ha. repeat split; try assumption.
      rewrite Hstar, str_app_snoc.
      destruct (k (cap ++ String c a) b) eqn:Hkk; [reflexivity|].
      now apply Hk in Hkk.
    + exists "", (String c s). simpl. rewrite Hc, str_app_nil_r. auto.
Qed.

(** What [url_pattern] matches: a URL token, free of white space, that
    ends at the first white space or at the end of the text. *)
Lemma url_pattern_match (s u rest : string) :
  url_pattern s = Some (u, rest) ->
  s = u ++ rest /\ u <> "" /\ url_token_at u = true
  /\ all_chars non_space u = true /\ first_non_space rest = false.
Proof.
  intros H.
  destruct (url_pattern_Some _ _ _ H) as (Hs & scheme & c & a & Hscheme & Hu & Hc).
  assert (Hne : u <> "").
  { subst u. destruct Hscheme as [-> | ->]; discriminate. }
  assert (Htok : url_token_at u = true).
  { subst u. now apply url_token_at_scheme. }
  repeat split; try assumption.
  - (* no white space inside *)
    revert H. unfold url_pattern.
    intros H. apply lit_Some in H as (r0 & Hs0 & H).
    assert (Htail : forall r, Re.lit "://"
              (Re.plus non_space (fun _ rest => Some (matched s rest, rest))) r
              = Some (u, rest) ->
            exists w, r = "://" ++ w ++ rest /\ all_chars non_space w = true
                      /\ first_non_space rest = false).
    { intros r Hr. apply lit_Some in Hr as (r1 & -> & Hr).
      destruct r1 as [|c1 r1]; simpl in Hr; [discriminate|].
      destruct (non_space c1) eqn:Hc1; [|discriminate].
      destruct (star_non_space_greedy
                  (fun (_ : string) rest => Some (matched s rest, rest))
                  ltac:(discriminate) r1 (chr c1)) as (a' & b' & -> & Ha' & Hb' & Hst).
      rewrite Hst in Hr. injection Hr as _ <-.
      exists (String c1 a'). simpl. rewrite Hc1, Ha'. auto. }
    unfold Re.opt_lit in H.
    destruct (Re.lit "s" _ r0) eqn:Hopt.
    + injection H as ->. apply lit_Some in Hopt as (r1 & -> & Hopt).
      destruct (Htail _ Hopt) as (w & -> & Hw & _).
      assert (Hu' : u = "https://" ++ w).
      { apply (f_equal (fun x => matched x rest)) in Hs0.
        rewrite Hs in Hs0 at 1. rewrite matched_app in Hs0.
        rewrite Hs0.
        change ("http" ++ "s" ++ "://" ++ w ++ rest) with (("https://" ++ w) ++ rest).
        apply matched_app. }
      rewrite Hu', all_chars_app, Hw. reflexivity.
    + destruct (Htail _ H) as (w & -> & Hw & _).
      assert (Hu' : u = "http://" ++ w).
      { apply (f_equal (fun x => matched x rest)) in Hs0.
        rewrite Hs in Hs0 at 1. rewrite matched_app in Hs0.
        rewrite Hs0.
        change ("http" ++ "://" ++ w ++ rest) with (("http://" ++ w) ++ rest).
        apply matched_app. }
      rewrite Hu', all_chars_app, Hw. reflexivity.
  - revert H. unfold url_pattern.
    intros H. apply lit_Some in H as (r0 & Hs0 & H).
    assert (Htail : forall r, Re.lit "://"
              (Re.plus non_space (fun _ rest => Some (matched s rest, rest))) r
              = Some (u, rest) -> first_non_space rest = false).
    { intros r Hr. apply lit_Some in Hr as (r1 & -> & Hr).
      destruct r1 as [|c1 r1]; simpl in Hr; [discriminate|].
      destruct (non_space c1) eqn:Hc1; [|discriminate].
      destruct (star_non_space_greedy
                  (fun (_ : string) rest => Some (matched s rest, rest))
                  ltac:(discriminate) r1 (chr c1)) as (a' & b' & -> & Ha' & Hb' & Hst).
      rewrite Hst in Hr. now injection Hr as _ <-. }
    unfold Re.opt_lit in H.
    destruct (Re.lit "s" _ r0) eqn:Hopt.
    + injection H as ->. apply lit_Some in Hopt as (r1 & -> & Hopt). eauto.
    + eauto.
Qed.

(** The scan at a URL token and elsewhere. *)
Lemma scan_url_hit (s u rest : string) :
  url_pattern s = Some (u, rest) ->
  Re.scan url_pattern s = Re.Hit u :: Re.scan url_pattern rest.
Proof.
  intros H. destruct (url_pattern_match _ _ _ H) as (Hs & Hne & _).
  exact (scan_hit url_pattern s u rest u H Hs Hne).
Qed.

Lemma url_pattern_at_space (rest : string) :
  first_non_space rest = false -> url_pattern rest = None.
Proof.
  intros H. apply url_pattern_None.
  destruct (url_token_at rest) eqn:Htok; [|reflexivity].
  destruct (url_token_starts_with_h _ Htok) as (r & ->).
  simpl in H. discriminate.
Qed.

(** Every span of a scan cuts the text at its URL. *)
Lemma spans_decompose (n : nat) : forall text pos url start end_,
  String.length text <= n ->
  In (url, start, end_) (ClickableTextEdit.spans pos (Re.scan url_pattern text)) ->
  exists before after,
    text = before ++ url ++ after
    /\ start = pos + String.length before
    /\ end_ = start + String.length url
    /\ url_token_at url = true
    /\ all_chars non_space url = true
    /\ first_non_space after = false.
Proof.
  induction n as [|n IH]; intros text pos url start end_ Hlen Hin.
  - destruct text; [contradiction | simpl in Hlen; lia].
  - destruct text as [|c text]; [contradiction|].
    destruct (url_pattern (String c text)) as [[u rest]|] eqn:Hm.
    + rewrite (scan_url_hit _ _ _ Hm) in Hin.
      destruct (url_pattern_match _ _ _ Hm) as (Hs & Hne & Htok & Hns & Hrest).
      simpl in Hin. destruct Hin as [Heq | Hin].
      * injection Heq as <- <- <-.
        exists "", rest. simpl. repeat split; try assumption; lia.
      * assert (Hl : String.length rest <= n).
        { apply (f_equal String.length) in Hs. rewrite str_length_app in Hs.
          simpl in Hs, Hlen. destruct u; [contradiction | simpl in Hs; lia]. }
        destruct (IH _ _ _ _ _ Hl Hin) as (b & a & Hr & Hst & He & H1 & H2 & H3).
        exists (u ++ b), a. rewrite Hs, Hr, str_app_assoc, str_length_app.
        repeat split; try assumption; lia.
    + rewrite (scan_lit url_pattern _ _ Hm) in Hin. simpl in Hin.
      assert (Hl : String.length text <= n) by (simpl in Hlen; lia).
      destruct (IH _ _ _ _ _ Hl Hin) as (b & a & Hr & Hst & He & H1 & H2 & H3).
      exists (String c b), a. rewrite Hr. simpl.
      repeat split; try assumption; lia.
Qed.

(** X3.  [find_urls]: every triple [(url, start, end)] it yields is a
    piece of the text: [start] characters come before the URL, [end] is
    [start] plus the length of the URL, the URL begins with [http://] or
    [https://] and a character that is not white space, holds no white
    space, and is followed by white space or by the end of the text. *)
Theorem find_urls_spans (text url : string) (start end_ : nat) :
  In (url, start, end_) (ClickableTextEdit.find_urls text) ->
  exists before after,
    text = before ++ url ++ after
    /\ start = String.length before
    /\ end_ = start + String.length url
    /\ url_token_at url = true
    /\ all_chars non_space url = true
    /\ first_non_space after = false.
Proof.
  intros Hin.
  destruct (spans_decompose (String.length text) text 0 url start end_
              (Nat.le_refl _) Hin) as (b & a & H).
  exists b, a. exact H.
Qed.

Lemma find_urls_spans_witness :
  exists before after,
    "see http://a.b now" = before ++ "http://a.b" ++ after
    /\ 4 = String.length before
    /\ 14 = 4 + String.length "http://a.b"
    /\ url_token_at "http://a.b" = true
    /\ all_chars non_space "http://a.b" = true
    /\ first_non_space after = false.
Proof.
  apply (find_urls_spans "see http://a.b now" "http://a.b" 4 14).
  vm_compute. left. reflexivity.
Defined.

(** The spans of a scan begin at or after the position of the scan, one
    position later when the text begins with white space. *)
Lemma spans_lower_bound (n : nat) : forall text pos url start end_,
  String.length text <= n ->
  In (url, start, end_) (ClickableTextEdit.spans pos (Re.scan url_pattern text)) ->
  pos <= start /\ (first_non_space text = false -> pos < start).
Proof.
  intros text pos url start end_ Hlen Hin.
  destruct (spans_decompose n _ _ _ _ _ Hlen Hin)
    as (b & a & Ht & Hst & _ & Htok & _ & _).
  split; [lia|]. intros Hsp.
  destruct b as [|c b]; [|simpl in Hst; lia].
  simpl in Ht. subst text.
  destruct (url_token_starts_with_h _ Htok) as (r & ->).
  simpl in Hsp. discriminate.
Qed.

(** The spans of a scan, from left to right: each one ends before the
    next one begins. *)
Lemma spans_separated (n : nat) : forall text pos,
  String.length text <= n ->
  forall l1 l2 l3 u1 s1 e1 u2 s2 e2,
    ClickableTextEdit.spans pos (Re.scan url_pattern text)
    = (l1 ++ (u1, s1, e1) :: l2 ++ (u2, s2, e2) :: l3)%list ->
    e1 < s2.
Proof.
  induction n as [|n IH]; intros text pos Hlen l1 l2 l3 u1 s1 e1 u2 s2 e2 Heq.
  - destruct text; [|simpl in Hlen; lia]. now destruct l1.
  - destruct text as [|c text]; [now destruct l1|].
    destruct (url_pattern (String c text)) as [[u rest]|] eqn:Hm.
    + rewrite (scan_url_hit _ _ _ Hm) in Heq.
      destruct (url_pattern_match _ _ _ Hm) as (Hs & Hne & _ & _ & Hrest).
      assert (Hl : String.length rest <= n).
      { apply (f_equal String.length) in Hs. rewrite str_length_app in Hs.
        simpl in Hs, Hlen. destruct u; [contradiction | simpl in Hs; lia]. }
      simpl in Heq. destruct l1 as [|x l1].
      * simpl in Heq. injection Heq as <- <- <- Htl.
        assert (Hin : In (u2, s2, e2)
                         (ClickableTextEdit.spans (pos + String.length u)
                            (Re.scan url_pattern rest))).
        { rewrite Htl. apply in_or_app. right. now left. }
        apply (spans_lower_bound n) in Hin as [_ Hlt]; [|exact Hl].
        now apply Hlt.
      * simpl in Heq. injection Heq as _ Htl.
        exact (IH _ _ Hl _ _ _ _ _ _ _ _ _ Htl).
    + rewrite (scan_lit url_pattern _ _ Hm) in Heq. simpl in Heq.
      assert (Hl : String.length text <= n) by (simpl in Hlen; lia).
      exact (IH _ _ Hl _ _ _ _ _ _ _ _ _ Heq).
Qed.

Lemma find_urls_separated_aux (text : string) :
  forall l1 l2 l3 u1 s1 e1 u2 s2 e2,
    ClickableTextEdit.find_urls text
    = (l1 ++ (u1, s1, e1) :: l2 ++ (u2, s2, e2) :: l3)%list ->
    e1 < s2.
Proof. apply (spans_separated (String.length text)). apply Nat.le_refl. Qed.

(** X4.  [find_urls]: the spans come from left to right and never touch:
    a span yielded earlier ends strictly before a later one begins. *)
Theorem find_urls_separated (text : string)
    (l1 l2 l3 : list (string * nat * nat))
    (u1 u2 : string) (s1 e1 s2 e2 : nat) :
  ClickableTextEdit.find_urls text
  = (l1 ++ (u1, s1, e1) :: l2 ++ (u2, s2, e2) :: l3)%list ->
  e1 < s2.
Proof. apply (spans_separated (String.length text)). apply Nat.le_refl. Qed.

Lemma find_urls_separated_witness :
  ClickableTextEdit.find_urls "http://a https://b"
  = [("http://a", 0, 8); ("https://b", 9, 18)]
  /\ 8 < 9.
Proof.
  split; [vm_compute; reflexivity|].
  apply (find_urls_separated "http://a https://b" [] [] []
           "http://a" "https://b" 0 8 9 18).
  vm_compute. reflexivity.
Defined.

(** ** A click in the conversation *)

Lemma clicked_url_Some (pos : nat) (urls : list (string * nat * nat)) (url : string) :
  ClickableTextEdit.clicked_url pos urls = Some url ->
  exists start end_, In (url, start, end_) urls /\ start <= pos <= end_.
Proof.
  induction urls as [|[[u s] e] urls IH]; simpl; [discriminate|].
  destruct ((s <=? pos)%nat && (pos <=? e)%nat) eqn:Hin.
  - intros [= <-]. apply andb_true_iff in Hin as [H1 H2].
    apply Nat.leb_le in H1, H2. exists s, e. auto.
  - intros H. destruct (IH H) as (s' & e' & Hi & Hr). exists s', e'. auto.
Qed.

Lemma clicked_url_None (pos : nat) (urls : list (string * nat * nat)) :
  ClickableTextEdit.clicked_url pos urls = None ->
  forall url start end_, In (url, start, end_) urls -> ~ (start <= pos <= end_).
Proof.
  induction urls as [|[[u s] e] urls IH]; simpl; [intros _ ? ? ? []|].
  destruct ((s <=? pos)%nat && (pos <=? e)%nat) eqn:Hin; [discriminate|].
  intros H url start end_ [[= <- <- <-] | Hi].
  - intros [H1 H2]. apply Nat.leb_le in H1, H2. rewrite H1, H2 in Hin. discriminate.
  - exact (IH H _ _ _ Hi).
Qed.

(** Where no two spans touch, the click is in one span at most. *)
Lemma clicked_url_separated (pos : nat) (urls : list (string * nat * nat)) :
  (forall l1 l2 l3 u1 s1 e1 u2 s2 e2,
     urls = (l1 ++ (u1, s1, e1) :: l2 ++ (u2, s2, e2) :: l3)%list -> e1 < s2) ->
  forall url start end_,
    In (url, start, end_) urls -> start <= pos <= end_ ->
    ClickableTextEdit.clicked_url pos urls = Some url.
Proof.
  induction urls as [|[[u s] e] urls IH]; intros Hsep url start end_ Hin Hpos;
    [contradiction|].
  simpl. destruct ((s <=? pos)%nat && (pos <=? e)%nat) eqn:Hhead.
  - destruct Hin as [[= <- <- <-] | Hin]; [reflexivity|].
    apply andb_true_iff in Hhead as [H1 H2]. apply Nat.leb_le in H1, H2.
    destruct (in_split _ _ Hin) as (l2 & l3 & ->).
    specialize (Hsep [] l2 l3 u s e url start end_ eq_refl). lia.
  - destruct Hin as [[= <- <- <-] | Hin].
    + destruct Hpos as [H1 H2]. apply Nat.leb_le in H1, H2.
      rewrite H1, H2 in Hhead. discriminate.
    + apply (IH (fun l1 l2 l3 u1 s1 e1 u2 s2 e2 Heq =>
                   Hsep ((u, s, e) :: l1) l2 l3 u1 s1 e1 u2 s2 e2
                        (f_equal (cons (u, s, e)) Heq))
                url start end_ Hin Hpos).
Qed.

(** [open_file] opens no URL and never runs the handler of the base
    class. *)
Lemma open_file_effects (platform file_path : string) (e : ClickableTextEdit.effect) :
  In e (ClickableTextEdit.open_file platform file_path) ->
  (forall url, e <> ClickableTextEdit.OpenUrl url)
  /\ e <> ClickableTextEdit.SuperMousePressEvent.
Proof.
  unfold ClickableTextEdit.open_file.
  destruct (startswith "linux" platform);
    [intros [<- | []]; split; [intros ?|]; discriminate|].
  destruct (startswith "win32" platform);
    [intros [<- | []]; split; [intros ?|]; discriminate|].
  destruct (startswith "darwin" platform);
    [intros [<- | []]; split; [intros ?|]; discriminate|].
  intros [].
Qed.

(** X5.  [ClickableTextEdit.mousePressEvent]: the click opens a URL
    exactly when its position lies in the span of that URL in the text,
    both ends of the span included; and the handler of the base class runs
    exactly when no URL was opened. *)
Theorem mousePressEvent_opens_clicked_url
    (platform : string) (text_to_url_map : gmap string url_entry)
    (pos : nat) (text line_text : string) :
  let effects :=
    ClickableTextEdit.mousePressEvent platform text_to_url_map pos text line_text in
  (forall url,
     In (ClickableTextEdit.OpenUrl url) effects
     <-> exists start end_,
           In (url, start, end_) (ClickableTextEdit.find_urls text)
           /\ start <= pos <= end_)
  /\ (In ClickableTextEdit.SuperMousePressEvent effects
      <-> forall url, ~ In (ClickableTextEdit.OpenUrl url) effects).
Proof.
  cbv zeta. unfold ClickableTextEdit.mousePressEvent.
  set (opened := match text_to_url_map !! strip_ws line_text with
                 | Some entry => ClickableTextEdit.open_file platform (path entry)
                 | None => []
                 end).
  assert (Hopened : forall e, In e opened ->
            (forall url, e <> ClickableTextEdit.OpenUrl url)
            /\ e <> ClickableTextEdit.SuperMousePressEvent).
  { intros e. subst opened. destruct (text_to_url_map !! strip_ws line_text).
    - apply open_file_effects.
    - intros []. }
  destruct (ClickableTextEdit.clicked_url pos (ClickableTextEdit.find_urls text))
    as [u|] eqn:Hclick.
  - split.
    + intros url. split.
      * intros Hin. apply in_app_or in Hin as [Hin | [[= <-] | []]].
        -- apply Hopened in Hin as [Hin _]. now contradiction (Hin url).
        -- now apply clicked_url_Some.
      * intros (start & end_ & Hin & Hpos).
        apply in_or_app. right. left. f_equal.
        pose proof (clicked_url_separated pos _ (find_urls_separated_aux text)
                      url start end_ Hin Hpos) as Hu.
        congruence.
    + split.
      * intros Hin. apply in_app_or in Hin as [Hin | [[=] | []]].
        apply Hopened in Hin as [_ Hin]. contradiction.
      * intros Hno. exfalso. apply (Hno u). apply in_or_app. right. now left.
  - split.
    + intros url. split.
      * intros Hin. apply in_app_or in Hin as [Hin | [[=] | []]].
        apply Hopened in Hin as [Hin _]. now contradiction (Hin url).
      * intros (start & end_ & Hin & Hpos).
        now destruct (clicked_url_None _ _ Hclick _ _ _ Hin).
    + split.
      * intros _ url Hin. apply in_app_or in Hin as [Hin | [[=] | []]].
        apply Hopened in Hin as [Hin _]. now contradiction (Hin url).
      * intros _. apply in_or_app. right. now left.
Qed.

(** ** [str.strip] and the keys of the citation map *)

Lemma rstrip_ws_idem (s : string) : rstrip_ws (rstrip_ws s) = rstrip_ws s.
Proof.
  induction s as [|a s IH]; [reflexivity|].
  simpl. destruct (rstrip_ws s) as [|c r] eqn:E.
  - destruct (is_space a) eqn:Ha; [reflexivity|].
    simpl. now rewrite Ha.
  - change (rstrip_ws (String a (String c r))) with
      (match rstrip_ws (String c r) with
       | EmptyString => if is_space a then "" else chr a
       | r' => String a r'
       end).
    now rewrite IH.
Qed.

Lemma lstrip_ws_head (s : string) :
  lstrip_ws s = ""
  \/ exists c r, lstrip_ws s = String c r /\ is_space c = false.
Proof.
  induction s as [|a s IH]; [now left|].
  simpl. destruct (is_space a) eqn:Ha; [exact IH|].
  right. eauto.
Qed.

Lemma rstrip_ws_head (c : ascii) (r : string) :
  is_space c = false -> exists r', rstrip_ws (String c r) = String c r'.
Proof.
  intros Hc. simpl. destruct (rstrip_ws r); rewrite ?Hc; eauto.
Qed.

(** [strip] leaves nothing to strip. *)
Lemma strip_ws_idem (s : string) : strip_ws (strip_ws s) = strip_ws s.
Proof.
  unfold strip_ws.
  destruct (lstrip_ws_head s) as [-> | (c & r & -> & Hc)]; [reflexivity|].
  destruct (rstrip_ws_head c r Hc) as (r' & Hr).
  rewrite Hr. simpl lstrip_ws. rewrite Hc, <- Hr.
  apply rstrip_ws_idem.
Qed.

(** X6.  [ClickableTextEdit.mousePressEvent]: the map is looked up at
    [line_text.strip()], so an entry whose key begins or ends with white
    space is never found: with or without it, every click does the same.
    ([format_file_links] stores the label of a marker as it stands, for
    instance with a leading blank.) *)
Theorem spaced_key_never_opened
    (platform : string) (text_to_url_map : gmap string url_entry)
    (key : string) (entry : url_entry) (pos : nat) (text line_text : string) :
  strip_ws key <> key ->
  ClickableTextEdit.mousePressEvent platform (<[key := entry]> text_to_url_map)
                                    pos text line_text
  = ClickableTextEdit.mousePressEvent platform text_to_url_map pos text line_text.
Proof.
  intros Hkey. unfold ClickableTextEdit.mousePressEvent.
  rewrite lookup_insert_ne; [reflexivity|].
  intros ->. apply Hkey. apply strip_ws_idem.
Qed.

Lemma spaced_key_never_opened_witness :
  let text := "[ chart]([0])" ++ chr NL ++ "[0] a.png" in
  text_to_url_map (snd (format_file_links init_view text))
  = <[" chart" := {| path := "output/a.png" |}]> ∅
  /\ strip_ws " chart" <> " chart"
  /\ ClickableTextEdit.mousePressEvent "linux"
       (<[" chart" := {| path := "output/a.png" |}]> ∅) 0 " chart" " chart"
     = ClickableTextEdit.mousePressEvent "linux" ∅ 0 " chart" " chart".
Proof.
  split; [vm_compute; reflexivity|].
  split; [discriminate|].
  apply (spaced_key_never_opened "linux" ∅ " chart" {| path := "output/a.png" |}
           0 " chart" " chart").
  discriminate.
Defined.

(** ** The input field *)

(** X7.  [ConversationInputView.keyPressEvent]: a key press hands the
    placeholder text to [on_user_input_complete] exactly when the field
    shows the placeholder, the text of the event is white space (so that
    the placeholder is not cleared first) and the key is Return without
    modifiers or Enter; and whatever is submitted, the field is empty
    afterwards and the event is not passed on to [QTextEdit]. *)
Theorem keyPressEvent_submits_placeholder
    (plain_text : string) (event : ConversationInputView.key_event) :
  let after := ConversationInputView.keyPressEvent plain_text event in
  (In ConversationInputView.PLACEHOLDER_TEXT (ConversationInputView.submitted after)
   <-> plain_text = ConversationInputView.PLACEHOLDER_TEXT
       /\ isspace (ConversationInputView.text event) = true
       /\ (ConversationInputView.key event = ConversationInputView.Key_Return
           /\ ConversationInputView.modifiers event = 0%N
           \/ ConversationInputView.key event = ConversationInputView.Key_Enter))
  /\ (ConversationInputView.submitted after = []
      /\ ConversationInputView.passed_on after = true
      \/ exists user_input,
           ConversationInputView.submitted after = [user_input]
           /\ ConversationInputView.plain_text after = ""
           /\ ConversationInputView.passed_on after = false).
Proof.
  cbv zeta. unfold ConversationInputView.keyPressEvent.
  destruct (String.eqb_spec plain_text ConversationInputView.PLACEHOLDER_TEXT)
    as [Hp | Hp];
  destruct (isspace (ConversationInputView.text event)) eqn:Hsp;
  destruct (N.eqb_spec (ConversationInputView.key event)
                       ConversationInputView.Key_Return) as [Hr | Hr];
  destruct (N.eqb_spec (ConversationInputView.modifiers event) 0) as [Hm | Hm];
  destruct (N.eqb_spec (ConversationInputView.key event)
                       ConversationInputView.Key_Enter) as [He | He];
  cbn [andb negb ConversationInputView.submitted ConversationInputView.passed_on
       ConversationInputView.plain_text];
  (split; [split|]);
  try (intros [H | []]);
  try (intros (H1 & H2 & [[H3 H4] | H3]));
  try (intros []);
  try (left; split; reflexivity);
  try (right; eexists; repeat split; reflexivity);
  try (now left);
  try congruence;
  try discriminate;
  try (repeat split; auto; fail).
Qed.

(** ** Markup characters in what is inserted *)

Lemma count_char_app (c : ascii) (a b : string) :
  count_char c (a ++ b) = count_char c a + count_char c b.
Proof. induction a as [|x a IH]; simpl; [reflexivity | rewrite IH; lia]. Qed.

(** [html.escape] writes none of the characters [<] and [>], and keeps
    the line feeds. *)
Lemma count_lt_escape_char (a : ascii) : count_char "<" (escape_char a) = 0.
Proof. destruct a as [[] [] [] [] [] [] [] []]; reflexivity. Qed.

Lemma count_gt_escape_char (a : ascii) : count_char ">" (escape_char a) = 0.
Proof. destruct a as [[] [] [] [] [] [] [] []]; reflexivity. Qed.

Lemma count_nl_escape_char (a : ascii) :
  count_char NL (escape_char a) = if Ascii.eqb a NL then 1 else 0.
Proof. destruct a as [[] [] [] [] [] [] [] []]; reflexivity. Qed.

Lemma count_lt_html_escape (s : string) : count_char "<" (html_escape s) = 0.
Proof.
  induction s as [|a s IH]; [reflexivity|].
  simpl. now rewrite count_char_app, count_lt_escape_char, IH.
Qed.

Lemma count_gt_html_escape (s : string) : count_char ">" (html_escape s) = 0.
Proof.
  induction s as [|a s IH]; [reflexivity|].
  simpl. now rewrite count_char_app, count_gt_escape_char, IH.
Qed.

Lemma count_nl_html_escape (s : string) :
  count_char NL (html_escape s) = count_char NL s.
Proof.
  induction s as [|a s IH]; [reflexivity|].
  simpl. now rewrite count_char_app, count_nl_escape_char, IH.
Qed.

(** [str.replace]: the occurrences of [old] go, and each brings those of
    [new]. *)
Lemma count_char_replace_char (c old : ascii) (new s : string) :
  count_char c (replace_char old new s)
  = (if Ascii.eqb old c then 0 else count_char c s)
    + count_char old s * count_char c new.
Proof.
  induction s as [|a s IH]; simpl.
  - now destruct (Ascii.eqb old c).
  - rewrite count_char_app, IH.
    destruct (Ascii.eqb_spec a old) as [-> | Hao].
    + destruct (Ascii.eqb_spec old c) as [-> | Hoc].
      * lia.
      * lia.
    + destruct (Ascii.eqb_spec old c) as [<- | Hoc].
      * simpl. apply Ascii.eqb_neq in Hao. rewrite Hao. lia.
      * simpl. destruct (Ascii.eqb a c); lia.
Qed.

(** X8.  [append_message_chunk]: whatever the sender and the chunk hold,
    each piece of HTML the call inserts has exactly two [<] and two [>],
    those of its own tag: the text of the chunk opens or closes no tag. *)
Theorem append_message_chunk_no_markup
    (doc : document) (sender message_chunk : string) (is_start_of_message : bool) :
  exists added : document,
    append_message_chunk doc sender message_chunk is_start_of_message
    = (doc ++ added)%list
    /\ Forall (fun i => exists html,
                 i = InsertHtml html
                 /\ count_char "<" html = 2 /\ count_char ">" html = 2) added.
Proof.
  assert (Hlabel : count_char "<" (sender_label sender) = 2
                   /\ count_char ">" (sender_label sender) = 2).
  { unfold sender_label.
    rewrite !count_char_app, count_lt_html_escape, count_gt_html_escape.
    split; reflexivity. }
  assert (Hblock : count_char "<" (text_block (html_escape message_chunk)) = 2
                   /\ count_char ">" (text_block (html_escape message_chunk)) = 2).
  { unfold text_block.
    rewrite !count_char_app, count_lt_html_escape, count_gt_html_escape.
    split; reflexivity. }
  unfold append_message_chunk. destruct is_start_of_message.
  - exists [InsertHtml (sender_label sender);
            InsertHtml (text_block (html_escape message_chunk))].
    split; [now rewrite <- app_assoc|].
    repeat constructor; eexists; (split; [reflexivity|]); assumption.
  - exists [InsertHtml (text_block (html_escape message_chunk))].
    split; [reflexivity|].
    repeat constructor; eexists; (split; [reflexivity|]); assumption.
Qed.

(** ** [append_message] *)

(** X9.  [append_message], a code segment: the block inserted for it
    has no line feed, and its [<] and [>] are those of the [pre] tag and
    one of each for every line feed of the code, which became [<br>]: the
    code opens or closes no tag of its own. *)
Theorem append_segment_code (doc : document) (self : view) (text : string) :
  exists html,
    Display.append_segment (doc, self) (true, text)
    = ((doc ++ [InsertHtml html; InsertText (chr NL)])%list, self)
    /\ count_char NL html = 0
    /\ count_char "<" html = 2 + count_char NL text
    /\ count_char ">" html = 2 + count_char NL text.
Proof.
  exists (Display.code_block (Display.escaped_code text)).
  split; [reflexivity|].
  unfold Display.code_block, Display.escaped_code.
  rewrite !count_char_app, !count_char_replace_char.
  rewrite count_lt_html_escape, count_gt_html_escape, count_nl_html_escape.
  cbn. repeat split; lia.
Qed.

Lemma format_file_links_file_path (self : view) (text : string) :
  file_path (snd (format_file_links self text)) = file_path self.
Proof. rewrite format_file_links_view. apply resolve_all_file_path. Qed.

(** The loop of [append_message]: one block and one line feed for each
    segment. *)
Lemma append_segments_layout (segments : list (bool * string)) :
  forall (doc : document) (self : view),
  exists blocks : list string,
    length blocks = length segments
    /\ fst (fold_left Display.append_segment segments (doc, self))
       = (doc ++ flat_map (fun html => [InsertHtml html; InsertText (chr NL)]) blocks)%list
    /\ file_path (snd (fold_left Display.append_segment segments (doc, self)))
       = file_path self.
Proof.
  induction segments as [|[is_code text] segments IH]; intros doc self.
  - exists []. simpl. now rewrite app_nil_r.
  - cbn [fold_left].
    assert (Hstep : exists html self',
               Display.append_segment (doc, self) (is_code, text)
               = ((doc ++ [InsertHtml html; InsertText (chr NL)])%list, self')
               /\ file_path self' = file_path self).
    { unfold Display.append_segment. destruct is_code.
      - eexists _, self. split; reflexivity.
      - pose proof (format_file_links_file_path self text) as Hfp.
        destruct (format_file_links self text) as [text' self'].
        eexists _, self'. split; [reflexivity | exact Hfp]. }
    destruct Hstep as (html & self' & -> & Hfp).
    destruct (IH (doc ++ [InsertHtml html; InsertText (chr NL)])%list self')
      as (blocks & Hlen & Hdoc & Hpath).
    exists (html :: blocks). cbn [length flat_map].
    split; [now f_equal|]. split.
    + etransitivity; [exact Hdoc|]. now rewrite <- app_assoc.
    + etransitivity; [exact Hpath | exact Hfp].
Qed.

Lemma parse_message_length (message : string) :
  length (parse_message message) = length (split "```" message)
  /\ parse_message message <> [].
Proof.
  unfold parse_message. rewrite parse_parts_imap. simpl.
  rewrite length_imap. split; [reflexivity|].
  pose proof (split_from_nonempty "```" ltac:(discriminate)
                (String.length message) message "" (Nat.le_refl _)) as Hne.
  fold (split "```" message) in Hne.
  destruct (split "```" message); [contradiction | discriminate].
Qed.

Lemma append_message_file_path
    (self : view) (doc : document) (sender message color : string) :
  file_path (snd (Display.append_message self doc sender message color))
  = file_path self.
Proof.
  unfold Display.append_message.
  destruct (append_segments_layout (parse_message message)
              (doc ++ [InsertHtml (Display.sender_html color sender)])%list self)
    as (_ & _ & _ & Hpath).
  now destruct (fold_left Display.append_segment _ _).
Qed.

(** X10.  [append_message]: the call adds, after what the document
    holds, the name of the sender, then for every segment of the message
    one piece of HTML followed by a line feed, then one more line feed;
    there is at least one segment, so at least four insertions; the
    [file_path] of the view is unchanged. *)
Theorem append_message_layout
    (self : view) (doc : document) (sender message color : string) :
  exists blocks : list string,
    length blocks = length (parse_message message)
    /\ blocks <> []
    /\ fst (Display.append_message self doc sender message color)
       = (doc ++ InsertHtml (Display.sender_html color sender)
              :: flat_map (fun html => [InsertHtml html; InsertText (chr NL)]) blocks
              ++ [InsertText (chr NL)])%list
    /\ file_path (snd (Display.append_message self doc sender message color))
       = file_path self.
Proof.
  unfold Display.append_message.
  destruct (append_segments_layout (parse_message message)
              (doc ++ [InsertHtml (Display.sender_html color sender)])%list self)
    as (blocks & Hlen & Hdoc & Hpath).
  destruct (fold_left Display.append_segment _ _) as [doc' self'].
  simpl in Hdoc, Hpath. exists blocks.
  split; [exact Hlen|]. split.
  - destruct (parse_message_length message) as [_ Hne].
    intros ->. destruct (parse_message message); [contradiction | discriminate].
  - simpl. rewrite Hdoc, Hpath. split; [|reflexivity].
    now rewrite <- !app_assoc.
Qed.

(** A text without the separator is one part. *)
Lemma split_from_no_fence (sep : string) : forall s cur,
  contains sep s = false -> split_from sep 0 cur s = [cur ++ s].
Proof.
  induction s as [|c s IH]; intros cur H.
  - simpl. now rewrite str_app_nil_r.
  - simpl in H. apply orb_false_iff in H as [Hst Hc].
    simpl. rewrite Hst. rewrite (IH _ Hc). now rewrite str_app_snoc.
Qed.

(** A pattern that matches nowhere leaves the text and the state as they
    are. *)
Lemma sub_with_no_match {M St : Type} (matcher : string -> option (M * string))
    (repl : M -> St -> option string * St) (st : St) : forall s,
  (forall a b, s = a ++ b -> matcher b = None) ->
  Re.sub_with matcher repl s st = (s, st).
Proof.
  induction s as [|c s IH]; intros H; [reflexivity|].
  unfold Re.sub_with. rewrite (scan_lit matcher c s (H "" _ eq_refl)).
  simpl. fold (Re.sub_with matcher repl s st).
  rewrite IH; [reflexivity|].
  intros a b ->. exact (H (String c a) b eq_refl).
Qed.

Lemma findall_no_match {M : Type} (matcher : string -> option (M * string)) :
  forall s, (forall a b, s = a ++ b -> matcher b = None) ->
            Re.findall matcher s = [].
Proof.
  induction s as [|c s IH]; intros H; [reflexivity|].
  unfold Re.findall. rewrite (scan_lit matcher c s (H "" _ eq_refl)).
  simpl. apply IH. intros a b ->. exact (H (String c a) b eq_refl).
Qed.

Lemma lit_bracket_None {R : Type} (k : string -> option R) (s a b : string) :
  contains "[" s = false -> s = a ++ b -> Re.lit "[" k b = None.
Proof.
  intros H ->. apply contains_false_app_r in H.
  destruct b as [|c b]; [reflexivity|].
  destruct (Ascii.eqb_spec "["%char c) as [<- | Hne].
  - discriminate H.
  - now apply lit_mismatch.
Qed.

(** The three patterns of [format_file_links] begin with a bracket. *)
Lemma format_file_links_no_bracket (self : view) (text : string) :
  contains "[" text = false -> format_file_links self text = (text, self).
Proof.
  intros H. unfold format_file_links.
  rewrite sub_with_no_match
    by (intros a b Hab; exact (lit_bracket_None _ _ _ _ H Hab)).
  unfold Re.sub. rewrite sub_with_no_match
    by (intros a b Hab; exact (lit_bracket_None _ _ _ _ H Hab)).
  reflexivity.
Qed.

(** X11.  [append_message], plain prose: a message with no fence, no
    opening bracket and no URL token is inserted as it stands, not
    escaped, in one text block, and the citation map is unchanged. *)
Theorem append_message_plain_prose
    (self : view) (doc : document) (sender message color : string) :
  contains "```" message = false ->
  contains "[" message = false ->
  has_url message = false ->
  Display.append_message self doc sender message color
  = ((doc ++ [InsertHtml (Display.sender_html color sender);
              InsertHtml (text_block message);
              InsertText (chr NL); InsertText (chr NL)])%list,
     self).
Proof.
  intros Hfence Hbracket Hurl.
  assert (Hpm : parse_message message = [(false, message)]).
  { unfold parse_message, split. now rewrite (split_from_no_fence _ _ _ Hfence). }
  unfold Display.append_message. rewrite Hpm.
  cbn [fold_left]. unfold Display.append_segment.
  rewrite (format_file_links_no_bracket _ _ Hbracket).
  rewrite (format_urls_no_url _ Hurl).
  now rewrite <- !app_assoc.
Qed.

Lemma append_message_plain_prose_witness :
  Display.append_message init_view [] "user" "1 < 2, <b>really</b>" "blue"
  = ([InsertHtml "<b style='color:blue;'>user:</b> ";
      InsertHtml (text_block "1 < 2, <b>really</b>");
      InsertText (chr NL); InsertText (chr NL)],
     init_view).
Proof.
  apply (append_message_plain_prose init_view [] "user" "1 < 2, <b>really</b>" "blue");
    reflexivity.
Defined.

(** ** [append_image] *)

(** No digit of base64 is a quote or an angle bracket. *)
Lemma b64_digit_plain (n : nat) :
  Ascii.eqb (b64_digit n) SQ = false
  /\ Ascii.eqb (b64_digit n) "<" = false
  /\ Ascii.eqb (b64_digit n) ">" = false.
Proof.
  do 64 (destruct n as [|n]; [repeat split; reflexivity|]).
  repeat split; reflexivity.
Qed.

Lemma b64encode_plain (n : nat) : forall data,
  String.length data <= n ->
  count_char SQ (b64encode data) = 0
  /\ count_char "<" (b64encode data) = 0
  /\ count_char ">" (b64encode data) = 0
  /\ String.length (b64encode data) = 4 * ((String.length data + 2) / 3).
Proof.
  induction n as [|n IH]; intros data Hlen.
  - destruct data; [repeat split; reflexivity | simpl in Hlen; lia].
  - destruct data as [|a [|b [|c rest]]].
    + repeat split; reflexivity.
    + cbn [b64encode count_char String.length].
      destruct (b64_digit_plain (nat_of_ascii a / 4)) as (-> & -> & ->).
      destruct (b64_digit_plain (nat_of_ascii a mod 4 * 16)) as (-> & -> & ->).
      repeat split; reflexivity.
    + cbn [b64encode count_char String.length].
      destruct (b64_digit_plain (nat_of_ascii a / 4)) as (-> & -> & ->).
      destruct (b64_digit_plain (nat_of_ascii a mod 4 * 16 + nat_of_ascii b / 16))
        as (-> & -> & ->).
      destruct (b64_digit_plain (nat_of_ascii b mod 16 * 4)) as (-> & -> & ->).
      repeat split; reflexivity.
    + assert (Hl : String.length rest <= n) by (simpl in Hlen; lia).
      destruct (IH rest Hl) as (H1 & H2 & H3 & H4).
      cbn [b64encode count_char String.length].
      destruct (b64_digit_plain (nat_of_ascii a / 4)) as (-> & -> & ->).
      destruct (b64_digit_plain (nat_of_ascii a mod 4 * 16 + nat_of_ascii b / 16))
        as (-> & -> & ->).
      destruct (b64_digit_plain (nat_of_ascii b mod 16 * 4 + nat_of_ascii c / 64))
        as (-> & -> & ->).
      destruct (b64_digit_plain (nat_of_ascii c mod 64)) as (-> & -> & ->).
      rewrite H1, H2, H3, H4.
      repeat split; try reflexivity.
      replace (S (S (S (String.length rest))) + 2)
        with (1 * 3 + (String.length rest + 2)) by lia.
      rewrite Nat.div_add_l by discriminate. lia.
Qed.

(** X12.  [append_image]: when the file can be read, the call inserts one
    [img] tag and two line feeds; whatever the bytes of the file, the tag
    holds its own six single quotes and its own pair of angle brackets and
    no other, and after its 80 characters come four characters for every
    three bytes of the file, rounded up. *)
Theorem append_image_markup (read_bytes : string -> option string)
    (doc : document) (image_path assistant_name data : string) :
  read_bytes image_path = Some data ->
  exists html,
    Display.append_image read_bytes doc image_path assistant_name
    = Some (doc ++ [InsertHtml html; InsertText (chr NL ++ chr NL)])%list
    /\ count_char SQ html = 6
    /\ count_char "<" html = 1
    /\ count_char ">" html = 1
    /\ String.length html = 80 + 4 * ((String.length data + 2) / 3).
Proof.
  intros Hread. exists (Display.image_html (b64encode data)).
  unfold Display.append_image, Display.convert_image_to_base64. rewrite Hread.
  split; [reflexivity|].
  destruct (b64encode_plain (String.length data) data (Nat.le_refl _))
    as (H1 & H2 & H3 & H4).
  unfold Display.image_html.
  rewrite !count_char_app, !str_length_app, H1, H2, H3, H4.
  repeat split; try reflexivity.
  change (String.length "<img src='data:image/png;base64,") with 32.
  change (String.length "' alt='Image' style='width:100px; height:auto;'>") with 48.
  lia.
Qed.

Lemma append_image_markup_witness :
  exists html,
    Display.append_image (fun _ => Some "'><") [] "output/a.png" "assistant"
    = Some [InsertHtml html; InsertText (chr NL ++ chr NL)]
    /\ count_char SQ html = 6
    /\ count_char "<" html = 1
    /\ count_char ">" html = 1
    /\ String.length html = 80 + 4 * ((String.length "'><" + 2) / 3).
Proof.
  apply (append_image_markup (fun _ => Some "'><") [] "output/a.png" "assistant" "'><").
  reflexivity.
Defined.

(** ** [append_messages] *)

Section AppendMessages.
Variable retrieve_image : Display.message -> string -> string.
Variable read_bytes : string -> option string.
Variable app : option nat.

Lemma append_one_same (r1 r2 : Display.rendering) (m : Display.message) :
  Display.same_display r1 r2 ->
  Display.same_display (Display.append_one retrieve_image read_bytes app r1 m)
                       (Display.append_one retrieve_image read_bytes app r2 m).
Proof.
  intros (Hs & Hv & Hr). unfold Display.same_display, Display.append_one.
  rewrite Hr.
  destruct (Display.raised r2) eqn:Hr2; [repeat split; congruence|].
  rewrite Hs, Hv.
  destruct (String.eqb (Display.type m) "text").
  { destruct (Display.append_message _ _ _ _ _). repeat split. }
  destruct (String.eqb (Display.type m) "file"); [repeat split|].
  destruct (String.eqb (Display.type m) "image_file");
    [|repeat split; congruence].
  destruct (Display.append_image _ _ _ _); repeat split.
Qed.

Lemma append_one_not_displayed (r : Display.rendering) (m : Display.message) :
  String.eqb (Display.type m) "text" || String.eqb (Display.type m) "image_file"
  = false ->
  Display.same_display r (Display.append_one retrieve_image read_bytes app r m).
Proof.
  intros H. apply orb_false_iff in H as [H1 H2].
  unfold Display.same_display, Display.append_one. rewrite H1, H2.
  destruct (Display.raised r) eqn:Hr; [repeat split; congruence|].
  destruct (String.eqb (Display.type m) "file"); repeat split; simpl; congruence.
Qed.

Lemma fold_append_one_filter (messages : list Display.message) :
  forall r1 r2, Display.same_display r1 r2 ->
    Display.same_display
      (fold_left (Display.append_one retrieve_image read_bytes app)
         (List.filter (fun m => String.eqb (Display.type m) "text"
                           || String.eqb (Display.type m) "image_file") messages) r1)
      (fold_left (Display.append_one retrieve_image read_bytes app) messages r2).
Proof.
  induction messages as [|m messages IH]; intros r1 r2 Hsame; [exact Hsame|].
  cbn [List.filter fold_left].
  destruct (String.eqb (Display.type m) "text"
            || String.eqb (Display.type m) "image_file") eqn:Hd.
  - cbn [fold_left]. apply IH. now apply append_one_same.
  - apply IH. destruct Hsame as (Hs & Hv & Hr).
    destruct (append_one_not_displayed r2 m Hd) as (Hs' & Hv' & Hr').
    repeat split; congruence.
Qed.

(** X13.  [append_messages]: a message of type [file], or of a type the
    loop does not know, is not shown: without these messages the
    document, the citation map and the exception raised are the same. *)
Theorem append_messages_skips_files
    (self : view) (doc : document) (messages : list Display.message) :
  Display.same_display
    (Display.append_messages retrieve_image read_bytes app self doc
       (List.filter (fun m => String.eqb (Display.type m) "text"
                         || String.eqb (Display.type m) "image_file") messages))
    (Display.append_messages retrieve_image read_bytes app self doc messages).
Proof.
  unfold Display.append_messages.
  rewrite <- List.filter_rev.
  apply fold_append_one_filter. repeat split.
Qed.

(** Once [open] has raised, the loop is over. *)
Lemma fold_append_one_raised (messages : list Display.message) :
  forall r, Display.raised r = true -> fold_left (Display.append_one retrieve_image read_bytes app) messages r = r.
Proof.
  induction messages as [|m messages IH]; intros r Hr; [reflexivity|].
  cbn [fold_left]. unfold Display.append_one at 2. rewrite Hr. now apply IH.
Qed.

Lemma append_one_file_path (r : Display.rendering) (m : Display.message) :
  file_path (Display.self_after (Display.append_one retrieve_image read_bytes app r m)) = file_path (Display.self_after r).
Proof.
  unfold Display.append_one.
  destruct (Display.raised r); [reflexivity|].
  destruct (String.eqb (Display.type m) "text").
  { pose proof (append_message_file_path (Display.self_after r) (Display.shown r)
                  (Display.sender m) (Display.content m)
                  (Display.color_of (Display.is_dark_mode app) (Display.role m)))
      as Hp.
    now destruct (Display.append_message _ _ _ _ _). }
  destruct (String.eqb (Display.type m) "file"); [reflexivity|].
  destruct (String.eqb (Display.type m) "image_file"); [|reflexivity].
  destruct (Display.append_image _ _ _ _); reflexivity.
Qed.

Lemma fold_append_one_file_path (messages : list Display.message) :
  forall r, file_path (Display.self_after (fold_left (Display.append_one retrieve_image read_bytes app) messages r))
            = file_path (Display.self_after r).
Proof.
  induction messages as [|m messages IH]; intros r; [reflexivity|].
  cbn [fold_left]. rewrite IH. apply append_one_file_path.
Qed.

(** X14.  [append_messages], an image that cannot be read: the messages
    are taken from the last one back, so when [open] raises for the image
    [m], what is shown is what the messages after [m] in the list gave;
    the messages before [m] are never shown. *)
Theorem append_messages_unreadable_image
    (self : view) (doc : document)
    (before after : list Display.message) (m : Display.message) :
  Display.type m = "image_file" ->
  read_bytes (retrieve_image m (file_path self)) = None ->
  Display.raised (Display.append_messages retrieve_image read_bytes app self doc after) = false ->
  let r := Display.append_messages retrieve_image read_bytes app self doc (before ++ m :: after)%list in
  Display.raised r = true
  /\ Display.shown r = Display.shown (Display.append_messages retrieve_image read_bytes app self doc after)
  /\ Display.self_after r = Display.self_after (Display.append_messages retrieve_image read_bytes app self doc after).
Proof.
  intros Htype Hread Hok. cbv zeta.
  unfold Display.append_messages in *.
  set (r0 := {| Display.shown := doc;
                Display.self_after := {| file_path := file_path self;
                                         text_to_url_map := ∅ |};
                Display.retrieved := []; Display.raised := false |}) in *.
  rewrite rev_app_distr. cbn [rev]. rewrite <- app_assoc. cbn [List.app].
  rewrite fold_left_app. cbn [fold_left].
  set (r1 := fold_left (Display.append_one retrieve_image read_bytes app) (rev after) r0) in *.
  assert (Hone : Display.raised (Display.append_one retrieve_image read_bytes app r1 m) = true
                 /\ Display.shown (Display.append_one retrieve_image read_bytes app r1 m) = Display.shown r1
                 /\ Display.self_after (Display.append_one retrieve_image read_bytes app r1 m) = Display.self_after r1).
  { unfold Display.append_one. rewrite Hok, Htype. cbn [String.eqb Ascii.eqb Bool.eqb].
    unfold Display.append_image, Display.convert_image_to_base64.
    replace (file_path (Display.self_after r1)) with (file_path self)
      by (symmetry; apply (fold_append_one_file_path (rev after) r0)).
    rewrite Hread. repeat split. }
  destruct Hone as (Hr & Hs & Hv).
  rewrite (fold_append_one_raised _ _ Hr). auto.
Qed.

End AppendMessages.

Lemma append_messages_unreadable_image_witness :
  let retrieve_image := fun (_ : Display.message) (dir : string) => dir ++ "/image.png" in
  let read_bytes := fun _ : string => @None string in
  let text := {| Display.type := "text"; Display.role := "user";
                 Display.sender := "user"; Display.content := "hello" |} in
  let image := {| Display.type := "image_file"; Display.role := "";
                  Display.sender := "assistant"; Display.content := "" |} in
  let r := Display.append_messages retrieve_image read_bytes None init_view []
                                   [text; image] in
  Display.raised r = true
  /\ Display.shown r
     = Display.shown (Display.append_messages retrieve_image read_bytes None
                                              init_view [] [])
  /\ Display.self_after r
     = Display.self_after (Display.append_messages retrieve_image read_bytes None
                                                   init_view [] []).
Proof.
  cbv zeta.
  apply (append_messages_unreadable_image
           (fun (_ : Display.message) (dir : string) => dir ++ "/image.png")
           (fun _ : string => @None string) None init_view []
           [{| Display.type := "text"; Display.role := "user";
               Display.sender := "user"; Display.content := "hello" |}] []
           {| Display.type := "image_file"; Display.role := "";
              Display.sender := "assistant"; Display.content := "" |});
    reflexivity.
Defined.

(** ** More on the completion rendezvous *)

Lemma step_keeps_set (l : label) (s s' : state) (e : event_ref) :
  step l s = Some s' -> is_set s e = true -> is_set s' e = true.
Proof.
  intros Hstep Hset. destruct l as [| |sid|name|sid|sid]; simpl in Hstep.
  - unfold wait_for_all_tasks_call in Hstep.
    destruct (waiter s); try discriminate; now injection Hstep as <-.
  - unfold wait_for_all_tasks_step in Hstep.
    destruct (waiter s) as [| | | | |i|i ev|]; try discriminate.
    + destruct (condition s); try discriminate. now injection Hstep as <-.
    + destruct (task_started s); now injection Hstep as <-.
    + destruct (condition s); try discriminate. now injection Hstep as <-.
    + destruct (task_completion_events s !! i) as [[? ?]|]; now injection Hstep as <-.
    + destruct (is_set s ev); try discriminate. now injection Hstep as <-.
  - unfold on_task_started_enter in Hstep.
    destruct (condition s); try discriminate. injection Hstep as <-.
    unfold is_set in *. simpl.
    destruct (events s !! e) as [flag|] eqn:E; [|discriminate].
    now rewrite (lookup_app_l_Some _ _ _ _ E).
  - unfold on_task_started_exit in Hstep.
    destruct (condition s); try discriminate. now injection Hstep as <-.
  - unfold on_task_completed in Hstep.
    destruct (dict_get sid (task_completion_events s)) as [e0|]; simpl in Hstep;
      injection Hstep as <-; [|exact Hset].
    unfold is_set at 1. simpl. now apply is_set_after_set.
  - unfold on_task_failed in Hstep.
    destruct (dict_get sid (task_completion_events s)) as [e0|]; simpl in Hstep;
      injection Hstep as <-; [|exact Hset].
    unfold is_set at 1. simpl. now apply is_set_after_set.
Qed.

(** X15.  the Events of [task_completion_events]: no callback clears an
    Event, so along every execution an Event that is set stays set. *)
Theorem events_stay_set (sched : list label) :
  forall (s s' : state) (e : event_ref),
    run sched s = Some s' -> is_set s e = true -> is_set s' e = true.
Proof.
  induction sched as [|l sched IH]; intros s s' e Hrun Hset; simpl in Hrun.
  - now injection Hrun as <-.
  - destruct (step l s) as [s1|] eqn:Hstep; [|discriminate].
    apply (IH s1 s' e Hrun). exact (step_keeps_set l s s1 e Hstep Hset).
Qed.

Lemma events_stay_set_witness :
  let s := {| task_completion_events := [(0, 0)]; events := [true];
              task_started := false; thread_name := Some "thread";
              condition := Unlocked; waiter := Idle |} in
  exists s', run [TaskStarted 0; ThreadCreated "other"; TaskFailed 0] s = Some s'
             /\ is_set s' 0 = true.
Proof.
  cbv zeta. eexists. split; [reflexivity|].
  apply (events_stay_set [TaskStarted 0; ThreadCreated "other"; TaskFailed 0]
           {| task_completion_events := [(0, 0)]; events := [true];
              task_started := false; thread_name := Some "thread";
              condition := Unlocked; waiter := Idle |} _ 0);
    reflexivity.
Defined.

(** While [task_started] is false a call of [wait_for_all_tasks] does not
    get past [condition.wait()]. *)
Lemma step_keeps_waiting (l : label) (s s' : state) :
  (forall sid, l <> TaskStarted sid) ->
  task_started s = false ->
  waiter s = Acquiring \/ waiter s = Checking \/ waiter s = Waiting ->
  step l s = Some s' ->
  task_started s' = false
  /\ (waiter s' = Acquiring \/ waiter s' = Checking \/ waiter s' = Waiting).
Proof.
  intros Hl Hts Hpc Hstep. destruct l as [| |sid|name|sid|sid]; simpl in Hstep.
  - unfold wait_for_all_tasks_call in Hstep.
    destruct Hpc as [Hpc | [Hpc | Hpc]]; rewrite Hpc in Hstep; discriminate.
  - unfold wait_for_all_tasks_step in Hstep.
    destruct Hpc as [Hpc | [Hpc | Hpc]]; rewrite Hpc in Hstep.
    + destruct (condition s); try discriminate. injection Hstep as <-.
      simpl. auto.
    + rewrite Hts in Hstep. injection Hstep as <-. simpl. auto.
    + discriminate.
  - now contradiction (Hl sid).
  - unfold on_task_started_exit in Hstep.
    destruct (condition s); try discriminate. injection Hstep as <-. simpl. auto.
  - unfold on_task_completed in Hstep.
    destruct (dict_get sid (task_completion_events s)) as [e0|]; simpl in Hstep;
      injection Hstep as <-; simpl; auto.
  - unfold on_task_failed in Hstep.
    destruct (dict_get sid (task_completion_events s)) as [e0|]; simpl in Hstep;
      injection Hstep as <-; simpl; auto.
Qed.

(** X16.  [wait_for_all_tasks] called while [task_started] is false (no
    batch has started yet, or the terminal callback of the last batch has
    already run): whatever happens next, as long as no [on_task_started]
    runs the call does not return and does not reach its [for] loop; it
    is entering the lock, at the [while] test, or in [condition.wait()]. *)
Theorem late_wait_blocks (sched : list label) :
  forall s s' : state,
    task_started s = false ->
    waiter s = Idle \/ waiter s = Returned ->
    Forall (fun l => forall sid, l <> TaskStarted sid) sched ->
    run (CallWait :: sched) s = Some s' ->
    task_started s' = false
    /\ (waiter s' = Acquiring \/ waiter s' = Checking \/ waiter s' = Waiting).
Proof.
  intros s s' Hts Hpc Hno Hrun. simpl in Hrun.
  assert (Hcall : wait_for_all_tasks_call s = Some (set_waiter Acquiring (condition s) s)).
  { unfold wait_for_all_tasks_call. now destruct Hpc as [-> | ->]. }
  rewrite Hcall in Hrun.
  assert (Hgen : forall sched s0 s',
             Forall (fun l => forall sid, l <> TaskStarted sid) sched ->
             task_started s0 = false ->
             waiter s0 = Acquiring \/ waiter s0 = Checking \/ waiter s0 = Waiting ->
             run sched s0 = Some s' ->
             task_started s' = false
             /\ (waiter s' = Acquiring \/ waiter s' = Checking \/ waiter s' = Waiting)).
  { clear. induction sched as [|l sched IH]; intros s0 s' Hno Hts Hpc Hrun;
      simpl in Hrun.
    - injection Hrun as <-. auto.
    - destruct (step l s0) as [s1|] eqn:Hstep; [|discriminate].
      inversion Hno as [|? ? Hl Hrest]; subst.
      destruct (step_keeps_waiting l s0 s1 Hl Hts Hpc Hstep) as [Hts1 Hpc1].
      exact (IH s1 s' Hrest Hts1 Hpc1 Hrun). }
  apply (Hgen sched (set_waiter Acquiring (condition s) s) s' Hno);
    [exact Hts | now left | exact Hrun].
Qed.

Lemma late_wait_blocks_witness :
  let s := {| task_completion_events := [(0, 0)]; events := [true];
              task_started := false; thread_name := Some "thread";
              condition := Unlocked; waiter := Idle |} in
  run [TaskStarted 0; ThreadCreated "thread"; TaskCompleted 0] init = Some s
  /\ is_set s 0 = true
  /\ exists s',
       run [CallWait; WaiterStep; WaiterStep; TaskFailed 0] s = Some s'
       /\ task_started s' = false
       /\ (waiter s' = Acquiring \/ waiter s' = Checking \/ waiter s' = Waiting).
Proof.
  cbv zeta. split; [reflexivity|]. split; [reflexivity|].
  eexists. split; [reflexivity|].
  apply (late_wait_blocks [WaiterStep; WaiterStep; TaskFailed 0]
           {| task_completion_events := [(0, 0)]; events := [true];
              task_started := false; thread_name := Some "thread";
              condition := Unlocked; waiter := Idle |}).
  - reflexivity.
  - left. reflexivity.
  - repeat constructor; discriminate.
  - reflexivity.
Defined.

(** X17.  the [for] loop of [wait_for_all_tasks] runs with the lock held,
    and [on_task_started] needs the lock: in every state an execution
    reaches while the loop runs, [on_task_started] cannot enter, and
    whatever step is taken leaves [task_completion_events] as it is (the
    dictionary does not change while it is iterated). *)
Theorem no_registration_during_loop (sched : list label) (s : state) :
  run sched init = Some s ->
  in_loop (waiter s) = true ->
  (forall sid, step (TaskStarted sid) s = None)
  /\ forall l s', step l s = Some s' ->
                  task_completion_events s' = task_completion_events s.
Proof.
  intros Hrun Hloop.
  pose proof (invariant_run sched s Hrun) as Hinv.
  assert (Hlock : condition s = HeldByWaiter).
  { apply (inv_lock _ _ Hinv). now right. }
  assert (Hstart : forall sid, step (TaskStarted sid) s = None).
  { intros sid. simpl. unfold on_task_started_enter. now rewrite Hlock. }
  split; [exact Hstart|].
  intros l s' Hstep. destruct l as [| |sid|name|sid|sid].
  - simpl in Hstep. unfold wait_for_all_tasks_call in Hstep.
    destruct (waiter s); try discriminate; now injection Hstep as <-.
  - simpl in Hstep. unfold wait_for_all_tasks_step in Hstep.
    destruct (waiter s) as [| | | | |i|i ev|]; try discriminate.
    + destruct (task_completion_events s !! i) as [[? ?]|]; now injection Hstep as <-.
    + destruct (is_set s ev); try discriminate. now injection Hstep as <-.
  - rewrite Hstart in Hstep. discriminate.
  - simpl in Hstep. unfold on_task_started_exit in Hstep.
    rewrite Hlock in Hstep. discriminate.
  - simpl in Hstep. unfold on_task_completed in Hstep.
    destruct (dict_get sid (task_completion_events s)) as [e0|]; simpl in Hstep;
      now injection Hstep as <-.
  - simpl in Hstep. unfold on_task_failed in Hstep.
    destruct (dict_get sid (task_completion_events s)) as [e0|]; simpl in Hstep;
      now injection Hstep as <-.
Qed.

Lemma no_registration_during_loop_witness :
  let s := {| task_completion_events := [(0, 0)]; events := [false];
              task_started := true; thread_name := Some "thread";
              condition := HeldByWaiter; waiter := AwaitingEvent 0 0 |} in
  run [TaskStarted 0; ThreadCreated "thread"; CallWait; WaiterStep; WaiterStep;
       WaiterStep] init = Some s
  /\ (forall sid, step (TaskStarted sid) s = None)
  /\ forall l s', step l s = Some s' ->
                  task_completion_events s' = task_completion_events s.
Proof.
  cbv zeta. split; [reflexivity|].
  apply (no_registration_during_loop
           [TaskStarted 0; ThreadCreated "thread"; CallWait; WaiterStep; WaiterStep;
            WaiterStep]);
    reflexivity.
Defined.

Lemma dict_get_set_eq {V : Type} (k : schedule_id) (v : V) (d : dict V) :
  dict_get k (dict_set k v d) = Some v.
Proof.
  induction d as [|[k' v'] d IH]; simpl.
  - now rewrite Nat.eqb_refl.
  - destruct (Nat.eqb_spec k k') as [-> | Hne]; simpl.
    + now rewrite Nat.eqb_refl.
    + apply Nat.eqb_neq in Hne. now rewrite Hne.
Qed.

Lemma dict_get_set_ne {V : Type} (k k' : schedule_id) (v : V) (d : dict V) :
  k' <> k -> dict_get k' (dict_set k v d) = dict_get k' d.
Proof.
  intros Hne. induction d as [|[k0 v0] d IH]; simpl.
  - apply Nat.eqb_neq in Hne. now rewrite Hne.
  - destruct (Nat.eqb_spec k k0) as [-> | Hk]; simpl.
    + apply Nat.eqb_neq in Hne. now rewrite Hne.
    + now rewrite IH.
Qed.

(** X18.  [on_task_started]: once it has the lock, the schedule id is
    registered with a new Event that is not set, even when the id had an
    Event before, set or not; [task_started] is true; a waiter in
    [condition.wait()] is woken; the other ids keep their Events, and
    every Event that existed keeps its flag. *)
Theorem on_task_started_registers_fresh_event
    (sid : schedule_id) (s s' : state) :
  on_task_started_enter sid s = Some s' ->
  dict_get sid (task_completion_events s') = Some (length (events s))
  /\ is_set s' (length (events s)) = false
  /\ task_started s' = true
  /\ (waiter s = Waiting -> waiter s' = Notified)
  /\ (forall sid', sid' <> sid ->
        dict_get sid' (task_completion_events s')
        = dict_get sid' (task_completion_events s))
  /\ (forall e, e < length (events s) -> is_set s' e = is_set s e).
Proof.
  unfold on_task_started_enter. destruct (condition s); try discriminate.
  intros [= <-]. simpl. repeat split.
  - apply dict_get_set_eq.
  - unfold is_set. simpl.
    rewrite lookup_app_r by lia. now rewrite Nat.sub_diag.
  - now intros ->.
  - intros sid' Hne. now apply dict_get_set_ne.
  - intros e He. unfold is_set. simpl. now rewrite lookup_app_l.
Qed.

Lemma on_task_started_registers_fresh_event_witness :
  let s := {| task_completion_events := [(0, 0); (1, 1)]; events := [true; false];
              task_started := false; thread_name := Some "thread";
              condition := Unlocked; waiter := Waiting |} in
  exists s',
    on_task_started_enter 0 s = Some s'
    /\ dict_get 0 (task_completion_events s') = Some 2
    /\ is_set s' 2 = false
    /\ is_set s' 0 = true
    /\ waiter s' = Notified.
Proof.
  cbv zeta. eexists. split; [reflexivity|].
  destruct (on_task_started_registers_fresh_event 0
              {| task_completion_events := [(0, 0); (1, 1)]; events := [true; false];
                 task_started := false; thread_name := Some "thread";
                 condition := Unlocked; waiter := Waiting |} _ eq_refl)
    as (H1 & H2 & H3 & H4 & H5 & H6).
  split; [exact H1|]. split; [exact H2|]. split; [reflexivity|]. now apply H4.
Defined.

(** ** A reply that holds a json block *)

Lemma contains_prefix (p r : string) : contains p (p ++ r) = true.
Proof. apply contains_true. now exists "", r. Qed.

(** Two texts that begin with different characters are different. *)
Ltac differ E :=
  match type of E with
  | String ?a ?s = String ?b ?t =>
      let H1 := fresh in
      let H2 := fresh in
      assert (H1 : a = b) by (now injection E);
      assert (H2 : s = t) by (now injection E);
      clear E; try discriminate H1; differ H2
  | _ => try discriminate E
  end.

(** No opening fence begins in a text that holds none, whatever
    follows the text. *)
Lemma fence_open_not_astride (a x : string) :
  a <> "" -> contains fence_open a = false ->
  startswith fence_open (a ++ fence_open ++ x) = false.
Proof.
  intros Hne H.
  destruct (startswith fence_open (a ++ fence_open ++ x)) eqn:E; [|reflexivity].
  exfalso. apply startswith_true in E as [r E].
  unfold fence_open, chr in E, H.
  destruct a as [|c1 a]; [contradiction|].
  do 7 (destruct a as [|? a]; [simpl in E; differ E|]).
  simpl in E. injection E as -> -> -> -> -> -> -> -> E.
  pose proof (contains_prefix ("```json" ++ String NL "") a) as Hc.
  simpl in Hc. simpl in H. congruence.
Qed.

(** No closing fence begins in a text that holds none, whatever
    follows the text. *)
Lemma fence_close_not_astride (body post : string) :
  contains fence_close body = false ->
  forall b1 b2, body = b1 ++ b2 -> b2 <> "" ->
                startswith fence_close (b2 ++ fence_close ++ post) = false.
Proof.
  intros H b1 b2 -> Hne. apply contains_false_app_r in H.
  destruct (startswith fence_close (b2 ++ fence_close ++ post)) eqn:E; [|reflexivity].
  exfalso. apply startswith_true in E as [r E].
  unfold fence_close, chr in E, H.
  destruct b2 as [|c1 b2]; [contradiction|].
  do 3 (destruct b2 as [|? b2]; [simpl in E; differ E|]).
  simpl in E. injection E as -> -> -> -> E.
  pose proof (contains_prefix (String NL "" ++ "```") b2) as Hc.
  simpl in Hc. simpl in H. congruence.
Qed.

Lemma lazy_star_unfold {R : Type} (cls : ascii -> bool)
    (k : string -> string -> option R) (cap s : string) :
  Re.lazy_star cls k cap s
  = match k cap s with
    | Some r => Some r
    | None =>
        match s with
        | String c s' => if cls c then Re.lazy_star cls k (cap ++ chr c) s' else None
        | EmptyString => None
        end
    end.
Proof. destruct s; reflexivity. Qed.

Lemma search_unfold {M : Type} (matcher : string -> option (M * string)) (s : string) :
  Re.search matcher s
  = match matcher s with
    | Some (m, _) => Some m
    | None =>
        match s with
        | String _ s' => Re.search matcher s'
        | EmptyString => None
        end
    end.
Proof. destruct s; reflexivity. Qed.

(** The lazy body stops at the first closing fence. *)
Lemma lazy_body (post : string) : forall body cap : string,
  (forall b1 b2, body = b1 ++ b2 -> b2 <> "" ->
                 startswith fence_close (b2 ++ fence_close ++ post) = false) ->
  Re.lazy_star any_char
    (fun body r1 => Re.lit fence_close (fun r2 => Some (body, r2)) r1)
    cap (body ++ fence_close ++ post)
  = Some (cap ++ body, post).
Proof.
  induction body as [|c body IH]; intros cap H.
  - rewrite lazy_star_unfold. cbn [String.append].
    now rewrite lit_app, str_app_nil_r.
  - rewrite lazy_star_unfold. cbn [String.append].
    assert (Hhead : Re.lit fence_close (fun r2 => Some (cap, r2))
                      (String c (body ++ fence_close ++ post)) = None).
    { specialize (H "" (String c body) eq_refl ltac:(discriminate)).
      unfold startswith in H. unfold Re.lit.
      change (String c body ++ fence_close ++ post)
        with (String c (body ++ fence_close ++ post)) in H.
      now destruct (strip_prefix fence_close _). }
    rewrite Hhead. cbn [any_char].
    rewrite IH; [now rewrite str_app_snoc|].
    intros b1 b2 -> Hb2. exact (H (String c b1) b2 eq_refl Hb2).
Qed.

(** The pattern at a block whose body holds no closing fence. *)
Lemma json_block_pattern_at (body post : string) :
  contains fence_close body = false ->
  json_block_pattern (fence_open ++ body ++ fence_close ++ post)
  = Some (body, post).
Proof.
  intros H. unfold json_block_pattern. rewrite lit_app.
  rewrite (lazy_body post body "" (fence_close_not_astride body post H)).
  reflexivity.
Qed.

(** The pattern before the first opening fence. *)
Lemma json_block_pattern_before (c : ascii) (pre x : string) :
  contains fence_open (String c pre) = false ->
  json_block_pattern (String c pre ++ fence_open ++ x) = None.
Proof.
  intros H.
  pose proof (fence_open_not_astride (String c pre) x ltac:(discriminate) H) as Hs.
  unfold json_block_pattern, Re.lit. unfold startswith in Hs.
  now destruct (strip_prefix fence_open _).
Qed.

Lemma search_json_at (body post : string) : forall pre : string,
  contains fence_open pre = false ->
  contains fence_close body = false ->
  Re.search json_block_pattern (pre ++ fence_open ++ body ++ fence_close ++ post)
  = Some body.
Proof.
  intros pre Hpre Hbody. induction pre as [|c pre IH].
  - cbn [String.append]. rewrite search_unfold.
    now rewrite (json_block_pattern_at _ _ Hbody).
  - rewrite search_unfold.
    rewrite (json_block_pattern_before _ _ _ Hpre).
    cbn [String.append].
    apply IH. simpl in Hpre. now apply orb_false_iff in Hpre as [_ Hpre].
Qed.

Lemma sub_json_at (body post : string) : forall pre : string,
  contains fence_open pre = false ->
  contains fence_close body = false ->
  Re.sub json_block_pattern (fun _ => "")
         (pre ++ fence_open ++ body ++ fence_close ++ post)
  = pre ++ Re.sub json_block_pattern (fun _ => "") post.
Proof.
  intros pre Hpre Hbody. induction pre as [|c pre IH].
  - cbn [String.append].
    rewrite (sub_hit json_block_pattern (fun _ => "") _
               (fence_open ++ body ++ fence_close) post body
               (json_block_pattern_at _ _ Hbody)).
    + reflexivity.
    + now rewrite !str_app_assoc.
    + unfold fence_open. discriminate.
  - change (String c pre ++ fence_open ++ body ++ fence_close ++ post)
      with (String c (pre ++ fence_open ++ body ++ fence_close ++ post)).
    rewrite sub_lit.
    + rewrite IH; [reflexivity|].
      simpl in Hpre. now apply orb_false_iff in Hpre as [_ Hpre].
    + change (String c (pre ++ fence_open ++ body ++ fence_close ++ post))
        with (String c pre ++ fence_open ++ body ++ fence_close ++ post).
      now apply json_block_pattern_before.
Qed.

Lemma contains_char_app (c : ascii) (a b : string) :
  contains (chr c) (a ++ b) = contains (chr c) a || contains (chr c) b.
Proof.
  induction a as [|x a IH].
  - cbn [String.append]. simpl. reflexivity.
  - cbn [String.append contains]. rewrite IH.
    assert (Hs : startswith (chr c) (String x (a ++ b))
                 = startswith (chr c) (String x a)).
    { unfold startswith, chr. simpl. now destruct (Ascii.eqb c x). }
    rewrite Hs. now rewrite orb_assoc.
Qed.

(** X19.  [extract_json_code_block]: from a reply made of a text without
    opening fence, a block whose body holds no closing fence, and any
    text after it, the function returns the body of the block, as it was
    written. *)
Theorem extract_json_code_block_round_trip (pre body post : string) :
  contains fence_open pre = false ->
  contains fence_close body = false ->
  extract_json_code_block (pre ++ fence_open ++ body ++ fence_close ++ post)
  = body.
Proof.
  intros Hpre Hbody. unfold extract_json_code_block.
  now rewrite (search_json_at body post pre Hpre Hbody).
Qed.

Lemma extract_json_code_block_round_trip_witness :
  extract_json_code_block
    ("Plan:" ++ chr NL ++ fence_open ++ "[1, 2]" ++ fence_close ++ " ok? "
     ++ fence_open ++ "[3]" ++ fence_close)
  = "[1, 2]".
Proof.
  apply (extract_json_code_block_round_trip ("Plan:" ++ chr NL) "[1, 2]"
           (" ok? " ++ fence_open ++ "[3]" ++ fence_close));
    reflexivity.
Defined.

(** X20.  [requires_user_confirmation]: a question mark inside the first
    json block does not count: for a reply made of a text without opening
    fence, a block whose body holds no closing fence and a text after it,
    the answer is that of the text before the block or of the text
    after it. *)
Theorem requires_user_confirmation_skips_block (pre body post : string) :
  contains fence_open pre = false ->
  contains fence_close body = false ->
  requires_user_confirmation (pre ++ fence_open ++ body ++ fence_close ++ post)
  = contains "?" pre || requires_user_confirmation post.
Proof.
  intros Hpre Hbody. unfold requires_user_confirmation.
  rewrite (sub_json_at body post pre Hpre Hbody).
  apply (contains_char_app "?").
Qed.

Lemma requires_user_confirmation_skips_block_witness :
  requires_user_confirmation
    ("Plan:" ++ chr NL ++ fence_open ++ "[why?]" ++ fence_close ++ " done")
  = contains "?" ("Plan:" ++ chr NL) || requires_user_confirmation " done".
Proof.
  apply (requires_user_confirmation_skips_block ("Plan:" ++ chr NL) "[why?]" " done");
    reflexivity.
Defined.

(** X21.  the loop of [main] on a well-formed plan: when the reply is a
    text without opening fence and without question mark, a block whose
    body holds no closing fence, and a text that needs no confirmation,
    [json.loads] receives the body of the block and nothing else, and its
    result decides: the tasks are scheduled, or a [JSONDecodeError] skips
    the reply, or another exception leaves [main]. *)
Theorem main_iteration_on_plan
    (Json : Type) (json_loads : string -> loads_result Json)
    (pre body post : string) :
  contains fence_open pre = false ->
  contains fence_close body = false ->
  contains "?" pre = false ->
  requires_user_confirmation post = false ->
  main_iteration json_loads (pre ++ fence_open ++ body ++ fence_close ++ post)
  = match json_loads body with
    | Loaded tasks => Scheduled tasks
    | JSONDecodeError => Continue
    | OtherError => Propagated
    end.
Proof.
  intros Hpre Hbody Hq Hpost. unfold main_iteration.
  assert (Hc : requires_user_confirmation
                 (pre ++ fence_open ++ body ++ fence_close ++ post) = false).
  { unfold requires_user_confirmation.
    rewrite (sub_json_at body post pre Hpre Hbody).
    rewrite (contains_char_app "?"). unfold requires_user_confirmation in Hpost.
    change (chr "?") with "?". now rewrite Hq, Hpost. }
  rewrite Hc. unfold extract_json_code_block.
  now rewrite (search_json_at body post pre Hpre Hbody).
Qed.

Lemma main_iteration_on_plan_witness :
  main_iteration (fun body => if String.eqb body "[why?]" then Loaded 1 else OtherError)
    ("Plan:" ++ chr NL ++ fence_open ++ "[why?]" ++ fence_close ++ " done")
  = Scheduled 1.
Proof.
  apply (main_iteration_on_plan nat
           (fun body => if String.eqb body "[why?]" then Loaded 1 else OtherError)
           ("Plan:" ++ chr NL) "[why?]" " done");
    reflexivity.
Defined.

(** ** A fence that is never closed *)

Lemma ends_with_char_snoc (c : ascii) (a : string) :
  ends_with_char c (a ++ chr c) = true.
Proof.
  induction a as [|x a IH].
  - simpl. apply Ascii.eqb_refl.
  - cbn [String.append]. destruct a as [|y a].
    + simpl. apply Ascii.eqb_refl.
    + exact IH.
Qed.

(** No fence begins in a text that holds none and does not end with a
    backtick, whatever follows the text. *)
Lemma fence_not_astride (a b : string) :
  contains "```" a = false -> ends_with_char "`" a = false ->
  forall a1 a2, a = a1 ++ a2 -> a2 <> "" ->
                startswith "```" (a2 ++ "```" ++ b) = false.
Proof.
  intros Hc He a1 a2 -> Hne. apply contains_false_app_r in Hc.
  destruct (startswith "```" (a2 ++ "```" ++ b)) eqn:E; [|reflexivity].
  exfalso. apply startswith_true in E as [r E].
  destruct a2 as [|c1 a2]; [contradiction|].
  destruct a2 as [|c2 a2].
  { simpl in E. injection E as -> _.
    pose proof (ends_with_char_snoc "`" a1) as Hs. unfold chr in Hs. congruence. }
  destruct a2 as [|c3 a2].
  { simpl in E. injection E as -> -> _.
    pose proof (ends_with_char_snoc "`" (a1 ++ "`")) as Hs.
    rewrite str_app_assoc in Hs. unfold chr in Hs. simpl in Hs. congruence. }
  simpl in E. injection E as -> -> -> _.
  pose proof (contains_prefix "```" a2) as Hp. simpl in Hp. simpl in Hc. congruence.
Qed.

Lemma split_from_before_fence (b : string) : forall a cur : string,
  (forall a1 a2, a = a1 ++ a2 -> a2 <> "" ->
                 startswith "```" (a2 ++ "```" ++ b) = false) ->
  split_from "```" 0 cur (a ++ "```" ++ b)
  = (cur ++ a) :: split_from "```" 0 "" b.
Proof.
  assert (Hsep : "```" <> "") by discriminate.
  induction a as [|c a IH]; intros cur H.
  - rewrite str_app_nil_r.
    exact (split_from_sep "```" Hsep "`" ("``" ++ b) cur b eq_refl).
  - change (String c a ++ "```" ++ b) with (String c (a ++ "```" ++ b)).
    rewrite (split_from_char "```").
    + rewrite IH; [now rewrite str_app_snoc|].
      intros a1 a2 -> Ha2. exact (H (String c a1) a2 eq_refl Ha2).
    + exact (H "" (String c a) eq_refl ltac:(discriminate)).
Qed.

(** X22.  [parse_message], a fence that is never closed: when the text
    before the fence holds no fence and does not end with a backtick, and
    the text after it holds no fence, the message gives two segments, the
    text before as prose and all the text after as code (without its first
    line, the language tag, when it has several lines). *)
Theorem parse_message_unclosed_fence (a b : string) :
  contains "```" a = false ->
  ends_with_char "`" a = false ->
  contains "```" b = false ->
  parse_message (a ++ "```" ++ b) = [(false, a); parse_part 1 b]
  /\ fst (parse_part 1 b) = true.
Proof.
  intros Ha He Hb. split.
  - unfold parse_message, split.
    rewrite (split_from_before_fence b a "" (fence_not_astride a b Ha He)).
    rewrite (split_from_no_fence "```" b "" Hb).
    reflexivity.
  - unfold parse_part. simpl.
    now destruct (split_once NL b) as [|? [|? [|? ?]]].
Qed.

Lemma parse_message_unclosed_fence_witness :
  parse_message ("Here it is: ```python" ++ chr NL ++ "print(1)" ++ chr NL ++ "Done.")
  = [(false, "Here it is: ");
     (true, "print(1)" ++ chr NL ++ "Done.")].
Proof.
  apply (parse_message_unclosed_fence "Here it is: "
           ("python" ++ chr NL ++ "print(1)" ++ chr NL ++ "Done."));
    reflexivity.
Defined.

(** ** [format_file_links]: what it leaves alone *)

(** X23.  [format_file_links] and the citation map: a call never removes
    a key, never makes the map smaller, and does not touch [file_path]. *)
Theorem format_file_links_keeps_keys (self : view) (text key : string) :
  let self' := snd (format_file_links self text) in
  (is_Some (text_to_url_map self !! key) -> is_Some (text_to_url_map self' !! key))
  /\ size (text_to_url_map self) <= size (text_to_url_map self')
  /\ file_path self' = file_path self.
Proof.
  cbv zeta. rewrite format_file_links_view. split; [|split].
  - apply resolve_all_keeps_keys.
  - apply resolve_all_size.
  - apply resolve_all_file_path.
Qed.

(** ** [format_urls] word by word *)

(** A prefix without white space is matched in a text or in a longer
    one that goes on with white space. *)
Lemma strip_prefix_before_space (w : ascii) (b : string) :
  is_space w = true ->
  forall p a : string,
    all_chars non_space p = true ->
    strip_prefix p (a ++ String w b)
    = match strip_prefix p a with
      | Some r => Some (r ++ String w b)
      | None => None
      end.
Proof.
  intros Hw. induction p as [|x p IH]; intros a Hp; [reflexivity|].
  simpl in Hp. apply andb_true_iff in Hp as [Hx Hp].
  destruct a as [|y a].
  - cbn [String.append strip_prefix].
    destruct (Ascii.eqb_spec x w) as [-> | Hne]; [|reflexivity].
    unfold non_space in Hx. rewrite Hw in Hx. discriminate.
  - cbn [String.append strip_prefix].
    destruct (Ascii.eqb x y); [now apply IH | reflexivity].
Qed.

Lemma first_non_space_before_space (w : ascii) (b r : string) :
  is_space w = true ->
  first_non_space (r ++ String w b) = first_non_space r.
Proof.
  intros Hw. destruct r as [|c r]; [|reflexivity].
  simpl. unfold non_space. now rewrite Hw.
Qed.

Lemma url_token_at_before_space (w : ascii) (a b : string) :
  is_space w = true ->
  url_token_at (a ++ String w b) = url_token_at a.
Proof.
  intros Hw. unfold url_token_at.
  rewrite !(strip_prefix_before_space w b Hw) by reflexivity.
  destruct (strip_prefix "http://" a), (strip_prefix "https://" a);
    now rewrite ?(first_non_space_before_space w b _ Hw).
Qed.

(** A text is cut in one way only into a piece without white space and a
    rest that begins with white space or is empty. *)
Lemma non_space_prefix_unique : forall u u' r r' : string,
  u ++ r = u' ++ r' ->
  all_chars non_space u = true -> all_chars non_space u' = true ->
  first_non_space r = false -> first_non_space r' = false ->
  u = u' /\ r = r'.
Proof.
  induction u as [|c u IH]; intros u' r r' Heq Hu Hu' Hr Hr'.
  - destruct u' as [|c' u']; [now split|].
    cbn [String.append] in Heq. subst r.
    simpl in Hr, Hu'. apply andb_true_iff in Hu' as [Hc' _]. congruence.
  - destruct u' as [|c' u'].
    + cbn [String.append] in Heq. subst r'.
      simpl in Hr', Hu. apply andb_true_iff in Hu as [Hc _]. congruence.
    + cbn [String.append] in Heq. injection Heq as <- Heq.
      simpl in Hu, Hu'. apply andb_true_iff in Hu as [_ Hu].
      apply andb_true_iff in Hu' as [_ Hu'].
      destruct (IH u' r r' Heq Hu Hu' Hr Hr') as [-> ->]. now split.
Qed.

(** The match at a URL token, in a text and in a longer one that goes on
    with white space. *)
Lemma url_pattern_before_space (w : ascii) (a b u rest : string) :
  is_space w = true ->
  url_pattern a = Some (u, rest) ->
  url_pattern (a ++ String w b) = Some (u, rest ++ String w b).
Proof.
  intros Hw Ha.
  destruct (url_pattern_match _ _ _ Ha) as (Hs & Hne & Htok & Hns & Hrest).
  destruct (url_pattern (a ++ String w b)) as [[u' rest']|] eqn:Hab.
  - destruct (url_pattern_match _ _ _ Hab) as (Hs' & _ & _ & Hns' & Hrest').
    rewrite Hs, str_app_assoc in Hs'.
    destruct (non_space_prefix_unique u u' (rest ++ String w b) rest' Hs' Hns Hns')
      as [-> ->]; [|exact Hrest'|reflexivity].
    now rewrite first_non_space_before_space.
  - apply url_pattern_None in Hab.
    rewrite (url_token_at_before_space w a b Hw) in Hab.
    apply url_pattern_None in Hab. congruence.
Qed.

Lemma format_urls_before_space (w : ascii) (b : string) (n : nat) :
  is_space w = true ->
  forall a : string,
    String.length a <= n ->
    format_urls (a ++ String w b) = format_urls a ++ String w (format_urls b).
Proof.
  intros Hw. induction n as [|n IH]; intros a Hlen.
  - destruct a; [|simpl in Hlen; lia].
    cbn [String.append]. apply format_urls_lit.
    change (String w b) with ("" ++ String w b).
    now rewrite url_token_at_before_space.
  - destruct a as [|c a].
    + cbn [String.append]. apply format_urls_lit.
      change (String w b) with ("" ++ String w b).
      now rewrite url_token_at_before_space.
    + destruct (url_pattern (String c a)) as [[u rest]|] eqn:Hm.
      * destruct (url_pattern_match _ _ _ Hm) as (Hs & Hne & _).
        pose proof (url_pattern_before_space w _ b u rest Hw Hm) as Hm'.
        unfold format_urls.
        rewrite (sub_hit url_pattern replace_with_link _ u rest u Hm Hs Hne).
        rewrite (sub_hit url_pattern replace_with_link _ u (rest ++ String w b) u
                   Hm') by (try assumption; now rewrite Hs, str_app_assoc).
        fold (format_urls (rest ++ String w b)). fold (format_urls rest).
        fold (format_urls b).
        rewrite IH; [now rewrite str_app_assoc|].
        apply (f_equal String.length) in Hs. rewrite str_length_app in Hs.
        destruct u; [contradiction|]. simpl in Hs, Hlen. lia.
      * apply url_pattern_None in Hm.
        change (String c a ++ String w b) with (String c (a ++ String w b)).
        rewrite format_urls_lit.
        -- rewrite (format_urls_lit c a Hm).
           rewrite IH by (simpl in Hlen; lia). reflexivity.
        -- change (String c (a ++ String w b)) with (String c a ++ String w b).
           now rewrite url_token_at_before_space.
Qed.

(** X24.  [format_urls] works word by word: the text on each side of a
    white-space character is formatted on its own, and the character is
    kept between the two results. *)
Theorem format_urls_at_white_space (w : ascii) (a b : string) :
  is_space w = true ->
  format_urls (a ++ String w b) = format_urls a ++ String w (format_urls b).
Proof.
  intros Hw. now apply (format_urls_before_space w b (String.length a)).
Qed.

Lemma format_urls_at_white_space_witness :
  format_urls ("http://a.b" ++ String NL "see https://c.d")
  = format_urls "http://a.b" ++ String NL (format_urls "see https://c.d").
Proof.
  apply (format_urls_at_white_space NL "http://a.b" "see https://c.d").
  reflexivity.
Defined.

(** ** [on_task_execute] *)

Section TaskExecutionFacts.
Variable Client : Type.
Variable _assistants : gmap string Client.
Variable thread_name_at : nat -> option string.
Variable thread_name : string.
Hypothesis thread_name_set : forall k, thread_name_at k = Some thread_name.

(** The loop over the requests that can be executed, then over the
    others. *)
Lemma execute_requests_app (done rest : list (gmap string string)) :
  Forall (TaskExecution.executable _assistants) done ->
  forall reads,
    TaskExecution.execute_requests _assistants thread_name_at reads
                                   (done ++ rest)%list
    = let (calls, e) :=
        TaskExecution.execute_requests _assistants thread_name_at
                                       (reads + 2 * length done) rest in
      ((flat_map (TaskExecution.request_calls _assistants thread_name) done
          ++ calls)%list, e).
Proof using thread_name_set.
  induction 1 as [|request done Hreq Hdone IH]; intros reads.
  - cbn [List.app flat_map length]. rewrite Nat.mul_0_r, Nat.add_0_r.
    now destruct (TaskExecution.execute_requests _ _ _ _).
  - destruct Hreq as (name & client & task & Hname & Hclient & Htask).
    cbn [List.app TaskExecution.execute_requests flat_map length].
    unfold TaskExecution.request_calls at 1.
    rewrite Hname, Hclient, Htask, !thread_name_set, IH.
    replace (S (S reads) + 2 * length done) with (reads + 2 * S (length done)) by lia.
    now destruct (TaskExecution.execute_requests _ _ _ rest).
Qed.

(** X25.  [on_task_execute], while [self.thread_name] keeps one value:
    the requests that name a registered assistant and give a task are
    handled in order, each message created right before its assistant
    processes the thread.  When all requests are such, the call ends
    without exception; when the next request names an assistant that is
    not registered, [KeyError] is raised with that name, after the calls
    of the requests before it, before the message of this request is
    created, and no later request is touched. *)
Theorem on_task_execute_requests
    (task_id schedule_id : string) (done : list (gmap string string)) :
  Forall (TaskExecution.executable _assistants) done ->
  let printed :=
    TaskExecution.Print
      (chr NL ++ "Task " ++ task_id ++ " execute with schedule ID: " ++ schedule_id) in
  let calls :=
    flat_map (TaskExecution.request_calls _assistants thread_name) done in
  TaskExecution.on_task_execute _assistants thread_name_at
                                task_id schedule_id done
  = (printed :: calls, None)
  /\ forall (request : gmap string string) (rest : list (gmap string string))
            (assistant_name : string),
       request !! "assistant" = Some assistant_name ->
       _assistants !! assistant_name = None ->
       TaskExecution.on_task_execute _assistants thread_name_at
                                     task_id schedule_id (done ++ request :: rest)%list
       = (printed :: calls, Some (TaskExecution.KeyError assistant_name)).
Proof using thread_name_set.
  intros Hdone. cbv zeta. unfold TaskExecution.on_task_execute. split.
  - rewrite <- (app_nil_r done) at 1.
    rewrite (execute_requests_app done [] Hdone 0).
    cbn [TaskExecution.execute_requests]. now rewrite app_nil_r.
  - intros request rest name Hname Hclient.
    rewrite (execute_requests_app done (request :: rest) Hdone 0).
    cbn [TaskExecution.execute_requests]. rewrite Hname, Hclient.
    now rewrite app_nil_r.
Qed.

End TaskExecutionFacts.

Lemma on_task_execute_requests_witness :
  let _assistants : gmap string nat := <["CodeProgrammerAgent" := 1]> ∅ in
  let good : gmap string string :=
    <["assistant" := "CodeProgrammerAgent"]> (<["task" := "write it"]> ∅) in
  let bad : gmap string string :=
    <["assistant" := "Nobody"]> (<["task" := "review it"]> ∅) in
  TaskExecution.on_task_execute _assistants (fun _ => Some "thread") "7" "3"
                                [good; bad; good]
  = ([TaskExecution.Print (chr NL ++ "Task 7 execute with schedule ID: 3");
      TaskExecution.CreateMessage "write it" "thread";
      TaskExecution.ProcessMessages 1 "thread"],
     Some (TaskExecution.KeyError "Nobody")).
Proof.
  cbv zeta.
  refine (proj2 (on_task_execute_requests nat (<["CodeProgrammerAgent" := 1]> ∅)
                   (fun _ => Some "thread") "thread" (fun _ => eq_refl) "7" "3"
                   [<["assistant" := "CodeProgrammerAgent"]> (<["task" := "write it"]> ∅)]
                   _)
                (<["assistant" := "Nobody"]> (<["task" := "review it"]> ∅))
                [<["assistant" := "CodeProgrammerAgent"]> (<["task" := "write it"]> ∅)]
                "Nobody" _ _).
  - repeat constructor. exists "CodeProgrammerAgent", 1, "write it".
    repeat split; reflexivity.
  - reflexivity.
  - reflexivity.
Defined.

(** ** [initialize_assistants] and [main] *)

Section MainFacts.
Variable read_text : string -> option string.

Lemma initialize_assistant_lookup (assistants : gmap string MainProgram.client)
    (assistant_name name : string) :
  MainProgram.initialize_assistant read_text assistants assistant_name !! name
  = if String.eqb name assistant_name then
      match MainProgram.load_assistant_config read_text name with
      | Some config =>
          if String.eqb config "" then assistants !! name
          else if String.eqb name "TaskPlannerAgent"
                  || String.eqb name "FileCreatorAgent"
               then Some (MainProgram.ChatAssistantClient config)
               else Some (MainProgram.AssistantClient config)
      | None => assistants !! name
      end
    else assistants !! name.
Proof.
  unfold MainProgram.initialize_assistant.
  destruct (String.eqb_spec name assistant_name) as [-> | Hne].
  - destruct (MainProgram.load_assistant_config read_text assistant_name)
      as [config|]; [|reflexivity].
    destruct (String.eqb config ""); [reflexivity|].
    destruct (_ || _); now rewrite lookup_insert_eq.
  - destruct (MainProgram.load_assistant_config read_text assistant_name)
      as [config|]; [|reflexivity].
    destruct (String.eqb config ""); [reflexivity|].
    destruct (_ || _); now rewrite lookup_insert_ne.
Qed.

Lemma fold_initialize_assistant_lookup (assistant_names : list string) (name : string) :
  forall assistants : gmap string MainProgram.client,
    fold_left (MainProgram.initialize_assistant read_text) assistant_names assistants
      !! name
    = if existsb (String.eqb name) assistant_names then
        match MainProgram.load_assistant_config read_text name with
        | Some config =>
            if String.eqb config "" then assistants !! name
            else if String.eqb name "TaskPlannerAgent"
                    || String.eqb name "FileCreatorAgent"
                 then Some (MainProgram.ChatAssistantClient config)
                 else Some (MainProgram.AssistantClient config)
        | None => assistants !! name
        end
      else assistants !! name.
Proof.
  induction assistant_names as [|n names IH]; intros assistants; [reflexivity|].
  cbn [fold_left existsb]. rewrite IH, initialize_assistant_lookup.
  destruct (String.eqb name n); cbn [orb].
  - destruct (existsb (String.eqb name) names);
      destruct (MainProgram.load_assistant_config read_text name) as [config|];
      try reflexivity;
      destruct (String.eqb config ""); try reflexivity;
      destruct (_ || _); reflexivity.
  - reflexivity.
Qed.

(** X26.  [initialize_assistants]: the dictionary it returns has a client
    for a name exactly when the name is in the list and its configuration
    file can be read and is not empty; the client is a chat client for
    [TaskPlannerAgent] and [FileCreatorAgent] and an assistant client for
    any other name, built from the text of the file. *)
Theorem initialize_assistants_lookup (assistant_names : list string) (name : string) :
  MainProgram.initialize_assistants read_text assistant_names !! name
  = if existsb (String.eqb name) assistant_names then
      match MainProgram.load_assistant_config read_text name with
      | Some config =>
          if String.eqb config "" then None
          else if String.eqb name "TaskPlannerAgent"
                  || String.eqb name "FileCreatorAgent"
               then Some (MainProgram.ChatAssistantClient config)
               else Some (MainProgram.AssistantClient config)
      | None => None
      end
    else None.
Proof.
  unfold MainProgram.initialize_assistants.
  rewrite fold_initialize_assistant_lookup. now rewrite lookup_empty.
Qed.

Variable Json : Type.
Variable json_loads : string -> loads_result Json.
Variable planner_reply : list string -> option string.
Variable assistants : gmap string MainProgram.client.

Lemma main_loop_exit (line : string) (rest : list string) (posted : list string) :
  String.eqb (lower (strip_ws line)) "exit" = true ->
  MainProgram.main_loop json_loads planner_reply assistants posted
                        (line :: rest)
  = ([MainProgram.Close], MainProgram.Exited).
Proof. intros H. cbn [MainProgram.main_loop]. now rewrite H. Qed.

Lemma main_loop_after_exit (line : string) (post : list string) :
  String.eqb (lower (strip_ws line)) "exit" = true ->
  forall (pre posted : list string),
    MainProgram.main_loop json_loads planner_reply assistants posted
                          (pre ++ line :: post)%list
    = MainProgram.main_loop json_loads planner_reply assistants posted
                            (pre ++ [line])%list.
Proof.
  intros Hexit. induction pre as [|l pre IH]; intros posted.
  - cbn [List.app]. now rewrite !main_loop_exit.
  - cbn [List.app MainProgram.main_loop].
    destruct (String.eqb (lower (strip_ws l)) "exit"); [reflexivity|].
    destruct (String.eqb (strip_ws l) ""); [apply IH|].
    destruct (assistants !! "TaskPlannerAgent"); [|reflexivity].
    destruct (planner_reply _); [|reflexivity].
    destruct (main_iteration json_loads _); try reflexivity; now rewrite IH.
Qed.

Lemma main_loop_blank_lines : forall (lines posted : list string),
  MainProgram.main_loop json_loads planner_reply assistants posted
    (List.filter (fun line => negb (String.eqb (strip_ws line) "")) lines)
  = MainProgram.main_loop json_loads planner_reply assistants posted
                          lines.
Proof.
  induction lines as [|l lines IH]; intros posted; [reflexivity|].
  cbn [List.filter].
  destruct (String.eqb_spec (strip_ws l) "") as [Hblank | Hblank]; cbn [negb].
  - rewrite IH. cbn [MainProgram.main_loop]. rewrite Hblank. reflexivity.
  - cbn [MainProgram.main_loop].
    destruct (String.eqb (lower (strip_ws l)) "exit"); [reflexivity|].
    destruct (String.eqb_spec (strip_ws l) "") as [|_]; [contradiction|].
    destruct (assistants !! "TaskPlannerAgent"); [|reflexivity].
    destruct (planner_reply _); [|reflexivity].
    destruct (main_iteration json_loads _); try reflexivity; now rewrite IH.
Qed.

End MainFacts.

(** X27.  [main]: a line that is [exit] once stripped and put in lower
    case ends the loop; what the user would type after it is never read:
    the calls made and the way [main] ends are those of the input cut
    after that line. *)
Theorem main_stops_at_exit
    (read_text : string -> option string) (Json : Type)
    (json_loads : string -> loads_result Json)
    (planner_reply : list string -> option string)
    (pre post : list string) (line : string) :
  lower (strip_ws line) = "exit" ->
  MainProgram.main read_text json_loads planner_reply (pre ++ line :: post)%list
  = MainProgram.main read_text json_loads planner_reply (pre ++ [line])%list.
Proof.
  intros Hexit. unfold MainProgram.main. cbv zeta.
  rewrite main_loop_after_exit; [reflexivity|].
  rewrite Hexit. reflexivity.
Qed.

Lemma main_stops_at_exit_witness :
  MainProgram.main (fun _ => None) (fun _ => @OtherError nat) (fun _ => None)
                   [""; "  Exit " ++ chr NL; "make a game"]
  = ([MainProgram.CreateConversationThread; MainProgram.Close],
     MainProgram.Exited).
Proof.
  etransitivity.
  - apply (main_stops_at_exit (fun _ => None) nat (fun _ => @OtherError nat)
             (fun _ => None) [""] ["make a game"] ("  Exit " ++ chr NL)).
    reflexivity.
  - reflexivity.
Defined.

(** X28.  [main]: lines that are empty once stripped are skipped; without
    them the calls made and the way [main] ends are the same. *)
Theorem main_ignores_blank_lines
    (read_text : string -> option string) (Json : Type)
    (json_loads : string -> loads_result Json)
    (planner_reply : list string -> option string)
    (lines : list string) :
  MainProgram.main read_text json_loads planner_reply
    (List.filter (fun line => negb (String.eqb (strip_ws line) "")) lines)
  = MainProgram.main read_text json_loads planner_reply lines.
Proof.
  unfold MainProgram.main. cbv zeta. now rewrite main_loop_blank_lines.
Qed.

(** ** The version of the package *)

(** What a greedy [C*] has taken is in the class. *)
Lemma star_Some_class {R : Type} (cls : ascii -> bool)
    (k : string -> string -> option R) :
  forall (s cap : string) (r : R),
    Re.star cls k cap s = Some r ->
    exists a b, s = a ++ b /\ all_chars cls a = true /\ k (cap ++ a) b = Some r.
Proof.
  induction s as [|c s IH]; intros cap r H.
  - exists "", "". simpl in H. rewrite (str_app_nil_r cap). auto.
  - simpl in H. destruct (cls c) eqn:Hc.
    + destruct (Re.star cls k (cap ++ chr c) s) as [r'|] eqn:E.
      * injection H as <-. destruct (IH _ _ E) as (a & b & -> & Ha & Hk).
        exists (String c a), b. simpl. rewrite Hc, Ha.
        rewrite str_app_snoc in Hk. auto.
      * exists "", (String c s). rewrite (str_app_nil_r cap). auto.
    + exists "", (String c s). rewrite (str_app_nil_r cap). auto.
Qed.

Lemma one_Some {R : Type} (cls : ascii -> bool) (k : string -> option R)
    (s : string) (r : R) :
  Setup.one cls k s = Some r ->
  exists c s', s = String c s' /\ cls c = true /\ k s' = Some r.
Proof.
  destruct s as [|c s]; simpl; [discriminate|].
  destruct (cls c) eqn:Hc; [|discriminate]. eauto.
Qed.

(** What [version_pattern] matches. *)
Lemma version_pattern_Some (s v : string) :
  Setup.version_pattern s = Some v ->
  exists ws1 ws2 q1 q2 after,
    s = "VERSION" ++ ws1 ++ "=" ++ ws2 ++ String q1 (v ++ String q2 after)
    /\ all_chars is_space ws1 = true /\ all_chars is_space ws2 = true
    /\ Setup.is_quote q1 = true /\ Setup.is_quote q2 = true
    /\ all_chars Setup.not_quote v = true.
Proof.
  unfold Setup.version_pattern. intros H.
  apply lit_Some in H as (r0 & -> & H).
  apply star_Some_class in H as (ws1 & r1 & -> & Hws1 & H).
  apply lit_Some in H as (r2 & -> & H).
  apply star_Some_class in H as (ws2 & r3 & -> & Hws2 & H).
  apply one_Some in H as (q1 & r4 & -> & Hq1 & H).
  apply star_Some_class in H as (v' & r5 & -> & Hv & H).
  apply one_Some in H as (q2 & after & -> & Hq2 & H).
  injection H as <-.
  exists ws1, ws2, q1, q2, after. simpl. auto 10.
Qed.

(** Where [search_lines] finds its match: at the start of the text, when
    the text begins a line, or after a line feed. *)
Lemma search_lines_Some (v : string) : forall (s : string) (at_line_start : bool),
  Setup.search_lines at_line_start s = Some v ->
  exists before rest,
    s = before ++ rest
    /\ Setup.version_pattern rest = Some v
    /\ (before = "" /\ at_line_start = true \/ exists b, before = b ++ chr NL).
Proof.
  induction s as [|c s IH]; intros at_line_start H.
  - simpl in H. destruct at_line_start; [|discriminate].
    destruct (Setup.version_pattern "") eqn:E; [|discriminate].
    injection H as ->. exists "", "". auto.
  - cbn [Setup.search_lines] in H.
    destruct (if at_line_start then Setup.version_pattern (String c s) else None)
      as [g|] eqn:E.
    + injection H as ->. destruct at_line_start; [|discriminate].
      exists "", (String c s). auto.
    + destruct (IH _ H) as (before & rest & -> & Hm & Hb).
      exists (String c before), rest. split; [reflexivity|]. split; [exact Hm|].
      right. destruct Hb as [[-> Hnl] | [b ->]].
      * apply Ascii.eqb_eq in Hnl. subst c. now exists "".
      * now exists (String c b).
Qed.

Lemma search_lines_None : forall (s : string) (at_line_start : bool),
  Setup.line_starts_with at_line_start "VERSION" s = false ->
  Setup.search_lines at_line_start s = None.
Proof.
  assert (Hpat : forall s, startswith "VERSION" s = false ->
                           Setup.version_pattern s = None).
  { intros s Hs. unfold Setup.version_pattern, Re.lit. unfold startswith in Hs.
    now destruct (strip_prefix "VERSION" s). }
  induction s as [|c s IH]; intros at_line_start H.
  - simpl in H. rewrite orb_false_r in H.
    simpl. destruct at_line_start; [|reflexivity].
    now rewrite (Hpat "" H).
  - cbn [Setup.line_starts_with] in H. apply orb_false_iff in H as [H1 H2].
    cbn [Setup.search_lines].
    assert (Hhead : (if at_line_start then Setup.version_pattern (String c s)
                     else None) = None).
    { destruct at_line_start; [|reflexivity]. now apply Hpat. }
    rewrite Hhead. now apply IH.
Qed.

(** X29.  [setup.py], the version: the script goes on with a version
    only when it is not empty; it then stands between two quote
    characters (not necessarily the same) and holds none, after [VERSION],
    white space, [=] and white space, at the start of the text or of a
    line.  When no line begins with [VERSION] the script stops with
    [AttributeError], not with the [RuntimeError] it raises for an empty
    version. *)
Theorem setup_version_outcomes (version_py : string) :
  (forall v, Setup.version version_py = inl v ->
     v <> "" /\ all_chars Setup.not_quote v = true
     /\ exists before ws1 ws2 q1 q2 after,
          version_py = before ++ "VERSION" ++ ws1 ++ "=" ++ ws2
                       ++ String q1 (v ++ String q2 after)
          /\ (before = "" \/ exists b, before = b ++ chr NL)
          /\ all_chars is_space ws1 = true /\ all_chars is_space ws2 = true
          /\ Setup.is_quote q1 = true /\ Setup.is_quote q2 = true)
  /\ (Setup.line_starts_with true "VERSION" version_py = false ->
      Setup.version version_py = inr Setup.AttributeError).
Proof.
  unfold Setup.version. split.
  - intros v H.
    destruct (Setup.search_lines true version_py) as [g|] eqn:E; [|discriminate].
    destruct (String.eqb_spec g "") as [|Hne]; [discriminate|].
    injection H as ->.
    destruct (search_lines_Some _ _ _ E) as (before & rest & -> & Hm & Hb).
    destruct (version_pattern_Some _ _ Hm)
      as (ws1 & ws2 & q1 & q2 & after & -> & H1 & H2 & H3 & H4 & H5).
    split; [exact Hne|]. split; [exact H5|].
    exists before, ws1, ws2, q1, q2, after. split; [reflexivity|].
    split; [|auto]. destruct Hb as [[-> _] | Hb]; auto.
  - intros H. now rewrite (search_lines_None _ _ H).
Qed.

(** A greedy [C*] stops where the class ends, when the pattern goes on
    from there. *)
Lemma star_greedy {R : Type} (cls : ascii -> bool)
    (k : string -> string -> option R) (b : string) (r : R) :
  match b with String c _ => cls c = false | EmptyString => True end ->
  forall a cap : string,
    all_chars cls a = true ->
    k (cap ++ a) b = Some r ->
    Re.star cls k cap (a ++ b) = Some r.
Proof.
  intros Hb. induction a as [|x a IH]; intros cap Ha Hk.
  - rewrite (str_app_nil_r cap) in Hk. cbn [String.append].
    destruct b as [|c b]; [exact Hk|]. simpl. now rewrite Hb.
  - simpl in Ha. apply andb_true_iff in Ha as [Hx Ha].
    cbn [String.append Re.star]. rewrite Hx.
    rewrite (IH (cap ++ chr x) Ha); [reflexivity|].
    now rewrite str_app_snoc.
Qed.

Lemma quote_not_space (q : ascii) : Setup.is_quote q = true -> is_space q = false.
Proof.
  unfold Setup.is_quote. intros H. apply orb_true_iff in H as [H | H];
    apply Ascii.eqb_eq in H; subst q; reflexivity.
Qed.

(** The pattern on a well-formed assignment. *)
Lemma version_pattern_at (ws1 ws2 v after : string) (q1 q2 : ascii) :
  all_chars is_space ws1 = true -> all_chars is_space ws2 = true ->
  Setup.is_quote q1 = true -> Setup.is_quote q2 = true ->
  all_chars Setup.not_quote v = true ->
  Setup.version_pattern
    ("VERSION" ++ ws1 ++ "=" ++ ws2 ++ String q1 (v ++ String q2 after))
  = Some v.
Proof.
  intros H1 H2 Hq1 Hq2 Hv. unfold Setup.version_pattern.
  rewrite lit_app.
  apply (star_greedy is_space); [reflexivity | exact H1 |].
  cbv beta. rewrite lit_app.
  apply (star_greedy is_space); [now apply quote_not_space | exact H2 |].
  cbv beta. cbn [Setup.one]. rewrite Hq1.
  apply (star_greedy Setup.not_quote);
    [unfold Setup.not_quote; now rewrite Hq2 | exact Hv |].
  cbv beta. cbn [Setup.one]. now rewrite Hq2.
Qed.

(** A line that ends with a line feed and does not begin with [p] does
    not begin with [p] when more text follows. *)
Lemma startswith_before_newline (x : string) : forall p s b : string,
  contains (chr NL) p = false ->
  s = b ++ chr NL ->
  startswith p s = false ->
  startswith p (s ++ x) = false.
Proof.
  induction p as [|a p IH]; intros s b Hp Hs H; [discriminate|].
  destruct s as [|y s]; [now destruct b|].
  unfold startswith in *. cbn [String.append strip_prefix] in *.
  destruct (Ascii.eqb_spec a y) as [<- | Hne]; [|reflexivity].
  assert (Hp' : contains (chr NL) p = false).
  { change (String a p) with (chr a ++ p) in Hp.
    now apply contains_false_app_r in Hp. }
  assert (Ha : a <> NL).
  { intros ->. discriminate Hp. }
  destruct b as [|b0 b].
  - simpl in Hs. injection Hs as Hs _. congruence.
  - cbn [String.append] in Hs. injection Hs as _ Hs.
    exact (IH s b Hp' Hs H).
Qed.

Lemma search_lines_before (x : string) : forall (before : string) (at_line_start : bool),
  Setup.line_starts_with at_line_start "VERSION" before = false ->
  (before = "" /\ at_line_start = true \/ exists b, before = b ++ chr NL) ->
  Setup.search_lines at_line_start (before ++ x) = Setup.search_lines true x.
Proof.
  induction before as [|c before IH]; intros at_line_start H Hb.
  - destruct Hb as [[_ ->] | [b Hb]]; [reflexivity | now destruct b].
  - cbn [Setup.line_starts_with] in H. apply orb_false_iff in H as [H1 H2].
    assert (Hend : exists b, String c before = b ++ chr NL).
    { destruct Hb as [[Hb _] | Hb]; [discriminate | exact Hb]. }
    destruct Hend as [b Hend].
    cbn [String.append Setup.search_lines].
    assert (Hhead : (if at_line_start
                     then Setup.version_pattern (String c (before ++ x))
                     else None) = None).
    { destruct at_line_start; [|reflexivity]. simpl in H1.
      pose proof (startswith_before_newline x "VERSION" _ b eq_refl Hend H1) as Hs.
      cbn [String.append] in Hs.
      unfold Setup.version_pattern, Re.lit. unfold startswith in Hs.
      now destruct (strip_prefix "VERSION" _). }
    rewrite Hhead. apply IH; [exact H2|].
    destruct b as [|b0 b].
    + simpl in Hend. injection Hend as -> ->. left. split; reflexivity.
    + cbn [String.append] in Hend. injection Hend as _ ->. right. now exists b.
Qed.

(** X30.  [setup.py], the version of a well-formed file: when the first
    line that begins with [VERSION] goes on with white space, [=], white
    space and a text between two quote characters, the version is that
    text, whatever stands before that line and after the closing quote;
    when that text is empty the script raises [RuntimeError]. *)
Theorem setup_version_round_trip
    (before ws1 ws2 v after : string) (q1 q2 : ascii) :
  Setup.line_starts_with true "VERSION" before = false ->
  before = "" \/ (exists b, before = b ++ chr NL) ->
  all_chars is_space ws1 = true -> all_chars is_space ws2 = true ->
  Setup.is_quote q1 = true -> Setup.is_quote q2 = true ->
  all_chars Setup.not_quote v = true ->
  Setup.version (before ++ "VERSION" ++ ws1 ++ "=" ++ ws2
                 ++ String q1 (v ++ String q2 after))
  = if String.eqb v "" then inr Setup.RuntimeError else inl v.
Proof.
  intros Hbefore Hend H1 H2 Hq1 Hq2 Hv. unfold Setup.version.
  rewrite (search_lines_before _ before true Hbefore)
    by (destruct Hend as [-> | Hend]; [left; split; reflexivity | now right]).
  assert (Hsearch : forall s g, Setup.version_pattern s = Some g ->
                                Setup.search_lines true s = Some g).
  { intros s g Hg. destruct s; cbn [Setup.search_lines]; now rewrite Hg. }
  now rewrite (Hsearch _ _ (version_pattern_at ws1 ws2 v after q1 q2 H1 H2 Hq1 Hq2 Hv)).
Qed.

Lemma setup_version_round_trip_witness :
  Setup.version ("# Copyright" ++ chr NL ++ chr NL ++ "VERSION = " ++ chr DQ
                 ++ "1.0.0b1" ++ chr DQ ++ chr NL)
  = inl "1.0.0b1".
Proof.
  apply (setup_version_round_trip ("# Copyright" ++ chr NL ++ chr NL) " " " "
           "1.0.0b1" (chr NL) DQ DQ); try reflexivity.
  right. now exists ("# Copyright" ++ chr NL).
Defined.
